(** * Resumable ingestion into the vector index

    A shallow embedding of [scripts/resume_ingestion_pinecone.py]: the
    checkpoint store, the failure log, the embedding worker with its retry
    loop, the batch coordinator [process_batch] and the streaming driver
    loop, followed by the properties the specification states about them.

    Conventions.
    - A Python [str] is a [string]; one [ascii] stands for one character, so
      [len] is [String.length] and [s[:n]] keeps the first [n] characters.
    - A value read from JSON (by [ijson] or [json.load]) is a [json]; a Python
      [dict] with string keys is a [gmap string json].  A number that is not
      an integer is a [JReal]: in a record of the stream it is the
      [decimal.Decimal] that [ijson] yields, in a file read by [json.load]
      and in what [float()] and [time.time()] return it is a [float].
    - An exception is represented by its message, the text [str(e)] gives.
    - The services outside the repository (the embedding service, the index,
      the clock) answer through an oracle; files are represented by what
      [json.load] makes of them.
    - The record stream is a finite list of JSON objects: the document parses.
      Opening a file for writing succeeds; [json.dump] raises on a
      [decimal.Decimal] and on nothing else the pipeline hands to it.
    - The world keeps a history of what the driver thread did; the properties
      are read off that history and off the two files. *)

From Stdlib Require Import ZArith QArith.
From stdpp Require Import gmap strings list sorting pretty.

Set Warnings "-register-all".

(** ** Python values *)

Inductive json : Type :=
| JNull
| JBool (b : bool)
| JInt (z : Z)
| JReal (q : Q)
| JStr (s : string)
| JList (l : list json)
| JObj (m : gmap string json).

Abbreviation record := (gmap string json).

(** An exception, carried as the message [str(e)] returns. *)
Inductive exn : Type :=
| Exn (msg : string).

Definition exn_msg (e : exn) : string :=
  match e with Exn msg => msg end.

(** The outcome of code that may raise. *)
Inductive result (A : Type) : Type :=
| Ok (a : A)
| Raise (e : exn).

Arguments Ok {A} a.
Arguments Raise {A} e.

Definition bind {A B : Type} (r : result A) (k : A -> result B) : result B :=
  match r with
  | Ok a => k a
  | Raise e => Raise e
  end.

Notation "x <- r ;; k" := (bind r (fun x => k))
  (at level 100, r at next level, right associativity).

(** [bool(v)], the test an [if v:] or [v or d] makes. *)
Definition truthy (v : json) : bool :=
  match v with
  | JNull => false
  | JBool b => b
  | JInt z => negb (z =? 0)%Z
  | JReal q => negb (Qeq_bool q 0)
  | JStr s => negb (String.eqb s "")
  | JList l => negb (Nat.eqb (length l) 0)
  | JObj m => negb (Nat.eqb (size m) 0)
  end.

(** [d.get(k, default)] and [d.get(k)]. *)
Definition get (d : record) (k : string) (dflt : json) : json :=
  default dflt (d !! k).

Definition get_none (d : record) (k : string) : json :=
  get d k JNull.

(** [s[:n]] on a string. *)
Definition str_take (n : nat) (s : string) : string :=
  String.substring 0 n s.

(** [needle in hay] on strings. *)
Fixpoint str_contains (needle hay : string) : bool :=
  String.prefix needle hay ||
  match hay with
  | EmptyString => false
  | String _ hay' => str_contains needle hay'
  end.

(** [v[:n]]: strings and lists can be sliced, every other value raises.
    (For a dict the exception is a [TypeError] up to Python 3.11 and a
    [KeyError] from 3.12 on; neither message mentions 429.) *)
Definition slice_to (n : nat) (v : json) : result json :=
  match v with
  | JStr s => Ok (JStr (str_take n s))
  | JList l => Ok (JList (take n l))
  | JNull => Raise (Exn "'NoneType' object is not subscriptable")
  | JBool _ => Raise (Exn "'bool' object is not subscriptable")
  | JInt _ => Raise (Exn "'int' object is not subscriptable")
  | JReal _ => Raise (Exn "'decimal.Decimal' object is not subscriptable")
  | JObj _ => Raise (Exn "unhashable type: 'slice'")
  end.

(** [json.dump] can write a value of a record: it holds no
    [decimal.Decimal], on which the encoder raises a [TypeError] wherever
    it stands. *)
Fixpoint dumpable (v : json) : bool :=
  match v with
  | JReal _ => false
  | JList l => forallb dumpable l
  | JObj m => map_fold (fun _ x rest => dumpable x && rest) true m
  | _ => true
  end.

(** ** Files and the outside world *)

(** A file, as [os.path.exists] and [json.load] see it. *)
Inductive file : Type :=
| Absent
| Unparsable
| Content (v : json).

(** What the embedding service answers to one call: lines 112-117, the
    call and the extraction of [result['embedding']]. *)
Inductive embed_response : Type :=
| Embedded (values : json)
| EmbedError (e : exn).

(** The answers of the outside world during one call of [process_batch]:
    [embed_responses i k] is the answer to the [k]-th call made for the
    [i]-th item of the batch, [upsert_response] is the exception
    [index.upsert] raises, if any, and [clock] is what [time.time()]
    returns. *)
Record batch_env : Type := {
  embed_responses : nat -> nat -> embed_response;
  upsert_response : option exn;
  clock : Q
}.

(** What the driver thread did, oldest first: the calls of [process_batch]
    and, inside them, the writes to the failure log, the index and the
    checkpoint. *)
Inductive event : Type :=
| ProcessBatch (batch_items : list record)
| FailureLogged (entry : json)
| Upserted (vectors : list record)
| UpsertFailed (vectors : list record) (e : exn)
| CheckpointSaved (last_processed_id : string).

Record world : Type := {
  checkpoint_file : file;
  failed_log_file : file;
  history : list event
}.

(** What an embedding worker does besides returning. *)
Inductive worker_event : Type :=
| EmbedCall (text : string)
| Sleep (seconds : Z).

Definition BATCH_SIZE : nat := 100.

(** [str()] of a number, a list or a dict, and [float()]: builtins whose
    text and rounding the pipeline does not depend on. *)
Class Builtins : Type := {
  py_repr : json -> string;
  py_float : json -> result Q
}.

Section Pipeline.

Context `{!Builtins}.

Definition py_str (v : json) : string :=
  match v with
  | JStr s => s
  | JNull => "None"
  | JBool true => "True"
  | JBool false => "False"
  | _ => py_repr v
  end.

(** *** Checkpoint store (lines 57-69) *)

Definition load_checkpoint (f : file) : json :=
  match f with
  | Content (JObj ckpt) => get_none ckpt "lastId"
  | _ => JNull
  end.

Definition save_checkpoint (last_processed_id : json) (now : Q) (w : world) : world :=
  {| checkpoint_file :=
       Content (JObj {[ "lastId" := JStr (py_str last_processed_id);
                        "timestamp" := JReal now ]});
     failed_log_file := failed_log_file w;
     history := history w ++ [CheckpointSaved (py_str last_processed_id)] |}.

(** *** Failure log (lines 71-81)

    [existing.append] raises when the file holds JSON that is not a list;
    nothing catches it, and the file is left as it was.  The file is then
    opened for writing, which empties it, and [json.dump] writes the list
    piece by piece: the entries read from the file are floats, strings and
    the like and are written; the new entry holds the identifier and the
    title of a record, and a [decimal.Decimal] in one of them makes the
    encoder raise a [TypeError] that nothing catches.  The file is left
    with the beginning of a JSON list, which no longer parses. *)

(** The name of the type [json.load] gives a value. *)
Definition loaded_type_name (v : json) : string :=
  match v with
  | JNull => "NoneType"
  | JBool _ => "bool"
  | JInt _ => "int"
  | JReal _ => "float"
  | JStr _ => "str"
  | JList _ => "list"
  | JObj _ => "dict"
  end.

Definition failure_entry (item_id title : json) (error : string) : json :=
  JObj {[ "id" := item_id; "title" := title; "error" := JStr error ]}.

Definition log_failure (item_id title : json) (error : string) (w : world)
  : result unit * world :=
  let entry := failure_entry item_id title error in
  let existing :=
    match failed_log_file w with
    | Content v => v
    | _ => JList []
    end in
  match existing with
  | JList l =>
      if dumpable item_id && dumpable title
      then
        (Ok tt,
         {| checkpoint_file := checkpoint_file w;
            failed_log_file := Content (JList (l ++ [entry]));
            history := history w ++ [FailureLogged entry] |})
      else
        (Raise (Exn "Object of type Decimal is not JSON serializable"),
         {| checkpoint_file := checkpoint_file w;
            failed_log_file := Unparsable;
            history := history w |})
  | v =>
      (Raise (Exn ("'" +:+ loaded_type_name v
                   +:+ "' object has no attribute 'append'")), w)
  end.

(** *** Embedding worker (lines 103-142) *)

Definition build_metadata (movie : record) : result record :=
  title <- slice_to 1000 (get movie "title" (JStr "Unknown")) ;;
  year <- (if truthy (get_none movie "release_date")
           then slice_to 4 (get movie "release_date" (JStr ""))
           else Ok (JStr "")) ;;
  genres <- slice_to 1000 (JStr (py_str (get movie "genres" (JStr "")))) ;;
  poster_path <- Ok (let p := get movie "poster_path" (JStr "") in
                     if truthy p then p else JStr "") ;;
  overview <- slice_to 1000 (get movie "overview" (JStr "")) ;;
  vote_average <- py_float (get movie "vote_average" (JInt 0)) ;;
  popularity <- py_float (get movie "popularity" (JInt 0)) ;;
  Ok ({[ "title" := title;
         "year" := year;
         "genres" := genres;
         "poster_path" := poster_path;
         "overview" := overview;
         "vote_average" := JReal vote_average;
         "popularity" := JReal popularity ]} : record).

(** The body of the [try]: one call of the service and the construction
    of the upsert unit. *)
Definition embed_once (movie : record) (resp : embed_response) : result record :=
  embedding <- (match resp with
                | Embedded values => Ok values
                | EmbedError e => Raise e
                end) ;;
  metadata <- build_metadata movie ;;
  Ok ({[ "id" := JStr (py_str (get_none movie "id"));
         "values" := embedding;
         "metadata" := JObj metadata ]} : record).

(** The [while retries > 0] loop; [k] counts the calls made so far. *)
Fixpoint embed_loop (retries : nat) (k : nat) (resps : nat -> embed_response)
    (movie : record) (text : string) : option record * list worker_event :=
  match retries with
  | O => (None, [])
  | S retries' =>
      match embed_once movie (resps k) with
      | Ok vector => (Some vector, [EmbedCall text])
      | Raise e =>
          let slept :=
            if str_contains "429" (exn_msg e)
            then [Sleep (2 * (4 - Z.of_nat retries))%Z]
            else [] in
          let '(r, evs) := embed_loop retries' (S k) resps movie text in
          (r, EmbedCall text :: slept ++ evs)
      end
  end.

Definition generate_embedding (data_item : record * string)
    (resps : nat -> embed_response)
  : (record * option record) * list worker_event :=
  let '(movie, text) := data_item in
  let '(r, evs) := embed_loop 3 0 resps movie text in
  ((movie, r), evs).

(** *** Batch coordinator (lines 145-192) *)

(** The preparation loop's body: the record with its genres replaced by the
    joined genre names, and the text to embed. *)
Definition genre_names (genres_list : json) : string :=
  match genres_list with
  | JList l =>
      String.concat ", "
        (omap (fun g => match g with
                        | JObj d => Some (py_str (get d "name" (JStr "")))
                        | _ => None
                        end) l)
  | v => py_str v
  end.

Definition prepare (movie : record) : record * string :=
  let title := get movie "title" (JStr "Unknown") in
  let overview := get movie "overview" (JStr "") in
  let genres := genre_names (get movie "genres" (JList [])) in
  let movie' := <[ "genres" := JStr genres ]> movie in
  let text := "Title: " +:+ py_str title +:+ ". Overview: " +:+ py_str overview
              +:+ ". Genres: " +:+ genres in
  (movie', text).

(** The loop over [results]: successes are collected, every failure is
    logged at once. *)
Fixpoint collect (results : list (record * option record))
    (vectors_to_upsert : list record) (failed_in_batch : Z) (w : world)
  : result (list record * Z) * world :=
  match results with
  | [] => (Ok (vectors_to_upsert, failed_in_batch), w)
  | (movie, Some vector) :: results' =>
      collect results' (vectors_to_upsert ++ [vector]) failed_in_batch w
  | (movie, None) :: results' =>
      match log_failure (get_none movie "id") (get_none movie "title")
              "Embedding generation failed after retries" w with
      | (Ok _, w') => collect results' vectors_to_upsert (failed_in_batch + 1)%Z w'
      | (Raise e, w') => (Raise e, w')
      end
  end.

(** Lines 180-190: the upsert and, after it, the checkpoint. *)
Definition commit (batch_items vectors_to_upsert : list record) (env : batch_env)
    (w : world) : world :=
  match vectors_to_upsert with
  | [] => w
  | _ :: _ =>
      match upsert_response env with
      | None =>
          let w1 := {| checkpoint_file := checkpoint_file w;
                       failed_log_file := failed_log_file w;
                       history := history w ++ [Upserted vectors_to_upsert] |} in
          match last batch_items with
          | Some last_movie_in_batch =>
              save_checkpoint (get_none last_movie_in_batch "id") (clock env) w1
          | None => w1
          end
      | Some e =>
          {| checkpoint_file := checkpoint_file w;
             failed_log_file := failed_log_file w;
             history := history w ++ [UpsertFailed vectors_to_upsert e] |}
      end
  end.

(** [executor.map]: one worker per item, the results in the order of the
    items; the pool is left only when every worker has returned. *)
Definition worker_results (work_items : list (record * string)) (env : batch_env)
  : list (record * option record) :=
  imap (fun i item => fst (generate_embedding item (embed_responses env i)))
       work_items.

Definition process_batch (batch_items : list record) (env : batch_env) (w : world)
  : result (Z * Z) * world :=
  let w0 := {| checkpoint_file := checkpoint_file w;
               failed_log_file := failed_log_file w;
               history := history w ++ [ProcessBatch batch_items] |} in
  let work_items := prepare <$> batch_items in
  let batch_items' := fst <$> work_items in
  let results := worker_results work_items env in
  match collect results [] 0%Z w0 with
  | (Ok (vectors_to_upsert, failed_in_batch), w') =>
      (Ok (Z.of_nat (length vectors_to_upsert), failed_in_batch),
       commit batch_items' vectors_to_upsert env w')
  | (Raise e, w') => (Raise e, w')
  end.

(** *** Run driver (lines 96-99 and 195-226) *)

Record run_state : Type := {
  skip_mode : bool;
  current_batch : list record;
  processed_count : Z;
  failed_count : Z
}.

(** The [for movie in movies_generator] loop.  [n] counts the calls of
    [process_batch] made so far: the next one is answered by [envs n]. *)
Fixpoint stream_loop (last_id : json) (movies : list record)
    (envs : nat -> batch_env) (n : nat) (st : run_state) (w : world)
  : result run_state * nat * world :=
  match movies with
  | [] => (Ok st, n, w)
  | movie :: movies' =>
      let movie_id := py_str (get_none movie "id") in
      if skip_mode st then
        let st' :=
          if String.eqb movie_id (py_str last_id)
          then {| skip_mode := false;
                  current_batch := current_batch st;
                  processed_count := processed_count st;
                  failed_count := failed_count st |}
          else st in
        stream_loop last_id movies' envs n st' w
      else
        let batch := current_batch st ++ [movie] in
        if (BATCH_SIZE <=? length batch)%nat then
          match process_batch batch (envs n) w with
          | (Ok (success, failed), w') =>
              stream_loop last_id movies' envs (S n)
                {| skip_mode := false;
                   current_batch := [];
                   processed_count := (processed_count st + success)%Z;
                   failed_count := (failed_count st + failed)%Z |} w'
          | (Raise e, w') => (Raise e, n, w')
          end
        else
          stream_loop last_id movies' envs n
            {| skip_mode := false;
               current_batch := batch;
               processed_count := processed_count st;
               failed_count := failed_count st |} w
  end.

(** The whole run: the checkpoint is loaded, the stream is consumed, the
    last partial batch is flushed; the result is the pair of totals the
    last line prints. *)
Definition run (movies : list record) (envs : nat -> batch_env) (w : world)
  : result (Z * Z) * world :=
  let last_id := load_checkpoint (checkpoint_file w) in
  let st0 := {| skip_mode := truthy last_id;
                current_batch := [];
                processed_count := 0%Z;
                failed_count := 0%Z |} in
  match stream_loop last_id movies envs 0 st0 w with
  | (Ok st, n, w') =>
      match current_batch st with
      | [] => (Ok (processed_count st, failed_count st), w')
      | _ :: _ =>
          match process_batch (current_batch st) (envs n) w' with
          | (Ok (success, failed), w'') =>
              (Ok ((processed_count st + success)%Z,
                   (failed_count st + failed)%Z), w'')
          | (Raise e, w'') => (Raise e, w'')
          end
      end
  | (Raise e, _, w') => (Raise e, w')
  end.

End Pipeline.

(** ** Reading a history *)

(** The events a computation added when it took [w] to [w']. *)
Definition events_since (w w' : world) : list event :=
  drop (length (history w)) (history w').

(** The batches handed to [process_batch], in the order of the calls. *)
Definition flushed (evs : list event) : list (list record) :=
  omap (fun ev => match ev with ProcessBatch b => Some b | _ => None end) evs.

(** The vector lists handed to [index.upsert], committed or not. *)
Definition submitted (evs : list event) : list (list record) :=
  omap (fun ev => match ev with
                  | Upserted vs => Some vs
                  | UpsertFailed vs _ => Some vs
                  | _ => None
                  end) evs.

(** The vector lists the index accepted. *)
Definition committed (evs : list event) : list (list record) :=
  omap (fun ev => match ev with Upserted vs => Some vs | _ => None end) evs.

(** The entries appended to the failure log. *)
Definition logged (evs : list event) : list json :=
  omap (fun ev => match ev with FailureLogged entry => Some entry | _ => None end) evs.

(** The identifiers written to the checkpoint file. *)
Definition saved (evs : list event) : list string :=
  omap (fun ev => match ev with CheckpointSaved s => Some s | _ => None end) evs.

(** The entries a failure log holds, as [log_failure] reads them. *)
Definition existing_entries (f : file) : list json :=
  match f with
  | Content (JList l) => l
  | _ => []
  end.

(** The failure log can be appended to: it is absent, unreadable, or a
    JSON list. *)
Definition appendable (f : file) : bool :=
  match f with
  | Absent | Unparsable | Content (JList _) => true
  | Content _ => false
  end.

(** The calls an embedding worker made and the delays it slept. *)
Definition attempts (evs : list worker_event) : list string :=
  omap (fun ev => match ev with EmbedCall text => Some text | _ => None end) evs.

Definition delays (evs : list worker_event) : list Z :=
  omap (fun ev => match ev with Sleep s => Some s | _ => None end) evs.

(** [t] is exactly the first [n] characters of [s]. *)
Definition first_chars (n : nat) (s t : string) : Prop :=
  String.length t = n /\ exists rest, s = t +:+ rest.

(** A metadata field holds the string [s] cut to [n] characters: its first
    [n] characters when [s] is longer than that, and [s] itself otherwise. *)
Definition truncated (n : nat) (s : string) (field : option json) : Prop :=
  exists t, field = Some (JStr t)
            /\ if (n <? String.length s)%nat then first_chars n s t else t = s.

(** ** The run, batch by batch

    The definitions of this part describe what a call of [process_batch]
    and a whole run amount to; the properties below relate them to the
    code above. *)

Section Views.

Context `{!Builtins}.

(** The entry [process_batch] logs for a record whose embedding failed. *)
Definition failure_of (movie : record) : json :=
  failure_entry (get_none movie "id") (get_none movie "title")
    "Embedding generation failed after retries".

(** The failure entry of a record can be written: neither its identifier
    nor its title holds a [decimal.Decimal]. *)
Definition loggable (movie : record) : bool :=
  dumpable (get_none movie "id") && dumpable (get_none movie "title").

(** The vectors of the records that were embedded, and the log entries of
    those that were not, both in the order of the batch. *)
Definition vectors_of (results : list (record * option record)) : list record :=
  omap snd results.

Definition failures_of (results : list (record * option record)) : list json :=
  omap (fun r => match r.2 with
                 | None => Some (failure_of r.1)
                 | Some _ => None
                 end) results.

(** The failure log and the world after [entries] were appended to the
    log one by one. *)
Definition log_file_after (entries : list json) (f : file) : file :=
  match entries with
  | [] => f
  | _ :: _ => Content (JList (existing_entries f ++ entries))
  end.

Definition log_entries (entries : list json) (w : world) : world :=
  match entries with
  | [] => w
  | _ :: _ =>
      {| checkpoint_file := checkpoint_file w;
         failed_log_file := log_file_after entries (failed_log_file w);
         history := history w ++ (FailureLogged <$> entries) |}
  end.

(** The events of lines 180-190. *)
Definition commit_events (batch_items vectors_to_upsert : list record)
    (env : batch_env) : list event :=
  match vectors_to_upsert with
  | [] => []
  | _ :: _ =>
      match upsert_response env with
      | None =>
          Upserted vectors_to_upsert ::
          match last batch_items with
          | Some last_movie_in_batch =>
              [CheckpointSaved (py_str (get_none last_movie_in_batch "id"))]
          | None => []
          end
      | Some e => [UpsertFailed vectors_to_upsert e]
      end
  end.

(** The events of one call of [process_batch] that is not cut short. *)
Definition batch_events (batch_items : list record) (env : batch_env) : list event :=
  let results := worker_results (prepare <$> batch_items) env in
  ProcessBatch batch_items ::
  (FailureLogged <$> failures_of results) ++
  commit_events batch_items (vectors_of results) env.

(** The driver loop without its effects: the batches it flushes while it
    reads [movies], and the buffer it is left with. *)
Fixpoint fill (size : nat) (buffer movies : list record)
  : list (list record) * list record :=
  match movies with
  | [] => ([], buffer)
  | movie :: movies' =>
      let batch := buffer ++ [movie] in
      if (size <=? length batch)%nat
      then (batch :: (fill size [] movies').1, (fill size [] movies').2)
      else fill size batch movies'
  end.

(** All the batches of a run over [movies], the final partial one included. *)
Definition batches_of (movies : list record) : list (list record) :=
  (fill BATCH_SIZE [] movies).1 ++
  match (fill BATCH_SIZE [] movies).2 with
  | [] => []
  | movie :: rest => [movie :: rest]
  end.

(** The records that follow the first one whose identifier reads [target]. *)
Fixpoint after_checkpoint (target : string) (movies : list record) : list record :=
  match movies with
  | [] => []
  | movie :: movies' =>
      if String.eqb (py_str (get_none movie "id")) target
      then movies'
      else after_checkpoint target movies'
  end.

(** The records the skip logic lets through. *)
Definition reached (last_id : json) (movies : list record) : list record :=
  if truthy last_id
  then after_checkpoint (py_str last_id) movies
  else movies.

(** [process_batch] over a list of batches, with the running totals. *)
Fixpoint run_batches (batches : list (list record)) (envs : nat -> batch_env)
    (n : nat) (totals : Z * Z) (w : world) : result (Z * Z) * nat * world :=
  match batches with
  | [] => (Ok totals, n, w)
  | batch :: batches' =>
      match process_batch batch (envs n) w with
      | (Ok (success, failed), w') =>
          run_batches batches' envs (S n)
            ((totals.1 + success)%Z, (totals.2 + failed)%Z) w'
      | (Raise e, w') => (Raise e, n, w')
      end
  end.

(** The events of the calls of [process_batch] over [batches], none of
    them cut short. *)
Fixpoint run_events (batches : list (list record)) (envs : nat -> batch_env)
    (n : nat) : list event :=
  match batches with
  | [] => []
  | batch :: batches' => batch_events batch (envs n) ++ run_events batches' envs (S n)
  end.

(** What became of each record of a batch, and of each record of a run:
    the record with its vector, or with [None] when its embedding failed. *)
Definition batch_outcomes (batch_items : list record) (env : batch_env)
  : list (record * option record) :=
  imap (fun i movie =>
          (movie, (generate_embedding (prepare movie) (embed_responses env i)).1.2))
       batch_items.

Fixpoint run_outcomes (batches : list (list record)) (envs : nat -> batch_env)
    (n : nat) : list (record * option record) :=
  match batches with
  | [] => []
  | batch :: batches' =>
      batch_outcomes batch (envs n) ++ run_outcomes batches' envs (S n)
  end.

(** The same answers from the embedding service, and an index that
    accepts the upsert. *)
Definition with_upsert_accepted (env : batch_env) : batch_env :=
  {| embed_responses := embed_responses env;
     upsert_response := None;
     clock := clock env |}.

(** The checkpoint file left by a computation that saved [ids]. *)
Definition checkpoint_after (ids : list string) (now : Q) (f : file) : file :=
  match last ids with
  | Some last_processed_id =>
      Content (JObj {[ "lastId" := JStr last_processed_id;
                       "timestamp" := JReal now ]})
  | None => f
  end.

(** What the driver loop leaves behind: its buffer and its totals. *)
Definition outcome_of (x : result run_state * nat * world)
  : result (list record * Z * Z) * nat * world :=
  (match x.1.1 with
   | Ok st => Ok (current_batch st, processed_count st, failed_count st)
   | Raise e => Raise e
   end, x.1.2, x.2).

Definition with_buffer (rest : list record) (x : result (Z * Z) * nat * world)
  : result (list record * Z * Z) * nat * world :=
  (match x.1.1 with
   | Ok (p, f) => Ok (rest, p, f)
   | Raise e => Raise e
   end, x.1.2, x.2).

End Views.

(** Whether a computation returned instead of raising. *)
Definition succeeds {A : Type} (r : result A) : bool :=
  match r with
  | Ok _ => true
  | Raise _ => false
  end.

(** How many batches a list of calls of [process_batch] started when it
    ended with [x], the result and the number of calls that returned, having
    begun at call [n]: the calls that returned, and the one that raised. *)
Definition started (x : result (Z * Z) * nat) (n : nat) : nat :=
  (x.2 - n + (if succeeds x.1 then 0 else 1))%nat.

(** The world with another checkpoint file. *)
Definition with_checkpoint (f : file) (w : world) : world :=
  {| checkpoint_file := f;
     failed_log_file := failed_log_file w;
     history := history w |}.

(** The same answers from the embedding service in every batch, and an
    index that accepts every upsert. *)
Definition accepting (envs : nat -> batch_env) : nat -> batch_env :=
  fun k => with_upsert_accepted (envs k).

(** ** Startup (lines 14-55) and the statistics script

    The two clients are taken to be made without an exception; what the
    script prints at startup is left out. *)

(** [c.isspace()] for the characters below 256: the ASCII white space, the
    four separators 28 to 31, NEL and the no-break space. *)
Definition is_space (c : Ascii.ascii) : bool :=
  let n := Ascii.nat_of_ascii c in
  ((9 <=? n) && (n <=? 13) || (28 <=? n) && (n <=? 32)
   || (n =? 133) || (n =? 160))%nat.

(** [s.lstrip()], [s.rstrip()] and [s.strip()]. *)
Fixpoint lstrip (s : string) : string :=
  match s with
  | EmptyString => EmptyString
  | String c s' => if is_space c then lstrip s' else s
  end.

Fixpoint rstrip (s : string) : string :=
  match s with
  | EmptyString => EmptyString
  | String c s' =>
      match rstrip s' with
      | EmptyString => if is_space c then EmptyString else String c EmptyString
      | String c' r => String c (String c' r)
      end
  end.

Definition strip (s : string) : string := rstrip (lstrip s).

(** A string made of white space only, the empty string included. *)
Fixpoint blank (s : string) : bool :=
  match s with
  | EmptyString => true
  | String c s' => is_space c && blank s'
  end.

(** [os.getenv(k, default)], once [load_dotenv] has run. *)
Definition getenv (environ : gmap string string) (k dflt : string) : string :=
  default dflt (environ !! k).

Definition INDEX_NAME : string := "media-knowledge-graph".

(** The arguments of [pc.create_index]. *)
Record index_request : Type := {
  request_name : string;
  request_dimension : Z;
  request_metric : string;
  request_cloud : string;
  request_region : string
}.

(** The answers of the index service at startup: the names
    [pc.list_indexes()] yields, or the exception it raises, and the
    exception [pc.create_index] raises, if any. *)
Record index_service : Type := {
  list_indexes : result (list string);
  create_index : index_request -> option exn
}.

Inductive service_call : Type :=
| ListIndexes
| CreateIndex (request : index_request).

(** How the startup ends: [exit(code)], or the script goes on. *)
Inductive startup_outcome : Type :=
| Exit (code : Z)
| Ready.

(** Lines 14-25. *)
Definition check_keys (environ : gmap string string) : startup_outcome :=
  let PINECONE_API_KEY := strip (getenv environ "PINECONE_API_KEY" "") in
  let GOOGLE_API_KEY := strip (getenv environ "GOOGLE_API_KEY" "") in
  if String.eqb PINECONE_API_KEY "" then Exit 1
  else if String.eqb GOOGLE_API_KEY "" then Exit 1
  else Ready.

(** Lines 41-53. *)
Definition check_index (svc : index_service) : startup_outcome * list service_call :=
  match list_indexes svc with
  | Ok existing_indexes =>
      if bool_decide (INDEX_NAME ∈ existing_indexes)
      then (Ready, [ListIndexes])
      else
        let request := {| request_name := INDEX_NAME;
                          request_dimension := 768;
                          request_metric := "dotproduct";
                          request_cloud := "aws";
                          request_region := "us-east-1" |} in
        match create_index svc request with
        | None => (Ready, [ListIndexes; CreateIndex request])
        | Some e => (Exit 1, [ListIndexes; CreateIndex request])
        end
  | Raise e => (Exit 1, [ListIndexes])
  end.

Definition startup (environ : gmap string string) (svc : index_service)
  : startup_outcome * list service_call :=
  match check_keys environ with
  | Exit code => (Exit code, [])
  | Ready => check_index svc
  end.

(** How the script ends: by [exit(code)] at startup, or after the run. *)
Inductive script_outcome : Type :=
| Exited (code : Z)
| Finished (totals : result (Z * Z)).

Section Script.

Context `{!Builtins}.

(** The script from its first line to its last. *)
Definition script (environ : gmap string string) (svc : index_service)
    (movies : list record) (envs : nat -> batch_env) (w : world)
  : script_outcome * list service_call * world :=
  match startup environ svc with
  | (Exit code, calls) => (Exited code, calls, w)
  | (Ready, calls) =>
      (Finished (run movies envs w).1, calls, (run movies envs w).2)
  end.

End Script.

(** *** [check_pinecone_stats.py] *)

(** The answers of the index service to the statistics script: the
    exception raised while the client and the index handle are made, if
    any, the host [describe_index] reports, and the statistics
    [describe_index_stats] returns, as [to_dict] gives them. *)
Record stats_service : Type := {
  connect : option exn;
  describe_index : result string;
  describe_index_stats : result json
}.

Inductive stats_call : Type :=
| Connect
| DescribeIndex
| DescribeIndexStats.

(** The script: its exit status, the lines it prints and the calls it
    makes.  [dumps] stands for [json.dumps(..., indent=2)]. *)
Definition stats_script (environ : gmap string string) (svc : stats_service)
    (dumps : json -> result string) : Z * list string * list stats_call :=
  let PINECONE_API_KEY := strip (getenv environ "PINECONE_API_KEY" "") in
  if String.eqb PINECONE_API_KEY ""
  then (1%Z, ["Error: PINECONE_API_KEY not found"], [])
  else
    match connect svc with
    | Some e => (0%Z, ["Error: " +:+ exn_msg e], [Connect])
    | None =>
        match describe_index svc with
        | Raise e => (0%Z, ["Error: " +:+ exn_msg e], [Connect; DescribeIndex])
        | Ok host =>
            match describe_index_stats svc with
            | Raise e =>
                (0%Z, ["HOST: " +:+ host; "Error: " +:+ exn_msg e],
                 [Connect; DescribeIndex; DescribeIndexStats])
            | Ok stats =>
                match dumps stats with
                | Raise e =>
                    (0%Z, ["HOST: " +:+ host; "Error: " +:+ exn_msg e],
                     [Connect; DescribeIndex; DescribeIndexStats])
                | Ok text =>
                    (0%Z, ["HOST: " +:+ host; text],
                     [Connect; DescribeIndex; DescribeIndexStats])
                end
            end
        end
    end.

(** ** Sample inputs *)

(** Builtins for the numbers and strings the samples use. *)
Definition sample_builtins : Builtins := {|
  py_repr := fun v =>
    match v with
    | JInt 0 => "0"
    | JInt 7 => "7"
    | _ => "[...]"
    end;
  py_float := fun v =>
    match v with
    | JInt z => Ok (inject_Z z)
    | JReal q => Ok q
    | JBool b => Ok (if b then 1%Q else 0%Q)
    | _ => Raise (Exn "float() argument must be a string or a real number")
    end
|}.

Definition movie_a : record :=
  {[ "id" := JStr "a"; "title" := JStr "Alpha"; "overview" := JStr "First";
     "genres" := JList [JObj {[ "name" := JStr "Drama" ]};
                        JObj {[ "name" := JStr "War" ]}] ]}.

Definition movie_b : record :=
  {[ "id" := JStr "b"; "title" := JStr "Beta"; "overview" := JStr "Second" ]}.

(** A record whose identifier is the empty string. *)
Definition movie_blank : record :=
  {[ "id" := JStr ""; "title" := JStr "Blank" ]}.

(** A record whose title cannot be sliced: its metadata never builds. *)
Definition movie_untitled : record :=
  {[ "id" := JInt 7; "title" := JNull ]}.

(** A record whose title is a number that is not an integer: [ijson] yields
    a [decimal.Decimal] for it. *)
Definition movie_decimal : record :=
  {[ "id" := JStr "d"; "title" := JReal (15 # 2) ]}.

Definition some_vector : json := JList [JReal 1%Q; JReal 0%Q].

(** Every embedding call succeeds and the index accepts every upsert. *)
Definition env_fine : batch_env :=
  {| embed_responses := fun _ _ => Embedded some_vector;
     upsert_response := None;
     clock := 1700000000%Q |}.

(** Every embedding call succeeds and the index refuses the upsert. *)
Definition env_index_down : batch_env :=
  {| embed_responses := fun _ _ => Embedded some_vector;
     upsert_response := Some (Exn "503 Service Unavailable");
     clock := 1700000000%Q |}.

(** Every embedding call is rate limited. *)
Definition env_rate_limited : batch_env :=
  {| embed_responses :=
       fun _ _ => EmbedError (Exn "429 Resource has been exhausted");
     upsert_response := None;
     clock := 1700000000%Q |}.

Definition fresh_world : world :=
  {| checkpoint_file := Absent; failed_log_file := Absent; history := [] |}.

Definition world_with_checkpoint (last_id : json) : world :=
  {| checkpoint_file := Content (JObj {[ "lastId" := last_id;
                                         "timestamp" := JReal 1699999999%Q ]});
     failed_log_file := Absent;
     history := [] |}.

(** A text of 1200 characters, and a record with it as overview. *)
Definition long_text : string := String.concat "" (replicate 1200 "x").

Definition movie_long : record :=
  {[ "id" := JStr "long"; "title" := JStr "Long"; "overview" := JStr long_text ]}.

(** A stream of [n] records, numbered from 1. *)
Definition numbered_movie (i : nat) : record :=
  {[ "id" := JStr (pretty i); "title" := JStr "Numbered" ]}.

Definition numbered_stream (n : nat) : list record :=
  numbered_movie <$> seq 1 n.

(** A world whose failure log holds [entries]. *)
Definition world_with_log (entries : list json) : world :=
  {| checkpoint_file := Absent;
     failed_log_file := Content (JList entries);
     history := [] |}.

(** A world whose failure log holds an object instead of a list. *)
Definition world_with_malformed_log : world :=
  {| checkpoint_file := Absent;
     failed_log_file := Content (JObj ∅);
     history := [] |}.

(** An environment with both keys, one of them padded with spaces. *)
Definition environ_with_keys : gmap string string :=
  {[ "PINECONE_API_KEY" := "pc-key"; "GOOGLE_API_KEY" := " g-key " ]}.

(** An index service that knows another index only and accepts a creation. *)
Definition service_without_index : index_service :=
  {| list_indexes := Ok ["another-index"];
     create_index := fun _ => None |}.

(** ** Properties *)

Section Properties.

Context `{!Builtins}.

Arguments str_take : simpl never.

(** *** Strings *)

Lemma str_take_length (n : nat) (s : string) :
  String.length (str_take n s) = Nat.min n (String.length s).
Proof.
  unfold str_take. revert s.
  induction n as [|n IH]; intros [|c s]; simpl; try reflexivity.
  now rewrite IH.
Qed.

Lemma str_take_prefix (n : nat) (s : string) :
  exists rest, s = str_take n s +:+ rest.
Proof.
  unfold str_take. revert s.
  induction n as [|n IH]; intros [|c s]; simpl.
  - now exists "".
  - now exists (String c s).
  - now exists "".
  - destruct (IH s) as [rest Hrest]. exists rest.
    change (String c s = String c (String.substring 0 n s +:+ rest)).
    now rewrite <- Hrest.
Qed.

Lemma str_take_first_chars (n : nat) (s : string) :
  (n <= String.length s)%nat -> first_chars n s (str_take n s).
Proof.
  intros Hlen. split.
  - rewrite str_take_length. lia.
  - apply str_take_prefix.
Qed.

(** *** The failure log *)

Lemma log_failure_appendable (item_id title : json) (error : string) (w : world) :
  appendable (failed_log_file w) = true ->
  dumpable item_id && dumpable title = true ->
  log_failure item_id title error w =
    (Ok tt,
     {| checkpoint_file := checkpoint_file w;
        failed_log_file :=
          Content (JList (existing_entries (failed_log_file w)
                          ++ [failure_entry item_id title error]));
        history := history w ++ [FailureLogged (failure_entry item_id title error)] |}).
Proof.
  unfold log_failure, appendable, existing_entries. intros Hlog ->.
  destruct (failed_log_file w) as [| |v]; try reflexivity.
  destruct v; try discriminate; reflexivity.
Qed.

(** A [decimal.Decimal] in the identifier or the title: the log was opened
    for writing and is left unparsable, and the [TypeError] goes up. *)
Lemma log_failure_undumpable (item_id title : json) (error : string) (w : world) :
  appendable (failed_log_file w) = true ->
  dumpable item_id && dumpable title = false ->
  log_failure item_id title error w =
    (Raise (Exn "Object of type Decimal is not JSON serializable"),
     {| checkpoint_file := checkpoint_file w;
        failed_log_file := Unparsable;
        history := history w |}).
Proof.
  unfold log_failure, appendable. intros Hlog ->.
  destruct (failed_log_file w) as [| |v]; try reflexivity.
  destruct v; try discriminate; reflexivity.
Qed.

(** A log that holds JSON which is not a list: [existing.append] raises
    before the file is opened for writing. *)
Lemma log_failure_not_appendable (item_id title : json) (error : string) (w : world) :
  appendable (failed_log_file w) = false ->
  exists e, log_failure item_id title error w = (Raise e, w).
Proof.
  unfold log_failure, appendable.
  destruct (failed_log_file w) as [| |v]; try discriminate.
  destruct v; try discriminate; intros _; eexists; reflexivity.
Qed.

(** [log_failure] either appends its entry or raises, and then it has
    recorded nothing and left the checkpoint alone. *)
Lemma log_failure_cases (item_id title : json) (error : string) (w : world) :
  log_failure item_id title error w =
    (Ok tt,
     {| checkpoint_file := checkpoint_file w;
        failed_log_file :=
          Content (JList (existing_entries (failed_log_file w)
                          ++ [failure_entry item_id title error]));
        history := history w ++ [FailureLogged (failure_entry item_id title error)] |})
  \/ exists e w',
       log_failure item_id title error w = (Raise e, w')
       /\ history w' = history w
       /\ checkpoint_file w' = checkpoint_file w.
Proof.
  destruct (appendable (failed_log_file w)) eqn:Hlog.
  - destruct (dumpable item_id && dumpable title) eqn:Hdump.
    + left. now apply log_failure_appendable.
    + right. rewrite log_failure_undumpable by assumption.
      do 2 eexists. repeat split.
  - right. destruct (log_failure_not_appendable item_id title error w Hlog) as [e ->].
    exists e, w. repeat split.
Qed.

(** *** The embedding worker *)

Lemma embed_loop_step (retries k : nat) (resps : nat -> embed_response)
    (movie : record) (text : string) :
  embed_loop (S retries) k resps movie text =
    match embed_once movie (resps k) with
    | Ok vector => (Some vector, [EmbedCall text])
    | Raise e =>
        ((embed_loop retries (S k) resps movie text).1,
         EmbedCall text ::
           (if str_contains "429" (exn_msg e)
            then [Sleep (2 * (4 - Z.of_nat (S retries)))%Z] else [])
           ++ (embed_loop retries (S k) resps movie text).2)
    end.
Proof.
  cbn [embed_loop]. destruct (embed_once movie (resps k)); [reflexivity|].
  now destruct (embed_loop retries (S k) resps movie text).
Qed.

Lemma attempts_backoff (b : bool) (d : Z) (evs : list worker_event) :
  attempts ((if b then [Sleep d] else []) ++ evs) = attempts evs.
Proof. now destruct b. Qed.

Lemma delays_backoff (b : bool) (d : Z) (evs : list worker_event) :
  delays ((if b then [Sleep d] else []) ++ evs) =
    (if b then [d] else []) ++ delays evs.
Proof. now destruct b. Qed.

Lemma embed_loop_attempts (retries k : nat) (resps : nat -> embed_response)
    (movie : record) (text : string) :
  (length (attempts (embed_loop retries k resps movie text).2) <= retries)%nat.
Proof.
  revert k. induction retries as [|r IH]; intros k.
  - simpl. lia.
  - rewrite embed_loop_step.
    destruct (embed_once movie (resps k)) as [v|e]; simpl snd.
    + simpl. lia.
    + change (attempts (EmbedCall text :: ?l)) with (text :: attempts l).
      rewrite attempts_backoff. simpl length. specialize (IH (S k)). lia.
Qed.

(** The delays slept by the loop started with [retries] attempts left are
    at least [2 * (4 - retries)] and grow strictly. *)
Lemma embed_loop_delays (retries k : nat) (resps : nat -> embed_response)
    (movie : record) (text : string) :
  Forall (fun d => 2 * (4 - Z.of_nat retries) <= d)%Z
         (delays (embed_loop retries k resps movie text).2)
  /\ StronglySorted Z.lt (delays (embed_loop retries k resps movie text).2).
Proof.
  revert k. induction retries as [|r IH]; intros k.
  - simpl. split; constructor.
  - rewrite embed_loop_step.
    destruct (embed_once movie (resps k)) as [v|e]; simpl snd.
    + simpl. split; constructor.
    + change (delays (EmbedCall text :: ?l)) with (delays l).
      rewrite delays_backoff.
      destruct (IH (S k)) as [Hlow Hsorted].
      assert (Hlow' : Forall (fun d => 2 * (4 - Z.of_nat (S r)) < d)%Z
                        (delays (embed_loop r (S k) resps movie text).2)).
      { eapply Forall_impl; [exact Hlow|]. intros d Hd. simpl in Hd. lia. }
      destruct (str_contains "429" (exn_msg e)); simpl app.
      * split.
        -- constructor; [lia|]. eapply Forall_impl; [exact Hlow'|]. intros d Hd. simpl in Hd. lia.
        -- now constructor.
      * split; [|exact Hsorted].
        eapply Forall_impl; [exact Hlow'|]. intros d Hd. simpl in Hd. lia.
Qed.

Lemma strictly_increasing_non_decreasing (l : list Z) :
  StronglySorted Z.lt l -> Sorted Z.le l.
Proof.
  intros Hs. apply StronglySorted_Sorted.
  induction Hs as [|x l Hs IH Hall]; constructor; [exact IH|].
  eapply Forall_impl; [exact Hall|]. intros y Hy. simpl in Hy. lia.
Qed.


Lemma generate_embedding_unfold (movie : record) (text : string)
    (resps : nat -> embed_response) :
  generate_embedding (movie, text) resps =
    ((movie, (embed_loop 3 0 resps movie text).1),
     (embed_loop 3 0 resps movie text).2).
Proof.
  unfold generate_embedding.
  now destruct (embed_loop 3 0 resps movie text).
Qed.

Lemma generate_embedding_record (data_item : record * string)
    (resps : nat -> embed_response) :
  (generate_embedding data_item resps).1.1 = data_item.1.
Proof. destruct data_item. now rewrite generate_embedding_unfold. Qed.

Lemma embed_once_error (movie : record) (e : exn) :
  embed_once movie (EmbedError e) = Raise e.
Proof. reflexivity. Qed.

(** Three calls in a row are answered by a rate-limit error. *)
Ltac three_rate_limited_calls :=
  match goal with
  | Hlimited : forall k : nat, exists e, _ |- _ =>
      destruct (Hlimited 0%nat) as (e0 & Hr0 & He0);
      destruct (Hlimited 1%nat) as (e1 & Hr1 & He1);
      destruct (Hlimited 2%nat) as (e2 & Hr2 & He2);
      rewrite !embed_loop_step, Hr0, Hr1, Hr2, !embed_once_error;
      cbn [fst snd]; rewrite ?He0, ?He1, ?He2; reflexivity
  end.

(** C4. The embedding worker calls the service at most three times, and
    the delays it sleeps between calls never decrease (they grow strictly).
    When every call is answered by a rate-limit error, whose message
    mentions 429, the worker makes exactly three calls, sleeps 2, 4 and 6
    seconds after them, and returns the terminal failure [None] together
    with the record it was given. *)
Theorem backoff_bounded_and_monotone (data_item : record * string)
    (resps : nat -> embed_response) :
  let out := generate_embedding data_item resps in
  (length (attempts out.2) <= 3)%nat
  /\ Sorted Z.le (delays out.2)
  /\ StronglySorted Z.lt (delays out.2)
  /\ out.1.1 = data_item.1
  /\ ((forall k, exists e,
          resps k = EmbedError e /\ str_contains "429" (exn_msg e) = true) ->
      out.1.2 = None
      /\ length (attempts out.2) = 3%nat
      /\ delays out.2 = [2; 4; 6]%Z).
Proof.
  destruct data_item as [movie text]. cbv zeta.
  rewrite generate_embedding_unfold. cbn [fst snd].
  pose proof (embed_loop_attempts 3 0 resps movie text) as Hcalls.
  destruct (embed_loop_delays 3 0 resps movie text) as [_ Hsorted].
  repeat split; try assumption.
  - now apply strictly_increasing_non_decreasing.
  - three_rate_limited_calls.
  - three_rate_limited_calls.
  - three_rate_limited_calls.
Qed.

(** *** Metadata *)

Lemma slice_to_string (n : nat) (v w : json) (s : string) :
  v = JStr s -> slice_to n v = Ok w -> w = JStr (str_take n s).
Proof. intros -> Hw. now injection Hw as <-. Qed.

Lemma get_string (movie : record) (k : string) (dflt : json) (s : string) :
  movie !! k = Some (JStr s) -> get movie k dflt = JStr s.
Proof. unfold get. now intros ->. Qed.

(** The metadata, once built, holds the slices of the title, of the genre
    string and of the overview. *)
Lemma build_metadata_fields (movie md : record) :
  build_metadata movie = Ok md ->
  (forall s, movie !! "title" = Some (JStr s) ->
             md !! "title" = Some (JStr (str_take 1000 s)))
  /\ md !! "genres" =
       Some (JStr (str_take 1000 (py_str (get movie "genres" (JStr "")))))
  /\ (forall s, movie !! "overview" = Some (JStr s) ->
                md !! "overview" = Some (JStr (str_take 1000 s))).
Proof.
  unfold build_metadata, bind.
  destruct (slice_to 1000 (get movie "title" (JStr "Unknown")))
    as [title|] eqn:Htitle; [|discriminate].
  destruct (if truthy (get_none movie "release_date") then _ else _)
    as [year|]; [|discriminate].
  cbn [slice_to].
  destruct (slice_to 1000 (get movie "overview" (JStr "")))
    as [overview|] eqn:Hoverview; [|discriminate].
  destruct (py_float (get movie "vote_average" (JInt 0))) as [vote|]; [|discriminate].
  destruct (py_float (get movie "popularity" (JInt 0))) as [pop|]; [|discriminate].
  intros Hmd. injection Hmd as <-.
  split; [|split].
  - intros s Hs.
    rewrite (slice_to_string _ _ _ _ (get_string _ _ _ _ Hs) Htitle).
    reflexivity.
  - reflexivity.
  - intros s Hs.
    rewrite (slice_to_string _ _ _ _ (get_string _ _ _ _ Hs) Hoverview).
    reflexivity.
Qed.

Lemma embed_once_ok (movie : record) (resp : embed_response) (vector : record) :
  embed_once movie resp = Ok vector ->
  exists md,
    build_metadata movie = Ok md
    /\ vector !! "id" = Some (JStr (py_str (get_none movie "id")))
    /\ vector !! "metadata" = Some (JObj md).
Proof.
  unfold embed_once, bind.
  destruct resp as [values|e]; [|discriminate].
  destruct (build_metadata movie) as [md|]; [|discriminate].
  intros Hv. injection Hv as <-. exists md. repeat split; reflexivity.
Qed.

Lemma embed_loop_some (retries k : nat) (resps : nat -> embed_response)
    (movie : record) (text : string) (vector : record) :
  (embed_loop retries k resps movie text).1 = Some vector ->
  exists j, embed_once movie (resps j) = Ok vector.
Proof.
  revert k. induction retries as [|r IH]; intros k; [discriminate|].
  cbn [embed_loop].
  destruct (embed_once movie (resps k)) as [v|e] eqn:Honce.
  - intros Hv. injection Hv as <-. now exists k.
  - destruct (embed_loop r (S k) resps movie text) as [res evs] eqn:Hloop.
    intros Hv. apply (IH (S k)). now rewrite Hloop.
Qed.

(** *** One batch *)

Lemma log_entries_cons (entry : json) (entries : list json) (w : world) :
  log_entries entries
    {| checkpoint_file := checkpoint_file w;
       failed_log_file :=
         Content (JList (existing_entries (failed_log_file w) ++ [entry]));
       history := history w ++ [FailureLogged entry] |}
  = log_entries (entry :: entries) w.
Proof.
  destruct entries as [|e es]; [reflexivity|].
  unfold log_entries, log_file_after.
  cbn [checkpoint_file failed_log_file history existing_entries].
  now rewrite <- !app_assoc.
Qed.

(** The loop over the results either goes through, or is cut short by the
    first failure entry that cannot be written: the log holds JSON that is
    not a list, or the record's identifier or title is a
    [decimal.Decimal]. *)
Lemma collect_cases (results : list (record * option record))
    (vectors : list record) (failed : Z) (w : world) :
  collect results vectors failed w =
    (Ok (vectors ++ vectors_of results,
         (failed + Z.of_nat (length (failures_of results)))%Z),
     log_entries (failures_of results) w)
  \/ (exists e, (collect results vectors failed w).1 = Raise e)
     /\ failures_of results <> []
     /\ (appendable (failed_log_file w) = false
         \/ Exists (fun r => r.2 = None /\ loggable r.1 = false) results).
Proof.
  revert vectors failed w.
  induction results as [|[movie [vector|]] results IH]; intros vectors failed w.
  - left. cbn. now rewrite app_nil_r, Z.add_0_r.
  - cbn [collect].
    destruct (IH (vectors ++ [vector]) failed w) as [Hok|(He & Hfail & Hcause)].
    + left. rewrite Hok. cbn. now rewrite <- app_assoc.
    + right. split; [exact He|]. split; [exact Hfail|].
      destruct Hcause as [Hlog|Hbad]; [now left|right; now apply Exists_cons_tl].
  - cbn [collect].
    change (failures_of ((movie, None) :: results))
      with (failure_of movie :: failures_of results).
    change (vectors_of ((movie, None) :: results)) with (vectors_of results).
    destruct (appendable (failed_log_file w)) eqn:Hlog.
    + destruct (loggable movie) eqn:Hdump.
      * rewrite log_failure_appendable by assumption.
        match goal with |- context [collect results vectors ?f ?w1] =>
          destruct (IH vectors f w1) as [Hok|(He & Hfail & Hcause)] end.
        -- left. rewrite Hok, log_entries_cons.
           cbn [length]. do 3 f_equal. lia.
        -- right. split; [exact He|]. split; [discriminate|].
           destruct Hcause as [Hno|Hbad]; [discriminate Hno|].
           right. now apply Exists_cons_tl.
      * rewrite log_failure_undumpable by assumption.
        right. split; [now eexists|]. split; [discriminate|].
        right. apply Exists_cons_hd. now split.
    + destruct (log_failure_not_appendable (get_none movie "id") (get_none movie "title")
                  "Embedding generation failed after retries" w Hlog) as [e ->].
      right. split; [now exists e|]. split; [discriminate|]. now left.
Qed.

(** Whatever the failure log holds, the loop over the results touches
    nothing but that log. *)
Lemma collect_events (results : list (record * option record))
    (vectors : list record) (failed : Z) (w : world) :
  exists entries,
    history (collect results vectors failed w).2 =
      history w ++ (FailureLogged <$> entries)
    /\ checkpoint_file (collect results vectors failed w).2 = checkpoint_file w.
Proof.
  revert vectors failed w.
  induction results as [|[movie [vector|]] results IH]; intros vectors failed w.
  - exists []. cbn. now rewrite app_nil_r.
  - cbn [collect]. apply IH.
  - cbn [collect].
    destruct (log_failure_cases (get_none movie "id") (get_none movie "title")
                "Embedding generation failed after retries" w)
      as [-> | (e & w' & -> & Hh & Hc)].
    + match goal with |- context [collect results vectors ?f ?w1] =>
        destruct (IH vectors f w1) as (entries & Hh & Hc) end.
      eexists (_ :: entries). rewrite Hh, Hc. cbn. now rewrite <- app_assoc.
    + exists []. cbn [fst snd fmap list_fmap]. now rewrite app_nil_r.
Qed.

Lemma commit_history (batch_items vectors : list record) (env : batch_env) (w : world) :
  history (commit batch_items vectors env w) =
    history w ++ commit_events batch_items vectors env.
Proof.
  unfold commit, commit_events.
  destruct vectors; [now rewrite app_nil_r|].
  destruct (upsert_response env); [reflexivity|].
  destruct (last batch_items); [|reflexivity].
  cbn. now rewrite <- app_assoc.
Qed.

Lemma commit_failed_log (batch_items vectors : list record) (env : batch_env) (w : world) :
  failed_log_file (commit batch_items vectors env w) = failed_log_file w.
Proof.
  unfold commit.
  destruct vectors; [reflexivity|].
  destruct (upsert_response env); [reflexivity|].
  now destruct (last batch_items).
Qed.

Lemma prepare_keeps (movie : record) (k : string) :
  k <> "genres" -> get_none (prepare movie).1 k = get_none movie k.
Proof.
  intros Hk. unfold prepare, get_none, get. cbn [fst].
  now rewrite lookup_insert_ne.
Qed.

Lemma commit_events_prepared (batch_items vectors : list record) (env : batch_env) :
  commit_events (fst <$> (prepare <$> batch_items)) vectors env =
    commit_events batch_items vectors env.
Proof.
  unfold commit_events.
  destruct vectors; [reflexivity|].
  destruct (upsert_response env); [reflexivity|].
  rewrite <- list_fmap_compose, fmap_last.
  destruct (last batch_items) as [movie|]; [|reflexivity].
  cbn [fmap option_fmap option_map compose]. now rewrite prepare_keeps.
Qed.

(** Cut short or not, a call of [process_batch] records itself first and
    starts no other batch. *)
Lemma process_batch_events (batch_items : list record) (env : batch_env) (w : world) :
  exists evs,
    history (process_batch batch_items env w).2 =
      history w ++ ProcessBatch batch_items :: evs
    /\ flushed evs = [].
Proof.
  unfold process_batch.
  match goal with |- context [collect ?rs ?vs ?f ?w0] =>
    destruct (collect_events rs vs f w0) as (entries & Hh & _);
    destruct (collect rs vs f w0) as [[[vectors failed]|e] w'] end;
  cbn [fst snd history] in *.
  - rewrite commit_history, Hh.
    exists ((FailureLogged <$> entries) ++
            commit_events (fst <$> (prepare <$> batch_items)) vectors env).
    split; [now rewrite <- !app_assoc|].
    unfold flushed. rewrite omap_app.
    assert (Hnone : forall es, omap (fun ev => match ev with ProcessBatch b => Some b | _ => None end)
                      (FailureLogged <$> es) = []).
    { induction es; [reflexivity|assumption]. }
    rewrite Hnone. unfold commit_events.
    destruct vectors; [reflexivity|].
    destruct (upsert_response env); [reflexivity|].
    now destruct (last _).
  - rewrite Hh. exists (FailureLogged <$> entries).
    split; [now rewrite <- !app_assoc|].
    clear. induction entries; [reflexivity|assumption].
Qed.

(** *** The driver loop *)

Lemma stream_loop_batches (last_id : json) (movies : list record)
    (envs : nat -> batch_env) (n : nat) (st : run_state) (w : world) :
  let recs := if skip_mode st
              then after_checkpoint (py_str last_id) movies
              else movies in
  outcome_of (stream_loop last_id movies envs n st w) =
    with_buffer (fill BATCH_SIZE (current_batch st) recs).2
      (run_batches (fill BATCH_SIZE (current_batch st) recs).1 envs n
         (processed_count st, failed_count st) w).
Proof.
  revert n st w. induction movies as [|movie movies IH]; intros n st w.
  - cbn. now destruct (skip_mode st).
  - cbn [stream_loop]. destruct (skip_mode st) eqn:Hskip.
    + cbn [after_checkpoint].
      destruct (String.eqb (py_str (get_none movie "id")) (py_str last_id)).
      * rewrite IH. reflexivity.
      * rewrite IH, Hskip. reflexivity.
    + cbv zeta. cbn [fill].
      destruct (BATCH_SIZE <=? length (current_batch st ++ [movie]))%nat.
      * cbn [fst snd run_batches].
        destruct (process_batch (current_batch st ++ [movie]) (envs n) w)
          as [[[success failed]|e] w'].
        -- rewrite IH. reflexivity.
        -- reflexivity.
      * rewrite IH. reflexivity.
Qed.

Lemma run_batches_app (bs1 bs2 : list (list record)) (envs : nat -> batch_env)
    (n : nat) (totals : Z * Z) (w : world) :
  run_batches (bs1 ++ bs2) envs n totals w =
    match run_batches bs1 envs n totals w with
    | (Ok totals', n', w') => run_batches bs2 envs n' totals' w'
    | (Raise e, n', w') => (Raise e, n', w')
    end.
Proof.
  revert n totals w. induction bs1 as [|b bs1 IH]; intros n totals w.
  - reflexivity.
  - cbn [app run_batches].
    destruct (process_batch b (envs n) w) as [[[success failed]|e] w'].
    + apply IH.
    + reflexivity.
Qed.

(** A run is [process_batch] over the batches of the records the skip
    logic lets through. *)
Lemma run_as_batches (movies : list record) (envs : nat -> batch_env) (w : world) :
  run movies envs w =
    let out := run_batches
                 (batches_of (reached (load_checkpoint (checkpoint_file w)) movies))
                 envs 0 (0%Z, 0%Z) w in
    (out.1.1, out.2).
Proof.
  unfold run, batches_of, reached.
  set (last_id := load_checkpoint (checkpoint_file w)).
  match goal with |- context [stream_loop last_id movies envs 0 ?st0 w] =>
    pose proof (stream_loop_batches last_id movies envs 0 st0 w) as Hloop;
    destruct (stream_loop last_id movies envs 0 st0 w) as [[[st|e] n] w'] end;
  cbn [skip_mode current_batch processed_count failed_count] in Hloop;
  cbv zeta in Hloop; rewrite run_batches_app;
  set (recs := if truthy last_id then after_checkpoint (py_str last_id) movies else movies) in *;
  destruct (run_batches (fill BATCH_SIZE [] recs).1 envs 0 (0%Z, 0%Z) w)
    as [[[[p f]|e'] n'] w'']; unfold outcome_of, with_buffer in Hloop;
  cbn [fst snd] in Hloop; try discriminate.
  - injection Hloop as Hb Hp Hf Hn Hw. subst n' w''. 
    rewrite <- Hb, <- Hp, <- Hf.
    destruct (current_batch st) as [|m rest]; [reflexivity|].
    cbn [run_batches].
    destruct (process_batch (m :: rest) (envs n) w') as [[[success failed]|e2] w2];
      reflexivity.
  - injection Hloop as He Hn Hw. now subst.
Qed.

(** *** Reading the events of a batch *)

Lemma events_since_app (w w' : world) (evs : list event) :
  history w' = history w ++ evs -> events_since w w' = evs.
Proof. unfold events_since. intros ->. apply drop_app_length. Qed.

Lemma flushed_app (l1 l2 : list event) : flushed (l1 ++ l2) = flushed l1 ++ flushed l2.
Proof. apply omap_app. Qed.

Lemma submitted_app (l1 l2 : list event) :
  submitted (l1 ++ l2) = submitted l1 ++ submitted l2.
Proof. apply omap_app. Qed.

Lemma committed_app (l1 l2 : list event) :
  committed (l1 ++ l2) = committed l1 ++ committed l2.
Proof. apply omap_app. Qed.

Lemma logged_app (l1 l2 : list event) : logged (l1 ++ l2) = logged l1 ++ logged l2.
Proof. apply omap_app. Qed.

Lemma saved_app (l1 l2 : list event) : saved (l1 ++ l2) = saved l1 ++ saved l2.
Proof. apply omap_app. Qed.

Lemma flushed_failures (entries : list json) : flushed (FailureLogged <$> entries) = [].
Proof. induction entries; [reflexivity|assumption]. Qed.

Lemma submitted_failures (entries : list json) : submitted (FailureLogged <$> entries) = [].
Proof. induction entries; [reflexivity|assumption]. Qed.

Lemma committed_failures (entries : list json) : committed (FailureLogged <$> entries) = [].
Proof. induction entries; [reflexivity|assumption]. Qed.

Lemma saved_failures (entries : list json) : saved (FailureLogged <$> entries) = [].
Proof. induction entries; [reflexivity|assumption]. Qed.

Lemma logged_failures (entries : list json) : logged (FailureLogged <$> entries) = entries.
Proof. induction entries; [reflexivity|]. cbn. now f_equal. Qed.

Lemma batch_events_parts (batch_items : list record) (env : batch_env) :
  batch_events batch_items env =
    [ProcessBatch batch_items]
    ++ (FailureLogged <$> failures_of (worker_results (prepare <$> batch_items) env))
    ++ commit_events batch_items
         (vectors_of (worker_results (prepare <$> batch_items) env)) env.
Proof. reflexivity. Qed.

(** The events of lines 180-190 hold no call of [process_batch] and no
    failure entry. *)
Lemma commit_events_quiet (batch_items vectors : list record) (env : batch_env) :
  flushed (commit_events batch_items vectors env) = []
  /\ logged (commit_events batch_items vectors env) = [].
Proof.
  unfold commit_events.
  destruct vectors; [now split|].
  destruct (upsert_response env); [now split|].
  now destruct (last batch_items).
Qed.

Lemma flushed_batch_events (batch_items : list record) (env : batch_env) :
  flushed (batch_events batch_items env) = [batch_items].
Proof.
  rewrite batch_events_parts, !flushed_app, flushed_failures.
  now rewrite (proj1 (commit_events_quiet _ _ _)).
Qed.

Lemma logged_batch_events (batch_items : list record) (env : batch_env) :
  logged (batch_events batch_items env) =
    failures_of (worker_results (prepare <$> batch_items) env).
Proof.
  rewrite batch_events_parts, !logged_app, logged_failures.
  rewrite (proj2 (commit_events_quiet _ _ _)). cbn. apply app_nil_r.
Qed.

Lemma submitted_commit_events (batch_items vectors : list record) (env : batch_env) :
  concat (submitted (commit_events batch_items vectors env)) = vectors.
Proof.
  unfold commit_events.
  destruct vectors as [|v vs]; [reflexivity|].
  destruct (upsert_response env); cbn.
  - now rewrite app_nil_r.
  - destruct (last batch_items); cbn; now rewrite app_nil_r.
Qed.

Lemma submitted_batch_events (batch_items : list record) (env : batch_env) :
  concat (submitted (batch_events batch_items env)) =
    vectors_of (worker_results (prepare <$> batch_items) env).
Proof.
  rewrite batch_events_parts, !submitted_app, submitted_failures.
  cbn. apply submitted_commit_events.
Qed.

Lemma committed_commit_events (batch_items vectors : list record) (env : batch_env) :
  committed (commit_events batch_items vectors env) =
    match upsert_response env with
    | None => submitted (commit_events batch_items vectors env)
    | Some _ => []
    end.
Proof.
  unfold commit_events.
  destruct vectors as [|v vs]; [now destruct (upsert_response env)|].
  destruct (upsert_response env); [reflexivity|].
  now destruct (last batch_items).
Qed.

Lemma committed_batch_events (batch_items : list record) (env : batch_env) :
  committed (batch_events batch_items env) =
    match upsert_response env with
    | None => submitted (batch_events batch_items env)
    | Some _ => []
    end.
Proof.
  rewrite batch_events_parts, !committed_app, !submitted_app.
  rewrite committed_failures, submitted_failures, committed_commit_events.
  now destruct (upsert_response env).
Qed.

Lemma saved_batch_events (batch_items : list record) (env : batch_env) :
  saved (batch_events batch_items env) =
    saved (commit_events batch_items
             (vectors_of (worker_results (prepare <$> batch_items) env)) env).
Proof.
  rewrite batch_events_parts, !saved_app, saved_failures. reflexivity.
Qed.

(** *** One batch, whatever the failure log holds *)

Lemma collect_not_appendable (results : list (record * option record))
    (vectors : list record) (failed : Z) (w : world) :
  appendable (failed_log_file w) = false ->
  (collect results vectors failed w).2 = w
  /\ (((collect results vectors failed w).1 = Ok (vectors ++ vectors_of results, failed)
       /\ failures_of results = [])
      \/ exists e, (collect results vectors failed w).1 = Raise e).
Proof.
  intros Hlog. revert vectors failed.
  induction results as [|[movie [vector|]] results IH]; intros vectors failed.
  - cbn. rewrite app_nil_r. split; [reflexivity|]. now left.
  - cbn [collect]. destruct (IH (vectors ++ [vector]) failed) as [Hw Hcases].
    split; [exact Hw|]. destruct Hcases as [[Hok Hnone]|Hraise]; [left|now right].
    rewrite Hok. cbn. now rewrite <- app_assoc.
  - cbn [collect].
    destruct (log_failure_not_appendable (get_none movie "id") (get_none movie "title")
                "Embedding generation failed after retries" w Hlog) as [e ->].
    split; [reflexivity|]. right. now exists e.
Qed.

Lemma log_entries_fields (entries : list json) (w : world) :
  checkpoint_file (log_entries entries w) = checkpoint_file w
  /\ failed_log_file (log_entries entries w) = log_file_after entries (failed_log_file w)
  /\ history (log_entries entries w) = history w ++ (FailureLogged <$> entries).
Proof.
  destruct entries; cbn; [|now repeat split].
  now rewrite app_nil_r.
Qed.

Lemma commit_checkpoint (batch_items vectors : list record) (env : batch_env) (w : world) :
  checkpoint_file (commit batch_items vectors env w) =
    checkpoint_after (saved (commit_events batch_items vectors env)) (clock env)
      (checkpoint_file w).
Proof.
  unfold commit, commit_events.
  destruct vectors; [reflexivity|].
  destruct (upsert_response env); [reflexivity|].
  now destruct (last batch_items).
Qed.

Lemma loggable_prepared (movie : record) :
  loggable (prepare movie).1 = loggable movie.
Proof. unfold loggable. now rewrite !prepare_keeps by discriminate. Qed.

(** The results carry the prepared records of the batch. *)
Lemma worker_results_records (batch_items : list record) (env : batch_env)
    (r : record * option record) :
  r ∈ worker_results (prepare <$> batch_items) env ->
  exists movie, movie ∈ batch_items /\ r.1 = (prepare movie).1.
Proof.
  intros Hr. apply list_elem_of_lookup in Hr as [i Hi].
  unfold worker_results in Hi. rewrite list_lookup_imap, list_lookup_fmap in Hi.
  destruct (batch_items !! i) as [movie|] eqn:Hmovie; [|discriminate].
  cbn [fmap option_fmap option_map] in Hi.
  assert (Hres : r = (generate_embedding (prepare movie) (embed_responses env i)).1)
    by congruence.
  exists movie. split.
  - apply list_elem_of_lookup. now exists i.
  - subst r. apply generate_embedding_record.
Qed.

(** What a call of [process_batch] leaves when the loop over the results
    went through. *)
Lemma process_batch_goes_through (batch_items : list record) (env : batch_env)
    (w : world) :
  let results := worker_results (prepare <$> batch_items) env in
  let w0 := {| checkpoint_file := checkpoint_file w;
               failed_log_file := failed_log_file w;
               history := history w ++ [ProcessBatch batch_items] |} in
  let w1 := commit (fst <$> (prepare <$> batch_items)) (vectors_of results) env
              (log_entries (failures_of results) w0) in
  history w1 = history w ++ batch_events batch_items env
  /\ failed_log_file w1 = log_file_after (failures_of results) (failed_log_file w)
  /\ checkpoint_file w1 =
       checkpoint_after (saved (batch_events batch_items env)) (clock env)
         (checkpoint_file w).
Proof.
  intros results w0 w1. subst w1.
  destruct (log_entries_fields (failures_of results) w0) as (Hc & Hf & Hh).
  rewrite commit_history, commit_failed_log, commit_checkpoint.
  rewrite commit_events_prepared, Hh, Hf, Hc, saved_batch_events.
  repeat split. rewrite batch_events_parts. cbn [history w0].
  now rewrite <- !app_assoc.
Qed.

(** A call of [process_batch] either goes through, with the events of
    [batch_events], or is cut short by the first failure entry that cannot
    be written; it has then recorded itself and the entries written before,
    handed nothing to the index and left the checkpoint as it was. *)
Lemma process_batch_cases (batch_items : list record) (env : batch_env) (w : world) :
  let results := worker_results (prepare <$> batch_items) env in
  let out := process_batch batch_items env w in
  (out.1 = Ok (Z.of_nat (length (vectors_of results)),
               Z.of_nat (length (failures_of results)))
   /\ history out.2 = history w ++ batch_events batch_items env
   /\ failed_log_file out.2 = log_file_after (failures_of results) (failed_log_file w)
   /\ checkpoint_file out.2 =
        checkpoint_after (saved (batch_events batch_items env)) (clock env)
          (checkpoint_file w))
  \/ (exists e entries,
        out.1 = Raise e
        /\ history out.2 =
             history w ++ ProcessBatch batch_items :: (FailureLogged <$> entries)
        /\ checkpoint_file out.2 = checkpoint_file w)
     /\ failures_of results <> []
     /\ (appendable (failed_log_file w) = false
         \/ Exists (fun m => loggable m = false) batch_items).
Proof.
  intros results out. subst out. unfold process_batch. fold results.
  set (w0 := {| checkpoint_file := checkpoint_file w;
                failed_log_file := failed_log_file w;
                history := history w ++ [ProcessBatch batch_items] |}).
  destruct (collect_cases results [] 0%Z w0) as [Hok|([e He] & Hfail & Hcause)].
  - left. rewrite Hok. cbn [fst snd]. split; [reflexivity|].
    apply process_batch_goes_through.
  - right. destruct (collect_events results [] 0%Z w0) as (entries & Hh & Hc).
    destruct (collect results [] 0%Z w0) as [[[vectors failed]|e'] w'];
      cbn [fst snd] in *; [discriminate He|].
    split; [|split; [exact Hfail|]].
    + exists e', entries. split; [reflexivity|]. split; [|exact Hc].
      rewrite Hh. cbn [history w0]. now rewrite <- app_assoc.
    + destruct Hcause as [Hlog|Hbad]; [now left|right].
      apply Exists_exists in Hbad as (r & Hr & _ & Hdump).
      destruct (worker_results_records batch_items env r Hr) as (movie & Hin & Hrec).
      apply Exists_exists. exists movie. split; [exact Hin|].
      now rewrite Hrec, loggable_prepared in Hdump.
Qed.

(** A call goes through when no embedding failed, and when the failure log
    can be appended to and the failure entries of the batch can be
    written. *)
Lemma process_batch_completes (batch_items : list record) (env : batch_env)
    (w : world) :
  let results := worker_results (prepare <$> batch_items) env in
  let out := process_batch batch_items env w in
  failures_of results = []
  \/ (appendable (failed_log_file w) = true
      /\ Forall (fun m => loggable m = true) batch_items) ->
  out.1 = Ok (Z.of_nat (length (vectors_of results)),
              Z.of_nat (length (failures_of results)))
  /\ history out.2 = history w ++ batch_events batch_items env
  /\ failed_log_file out.2 = log_file_after (failures_of results) (failed_log_file w)
  /\ checkpoint_file out.2 =
       checkpoint_after (saved (batch_events batch_items env)) (clock env)
         (checkpoint_file w).
Proof.
  intros results out Hwhy.
  destruct (process_batch_cases batch_items env w) as [Hok|(_ & Hfail & Hcause)];
    [exact Hok|exfalso].
  destruct Hwhy as [Hnil|[Hlog Hdump]]; [contradiction|].
  destruct Hcause as [Hno|Hbad]; [congruence|].
  apply Exists_exists in Hbad as (m & Hm & Hbad).
  rewrite Forall_forall in Hdump. specialize (Hdump m Hm). cbn beta in Hdump.
  congruence.
Qed.

Lemma process_batch_appendable (batch_items : list record) (env : batch_env) (w : world) :
  let results := worker_results (prepare <$> batch_items) env in
  let out := process_batch batch_items env w in
  appendable (failed_log_file w) = true ->
  Forall (fun m => loggable m = true) batch_items ->
  out.1 = Ok (Z.of_nat (length (vectors_of results)),
              Z.of_nat (length (failures_of results)))
  /\ history out.2 = history w ++ batch_events batch_items env
  /\ failed_log_file out.2 = log_file_after (failures_of results) (failed_log_file w)
  /\ checkpoint_file out.2 =
       checkpoint_after (saved (batch_events batch_items env)) (clock env)
         (checkpoint_file w).
Proof.
  intros results out Hlog Hdump.
  apply process_batch_completes. right. now split.
Qed.

(** A call that returns went through. *)
Lemma process_batch_returns (batch_items : list record) (env : batch_env)
    (w : world) (counts : Z * Z) :
  let results := worker_results (prepare <$> batch_items) env in
  let out := process_batch batch_items env w in
  out.1 = Ok counts ->
  counts = (Z.of_nat (length (vectors_of results)),
            Z.of_nat (length (failures_of results)))
  /\ history out.2 = history w ++ batch_events batch_items env
  /\ failed_log_file out.2 = log_file_after (failures_of results) (failed_log_file w)
  /\ checkpoint_file out.2 =
       checkpoint_after (saved (batch_events batch_items env)) (clock env)
         (checkpoint_file w).
Proof.
  cbv zeta. intros Hok.
  destruct (process_batch_cases batch_items env w)
    as [(Hres & Hrest)|((e & entries & He & _) & _)].
  - split; [|exact Hrest]. rewrite Hres in Hok. now injection Hok as <-.
  - rewrite He in Hok. discriminate Hok.
Qed.

(** The events of a call that was cut short. *)
Lemma cut_short_events (batch_items : list record) (entries : list json) :
  flushed (ProcessBatch batch_items :: (FailureLogged <$> entries)) = [batch_items]
  /\ submitted (ProcessBatch batch_items :: (FailureLogged <$> entries)) = []
  /\ committed (ProcessBatch batch_items :: (FailureLogged <$> entries)) = []
  /\ saved (ProcessBatch batch_items :: (FailureLogged <$> entries)) = []
  /\ logged (ProcessBatch batch_items :: (FailureLogged <$> entries)) = entries.
Proof.
  change (ProcessBatch batch_items :: (FailureLogged <$> entries))
    with ([ProcessBatch batch_items] ++ (FailureLogged <$> entries)).
  rewrite flushed_app, submitted_app, committed_app, saved_app, logged_app.
  rewrite flushed_failures, submitted_failures, committed_failures,
    saved_failures, logged_failures.
  now repeat split.
Qed.

(** Cut short or not, the checkpoint file after a call is the one its
    saves leave. *)
Lemma process_batch_checkpoint (batch_items : list record) (env : batch_env)
    (w : world) :
  let out := process_batch batch_items env w in
  checkpoint_file out.2 =
    checkpoint_after (saved (events_since w out.2)) (clock env) (checkpoint_file w).
Proof.
  cbv zeta.
  destruct (process_batch_cases batch_items env w)
    as [(_ & Hh & _ & Hc)|((e & entries & _ & Hh & Hc) & _)];
    rewrite (events_since_app _ _ _ Hh), Hc; [reflexivity|].
  now rewrite (proj1 (proj2 (proj2 (proj2 (cut_short_events batch_items entries))))).
Qed.

Lemma log_file_after_appendable (entries : list json) (f : file) :
  appendable f = true -> appendable (log_file_after entries f) = true.
Proof. now destruct entries. Qed.

Lemma log_file_after_app (entries1 entries2 : list json) (f : file) :
  log_file_after entries2 (log_file_after entries1 f) =
    log_file_after (entries1 ++ entries2) f.
Proof.
  destruct entries1 as [|e1 es1]; [reflexivity|].
  destruct entries2 as [|e2 es2]; [now rewrite app_nil_r|].
  cbn. now rewrite <- app_assoc.
Qed.

(** *** Batches in a row *)

Lemma log_file_after_not_appendable (entries : list json) (f : file) :
  appendable (log_file_after entries f) = false -> appendable f = false.
Proof. now destruct entries. Qed.

(** [process_batch] over a list of batches either goes through all of
    them, or is cut short in one of them by a failure entry that cannot be
    written; the batches before it went through. *)
Lemma run_batches_cases (batches : list (list record)) (envs : nat -> batch_env)
    (n : nat) (totals : Z * Z) (w : world) :
  let out := run_batches batches envs n totals w in
  let evs := run_events batches envs n in
  (out.1.1 = Ok ((totals.1 + Z.of_nat (length (concat (submitted evs))))%Z,
                 (totals.2 + Z.of_nat (length (logged evs)))%Z)
   /\ history out.2 = history w ++ evs
   /\ failed_log_file out.2 = log_file_after (logged evs) (failed_log_file w))
  \/ (exists done batch later e entries,
        batches = done ++ batch :: later
        /\ out.1.1 = Raise e
        /\ history out.2 =
             history w ++ run_events done envs n
               ++ ProcessBatch batch :: (FailureLogged <$> entries))
     /\ logged evs <> []
     /\ (appendable (failed_log_file w) = false
         \/ Exists (fun m => loggable m = false) (concat batches)).
Proof.
  cbv zeta. revert n totals w.
  induction batches as [|batch batches IH]; intros n totals w.
  - left. cbn. rewrite !Z.add_0_r, app_nil_r. now destruct totals.
  - cbn [run_batches run_events concat].
    destruct (process_batch_cases batch (envs n) w)
      as [(Hres & Hh & Hf & _)|((e & entries & He & Hh & _) & Hfail & Hcause)];
      destruct (process_batch batch (envs n) w) as [res w'];
      cbn [fst snd] in *; subst res.
    + destruct (IH (S n) ((totals.1 + Z.of_nat (length (vectors_of
                   (worker_results (prepare <$> batch) (envs n)))))%Z,
                          (totals.2 + Z.of_nat (length (failures_of
                   (worker_results (prepare <$> batch) (envs n)))))%Z) w')
        as [(Hres' & Hh' & Hf')
           |((done & b & later & e & entries & Hsplit & He & Hh') & Hfail' & Hcause')].
      * left. rewrite Hres', Hh', Hf', Hh, Hf. cbn [fst snd].
        rewrite submitted_app, logged_app, concat_app, !length_app.
        rewrite submitted_batch_events, logged_batch_events, log_file_after_app.
        rewrite <- app_assoc. repeat split. do 2 f_equal; lia.
      * right. split; [|split].
        -- exists (batch :: done), b, later, e, entries.
           split; [now rewrite Hsplit|]. split; [exact He|].
           rewrite Hh', Hh. cbn [run_events]. now rewrite <- !app_assoc.
        -- rewrite logged_app. intros Hnil.
           apply app_eq_nil in Hnil as [_ Hnil]. contradiction.
        -- destruct Hcause' as [Hno|Hbad].
           ++ left. rewrite Hf in Hno.
              now apply log_file_after_not_appendable in Hno.
           ++ right. apply Exists_app. now right.
    + right. split; [|split].
      * exists [], batch, batches, e, entries. now repeat split.
      * rewrite logged_app, logged_batch_events. intros Hnil.
        apply app_eq_nil in Hnil as [Hnil _]. contradiction.
      * destruct Hcause as [Hno|Hbad]; [now left|].
        right. apply Exists_app. now left.
Qed.

(** The batches all go through when no embedding fails, and when the
    failure log can be appended to and every failure entry can be
    written. *)
Lemma run_batches_completes (batches : list (list record)) (envs : nat -> batch_env)
    (n : nat) (totals : Z * Z) (w : world) :
  let out := run_batches batches envs n totals w in
  let evs := run_events batches envs n in
  logged evs = []
  \/ (appendable (failed_log_file w) = true
      /\ Forall (fun m => loggable m = true) (concat batches)) ->
  out.1.1 = Ok ((totals.1 + Z.of_nat (length (concat (submitted evs))))%Z,
                (totals.2 + Z.of_nat (length (logged evs)))%Z)
  /\ history out.2 = history w ++ evs
  /\ failed_log_file out.2 = log_file_after (logged evs) (failed_log_file w).
Proof.
  cbv zeta. intros Hwhy.
  destruct (run_batches_cases batches envs n totals w) as [Hok|(_ & Hfail & Hcause)];
    [exact Hok|exfalso].
  destruct Hwhy as [Hnil|[Hlog Hdump]]; [contradiction|].
  destruct Hcause as [Hno|Hbad]; [congruence|].
  apply Exists_exists in Hbad as (m & Hm & Hbad).
  rewrite Forall_forall in Hdump. specialize (Hdump m Hm). cbn beta in Hdump.
  congruence.
Qed.

(** Cut short or not, the batches started are the first ones of the list,
    and all of them when nothing was raised. *)
Lemma run_batches_flushed (batches : list (list record)) (envs : nat -> batch_env)
    (n : nat) (totals : Z * Z) (w : world) :
  let out := run_batches batches envs n totals w in
  exists evs,
    history out.2 = history w ++ evs
    /\ flushed evs `prefix_of` batches
    /\ (forall t, out.1.1 = Ok t -> flushed evs = batches).
Proof.
  cbv zeta. revert n totals w.
  induction batches as [|batch batches IH]; intros n totals w.
  - exists []. cbn. rewrite app_nil_r. now repeat split.
  - cbn [run_batches].
    destruct (process_batch_events batch (envs n) w) as (evs1 & Hh1 & Hq1).
    destruct (process_batch batch (envs n) w) as [[[success failed]|e] w'];
      cbn [fst snd] in Hh1.
    + destruct (IH (S n) ((totals.1 + success)%Z, (totals.2 + failed)%Z) w')
        as (evs2 & Hh2 & Hpre & Hall).
      exists ((ProcessBatch batch :: evs1) ++ evs2).
      rewrite Hh2, Hh1, <- app_assoc. split; [reflexivity|].
      rewrite flushed_app.
      change (flushed (ProcessBatch batch :: evs1)) with (batch :: flushed evs1).
      rewrite Hq1. cbn [app]. split.
      * now apply prefix_cons.
      * intros t Ht. f_equal. now apply (Hall t).
    + exists (ProcessBatch batch :: evs1). cbn [fst snd].
      split; [exact Hh1|].
      change (flushed (ProcessBatch batch :: evs1)) with (batch :: flushed evs1).
      rewrite Hq1. split; [|discriminate].
      apply prefix_cons, prefix_nil.
Qed.

Lemma BATCH_SIZE_positive : (0 < BATCH_SIZE)%nat.
Proof. unfold BATCH_SIZE. lia. Qed.

(** The loop flushes full batches only and keeps less than a batch. *)
Lemma fill_spec (size : nat) (buffer movies : list record) :
  (0 < size)%nat -> (length buffer < size)%nat ->
  concat (fill size buffer movies).1 ++ (fill size buffer movies).2 = buffer ++ movies
  /\ Forall (fun b => length b = size) (fill size buffer movies).1
  /\ (length (fill size buffer movies).2 < size)%nat.
Proof.
  intros Hsize. revert buffer.
  induction movies as [|movie movies IH]; intros buffer Hbuf.
  - cbn. rewrite app_nil_r. now repeat split.
  - cbn [fill].
    destruct (Nat.leb_spec size (length (buffer ++ [movie]))) as [Hfull|Hroom].
    + rewrite length_app in Hfull. cbn [length] in Hfull.
      destruct (IH [] Hsize) as (Hcat & Hall & Hrest).
      cbn [fst snd concat]. rewrite <- !app_assoc, Hcat. cbn [app].
      repeat split; [|exact Hrest].
      constructor; [|exact Hall]. rewrite length_app. cbn [length]. lia.
    + destruct (IH (buffer ++ [movie]) Hroom) as (Hcat & Hall & Hrest).
      rewrite Hcat, <- app_assoc. now repeat split.
Qed.

(** The batches of a run partition the records in order; all are full
    except possibly the last one, and none is empty. *)
Lemma batches_of_spec (movies : list record) :
  concat (batches_of movies) = movies
  /\ (forall i b, batches_of movies !! i = Some b ->
                  (S i < length (batches_of movies))%nat -> length b = BATCH_SIZE)
  /\ Forall (fun b => 1 <= length b <= BATCH_SIZE)%nat (batches_of movies).
Proof.
  unfold batches_of.
  destruct (fill_spec BATCH_SIZE [] movies BATCH_SIZE_positive BATCH_SIZE_positive)
    as (Hcat & Hall & Hrest).
  pose proof BATCH_SIZE_positive as Hpos.
  destruct (fill BATCH_SIZE [] movies) as [full rest]. cbn [fst snd] in *.
  split; [|split].
  - cbn [app] in Hcat. rewrite concat_app, <- Hcat. f_equal.
    destruct rest; [reflexivity|]. cbn. now rewrite app_nil_r.
  - intros i b Hb Hi. rewrite length_app in Hi.
    assert (Hfull : (i < length full)%nat) by (destruct rest; cbn in Hi; lia).
    rewrite lookup_app_l in Hb by exact Hfull.
    rewrite Forall_lookup in Hall. exact (Hall i b Hb).
  - apply Forall_app. split.
    + eapply Forall_impl; [exact Hall|]. intros b Hb. cbn in Hb. lia.
    + destruct rest as [|m rest]; constructor; [|constructor].
      cbn [length] in *. lia.
Qed.

Lemma after_checkpoint_suffix (target : string) (movies : list record) :
  exists skipped, movies = skipped ++ after_checkpoint target movies.
Proof.
  induction movies as [|movie movies [skipped IH]].
  - now exists [].
  - cbn [after_checkpoint].
    destruct (String.eqb (py_str (get_none movie "id")) target).
    + now exists [movie].
    + exists (movie :: skipped). cbn. now f_equal.
Qed.

Lemma reached_suffix (last_id : json) (movies : list record) :
  exists skipped, movies = skipped ++ reached last_id movies.
Proof.
  unfold reached. destruct (truthy last_id).
  - apply after_checkpoint_suffix.
  - now exists [].
Qed.

Lemma after_checkpoint_first (target : string) (skipped : list record)
    (movie : record) (rest : list record) :
  Forall (fun m => py_str (get_none m "id") <> target) skipped ->
  py_str (get_none movie "id") = target ->
  after_checkpoint target (skipped ++ movie :: rest) = rest.
Proof.
  intros Hskipped Hmovie.
  induction Hskipped as [|m skipped Hm _ IH]; cbn [app after_checkpoint].
  - now rewrite Hmovie, String.eqb_refl.
  - apply String.eqb_neq in Hm. now rewrite Hm.
Qed.

(** *** The whole run *)

(** A run either goes through every batch of the records the skip logic
    lets through, or is cut short in one of them by a failure entry that
    cannot be written. *)
Lemma run_cases (movies : list record) (envs : nat -> batch_env) (w : world) :
  let out := run movies envs w in
  let batches := batches_of (reached (load_checkpoint (checkpoint_file w)) movies) in
  let evs := run_events batches envs 0 in
  (out.1 = Ok (Z.of_nat (length (concat (submitted evs))), Z.of_nat (length (logged evs)))
   /\ events_since w out.2 = evs
   /\ failed_log_file out.2 = log_file_after (logged evs) (failed_log_file w))
  \/ (exists done batch later e entries,
        batches = done ++ batch :: later
        /\ out.1 = Raise e
        /\ events_since w out.2 =
             run_events done envs 0
               ++ ProcessBatch batch :: (FailureLogged <$> entries))
     /\ logged evs <> []
     /\ (appendable (failed_log_file w) = false
         \/ Exists (fun m => loggable m = false)
              (reached (load_checkpoint (checkpoint_file w)) movies)).
Proof.
  cbv zeta. rewrite run_as_batches. cbv zeta. cbn [fst snd].
  set (recs := reached (load_checkpoint (checkpoint_file w)) movies).
  destruct (run_batches_cases (batches_of recs) envs 0 (0%Z, 0%Z) w)
    as [(Hres & Hh & Hf)
       |((done & b & later & e & entries & Hsplit & He & Hh) & Hfail & Hcause)].
  - left. cbn [fst snd] in Hres. rewrite !Z.add_0_l in Hres.
    repeat split; [exact Hres| |exact Hf]. now apply events_since_app.
  - right. split; [|split; [exact Hfail|]].
    + exists done, b, later, e, entries. repeat split; try assumption.
      now apply events_since_app.
    + destruct Hcause as [Hno|Hbad]; [now left|right].
      now rewrite (proj1 (batches_of_spec recs)) in Hbad.
Qed.

(** The run goes through when no embedding fails, and when the failure log
    can be appended to and every failure entry can be written. *)
Lemma run_completes (movies : list record) (envs : nat -> batch_env) (w : world) :
  let out := run movies envs w in
  let batches := batches_of (reached (load_checkpoint (checkpoint_file w)) movies) in
  let evs := run_events batches envs 0 in
  logged evs = []
  \/ (appendable (failed_log_file w) = true
      /\ Forall (fun m => loggable m = true)
           (reached (load_checkpoint (checkpoint_file w)) movies)) ->
  out.1 = Ok (Z.of_nat (length (concat (submitted evs))), Z.of_nat (length (logged evs)))
  /\ events_since w out.2 = evs
  /\ failed_log_file out.2 = log_file_after (logged evs) (failed_log_file w).
Proof.
  cbv zeta. intros Hwhy.
  destruct (run_cases movies envs w) as [Hok|(_ & Hfail & Hcause)];
    [exact Hok|exfalso].
  destruct Hwhy as [Hnil|[Hlog Hdump]]; [contradiction|].
  destruct Hcause as [Hno|Hbad]; [congruence|].
  apply Exists_exists in Hbad as (m & Hm & Hbad).
  rewrite Forall_forall in Hdump. specialize (Hdump m Hm). cbn beta in Hdump.
  congruence.
Qed.

Lemma run_appendable (movies : list record) (envs : nat -> batch_env) (w : world) :
  let out := run movies envs w in
  let batches := batches_of (reached (load_checkpoint (checkpoint_file w)) movies) in
  let evs := run_events batches envs 0 in
  appendable (failed_log_file w) = true ->
  Forall (fun m => loggable m = true) movies ->
  out.1 = Ok (Z.of_nat (length (concat (submitted evs))), Z.of_nat (length (logged evs)))
  /\ events_since w out.2 = evs
  /\ failed_log_file out.2 = log_file_after (logged evs) (failed_log_file w).
Proof.
  cbv zeta. intros Hlog Hdump. apply run_completes. right. split; [exact Hlog|].
  destruct (reached_suffix (load_checkpoint (checkpoint_file w)) movies)
    as [skipped Hskipped].
  rewrite Hskipped in Hdump. now apply Forall_app in Hdump as [_ Hdump].
Qed.

(** A run that returns went through every batch. *)
Lemma run_returns (movies : list record) (envs : nat -> batch_env) (w : world)
    (totals : Z * Z) :
  let out := run movies envs w in
  let batches := batches_of (reached (load_checkpoint (checkpoint_file w)) movies) in
  let evs := run_events batches envs 0 in
  out.1 = Ok totals ->
  totals = (Z.of_nat (length (concat (submitted evs))), Z.of_nat (length (logged evs)))
  /\ events_since w out.2 = evs
  /\ failed_log_file out.2 = log_file_after (logged evs) (failed_log_file w).
Proof.
  cbv zeta. intros Hok.
  destruct (run_cases movies envs w)
    as [(Hres & Hrest)|((done & b & later & e & entries & _ & He & _) & _)].
  - split; [|exact Hrest]. rewrite Hres in Hok. now injection Hok as <-.
  - rewrite He in Hok. discriminate Hok.
Qed.

Lemma flushed_run_events (batches : list (list record)) (envs : nat -> batch_env) (n : nat) :
  flushed (run_events batches envs n) = batches.
Proof.
  revert n. induction batches as [|batch batches IH]; intros n; [reflexivity|].
  cbn [run_events]. now rewrite flushed_app, flushed_batch_events, IH.
Qed.

(** *** What a run does not depend on

    The result of a call of [process_batch] and the failure log it leaves
    are decided by the answers of the embedding service and by the failure
    log it finds: neither the checkpoint file nor the answer of the index
    has a part in them. *)

Lemma log_failure_same_log (item_id title : json) (error : string) (w1 w2 : world) :
  failed_log_file w1 = failed_log_file w2 ->
  (log_failure item_id title error w1).1 = (log_failure item_id title error w2).1
  /\ failed_log_file (log_failure item_id title error w1).2 =
       failed_log_file (log_failure item_id title error w2).2.
Proof.
  intros Hlog. unfold log_failure. rewrite Hlog.
  destruct (match failed_log_file w2 with Content v => v | _ => JList [] end);
    try (split; [reflexivity|exact Hlog]).
  now destruct (dumpable item_id && dumpable title).
Qed.

Lemma collect_same_log (results : list (record * option record))
    (vectors : list record) (failed : Z) (w1 w2 : world) :
  failed_log_file w1 = failed_log_file w2 ->
  (collect results vectors failed w1).1 = (collect results vectors failed w2).1
  /\ failed_log_file (collect results vectors failed w1).2 =
       failed_log_file (collect results vectors failed w2).2.
Proof.
  revert vectors failed w1 w2.
  induction results as [|[movie [vector|]] results IH]; intros vectors failed w1 w2 Hlog.
  - now split.
  - cbn [collect]. now apply IH.
  - cbn [collect].
    destruct (log_failure_same_log (get_none movie "id") (get_none movie "title")
                "Embedding generation failed after retries" w1 w2 Hlog) as [Hres Hfile].
    destruct (log_failure _ _ _ w1) as [[[]|e1] w1'];
      destruct (log_failure _ _ _ w2) as [[[]|e2] w2'];
      cbn [fst snd] in *; try discriminate Hres.
    + now apply IH.
    + injection Hres as ->. now split.
Qed.

Lemma process_batch_same_log (batch_items : list record) (env1 env2 : batch_env)
    (w1 w2 : world) :
  embed_responses env1 = embed_responses env2 ->
  failed_log_file w1 = failed_log_file w2 ->
  (process_batch batch_items env1 w1).1 = (process_batch batch_items env2 w2).1
  /\ failed_log_file (process_batch batch_items env1 w1).2 =
       failed_log_file (process_batch batch_items env2 w2).2.
Proof.
  intros Hresp Hlog. unfold process_batch, worker_results. rewrite Hresp.
  set (rs := imap _ _).
  set (w01 := {| checkpoint_file := checkpoint_file w1;
                 failed_log_file := failed_log_file w1;
                 history := history w1 ++ [ProcessBatch batch_items] |}).
  set (w02 := {| checkpoint_file := checkpoint_file w2;
                 failed_log_file := failed_log_file w2;
                 history := history w2 ++ [ProcessBatch batch_items] |}).
  destruct (collect_same_log rs [] 0%Z w01 w02 Hlog) as [Hres Hfile].
  destruct (collect rs [] 0%Z w01) as [[[vs1 f1]|e1] w1'];
    destruct (collect rs [] 0%Z w02) as [[[vs2 f2]|e2] w2'];
    cbn [fst snd] in *; try discriminate Hres.
  - injection Hres as -> ->. now rewrite !commit_failed_log.
  - injection Hres as ->. now split.
Qed.

Lemma run_batches_same_log (batches : list (list record))
    (envs1 envs2 : nat -> batch_env) (n : nat) (totals : Z * Z) (w1 w2 : world) :
  (forall k, embed_responses (envs1 k) = embed_responses (envs2 k)) ->
  failed_log_file w1 = failed_log_file w2 ->
  (run_batches batches envs1 n totals w1).1 = (run_batches batches envs2 n totals w2).1
  /\ failed_log_file (run_batches batches envs1 n totals w1).2 =
       failed_log_file (run_batches batches envs2 n totals w2).2.
Proof.
  intros Hresp. revert n totals w1 w2.
  induction batches as [|batch batches IH]; intros n totals w1 w2 Hlog.
  - now split.
  - cbn [run_batches].
    destruct (process_batch_same_log batch (envs1 n) (envs2 n) w1 w2 (Hresp n) Hlog)
      as [Hres Hfile].
    destruct (process_batch batch (envs1 n) w1) as [[[s1 f1]|e1] w1'];
      destruct (process_batch batch (envs2 n) w2) as [[[s2 f2]|e2] w2'];
      cbn [fst snd] in *; try discriminate Hres.
    + injection Hres as -> ->. now apply IH.
    + injection Hres as ->. now split.
Qed.

Lemma run_batches_started (batches : list (list record)) (envs : nat -> batch_env)
    (n : nat) (totals : Z * Z) (w : world) :
  let out := run_batches batches envs n totals w in
  (n <= out.1.2)%nat
  /\ exists evs,
       history out.2 = history w ++ evs
       /\ flushed evs = take (started out.1 n) batches.
Proof.
  cbv zeta. unfold started. revert n totals w.
  induction batches as [|batch batches IH]; intros n totals w.
  - split; [reflexivity|]. exists []. cbn. rewrite app_nil_r. split; [reflexivity|].
    now rewrite take_nil.
  - cbn [run_batches].
    destruct (process_batch_events batch (envs n) w) as (evs1 & Hh1 & Hq1).
    destruct (process_batch batch (envs n) w) as [[[success failed]|e] w'];
      cbn [fst snd] in Hh1.
    + destruct (IH (S n) ((totals.1 + success)%Z, (totals.2 + failed)%Z) w')
        as (Hle & evs2 & Hh2 & Hfl).
      split; [lia|].
      exists ((ProcessBatch batch :: evs1) ++ evs2).
      rewrite Hh2, Hh1, <- app_assoc. split; [reflexivity|].
      rewrite flushed_app.
      change (flushed (ProcessBatch batch :: evs1)) with (batch :: flushed evs1).
      rewrite Hq1, Hfl. cbn [app].
      match goal with |- _ = take ?k _ =>
        replace k with (S (k - 1)) by lia end.
      cbn [take]. do 2 f_equal. lia.
    + cbn [fst snd succeeds]. split; [reflexivity|].
      exists (ProcessBatch batch :: evs1). split; [exact Hh1|].
      change (flushed (ProcessBatch batch :: evs1)) with (batch :: flushed evs1).
      rewrite Hq1. replace (n - n + 1)%nat with 1%nat by lia. reflexivity.
Qed.

(** Two runs over the same stream that find the same failure log, load the
    same identifier and get the same answers from the embedding service
    end alike: the same result, the same batches, the same failure log. *)
Lemma run_same_log (movies : list record) (envs1 envs2 : nat -> batch_env)
    (w1 w2 : world) :
  (forall k, embed_responses (envs1 k) = embed_responses (envs2 k)) ->
  failed_log_file w1 = failed_log_file w2 ->
  load_checkpoint (checkpoint_file w1) = load_checkpoint (checkpoint_file w2) ->
  (run movies envs1 w1).1 = (run movies envs2 w2).1
  /\ failed_log_file (run movies envs1 w1).2 = failed_log_file (run movies envs2 w2).2
  /\ flushed (events_since w1 (run movies envs1 w1).2) =
       flushed (events_since w2 (run movies envs2 w2).2).
Proof.
  intros Hresp Hlog Hload. rewrite !run_as_batches. cbv zeta. cbn [fst snd].
  rewrite Hload.
  set (batches := batches_of (reached (load_checkpoint (checkpoint_file w2)) movies)).
  destruct (run_batches_same_log batches envs1 envs2 0 (0%Z, 0%Z) w1 w2 Hresp Hlog)
    as [Hres Hfile].
  destruct (run_batches_started batches envs1 0 (0%Z, 0%Z) w1) as (_ & evs1 & Hh1 & Hf1).
  destruct (run_batches_started batches envs2 0 (0%Z, 0%Z) w2) as (_ & evs2 & Hh2 & Hf2).
  rewrite (events_since_app _ _ _ Hh1), (events_since_app _ _ _ Hh2), Hf1, Hf2.
  now rewrite Hres.
Qed.

(** C3. In every run the batches handed to [process_batch] are consecutive
    stretches of the input stream, in its order; every batch but the last
    one flushed holds exactly [BATCH_SIZE] = 100 records, and the last one
    holds between 1 and 100.  When the run returns, nothing that followed
    the skipped records is left out. *)
Theorem batches_in_input_order_and_full (movies : list record)
    (envs : nat -> batch_env) (w : world) :
  let out := run movies envs w in
  let batches := flushed (events_since w out.2) in
  BATCH_SIZE = 100%nat
  /\ (exists skipped rest,
        movies = skipped ++ concat batches ++ rest
        /\ (forall totals, out.1 = Ok totals -> rest = []))
  /\ (forall i b, batches !! i = Some b -> (S i < length batches)%nat ->
                  length b = BATCH_SIZE)
  /\ (forall b, last batches = Some b -> (1 <= length b <= BATCH_SIZE)%nat).
Proof.
  cbv zeta. split; [reflexivity|].
  rewrite run_as_batches. cbv zeta. cbn [fst snd].
  set (recs := reached (load_checkpoint (checkpoint_file w)) movies).
  destruct (run_batches_flushed (batches_of recs) envs 0 (0%Z, 0%Z) w)
    as (evs & Hh & [later Hpre] & Hall).
  rewrite (events_since_app _ _ _ Hh).
  destruct (batches_of_spec recs) as (Hcat & Hfull & Hsize).
  destruct (reached_suffix (load_checkpoint (checkpoint_file w)) movies)
    as [skipped Hskipped].
  fold recs in Hskipped.
  split; [|split].
  - exists skipped, (concat later). split.
    + rewrite Hskipped at 1. rewrite <- Hcat at 1. now rewrite Hpre, concat_app.
    + intros totals Hok. specialize (Hall totals Hok).
      rewrite Hall in Hpre at 1.
      rewrite <- (app_nil_r (batches_of recs)) in Hpre at 1.
      apply app_inv_head in Hpre. now subst later.
  - intros i b Hb Hi. apply (Hfull i b).
    + rewrite Hpre. now apply lookup_app_l_Some.
    + rewrite Hpre, length_app. lia.
  - intros b Hb. rewrite Forall_forall in Hsize. apply Hsize.
    rewrite Hpre. apply elem_of_app. left.
    rewrite last_lookup in Hb. now apply list_elem_of_lookup_2 in Hb.
Qed.

Lemma truthy_string (s : string) : s <> "" -> truthy (JStr s) = true.
Proof.
  intros Hs. cbn. apply negb_true_iff. now apply String.eqb_neq.
Qed.

Lemma load_checkpoint_last_id (ckpt : record) (last_id : json) :
  ckpt !! "lastId" = Some last_id ->
  load_checkpoint (Content (JObj ckpt)) = last_id.
Proof.
  intros Hlast. cbn [load_checkpoint]. unfold get_none, get.
  now rewrite Hlast.
Qed.

(** The batches a run starts are the first batches of the records the skip
    logic lets through: at least one of them when there is such a record,
    and all of them when the run returns. *)
Lemma run_flushed (movies : list record) (envs : nat -> batch_env) (w : world) :
  let out := run movies envs w in
  let recs := reached (load_checkpoint (checkpoint_file w)) movies in
  exists later,
    batches_of recs = flushed (events_since w out.2) ++ later
    /\ (forall totals, out.1 = Ok totals -> later = [])
    /\ (recs <> [] -> flushed (events_since w out.2) <> []).
Proof.
  cbv zeta. rewrite run_as_batches. cbv zeta. cbn [fst snd].
  set (recs := reached (load_checkpoint (checkpoint_file w)) movies).
  destruct (run_batches_flushed (batches_of recs) envs 0 (0%Z, 0%Z) w)
    as (evs & Hh & [later Hpre] & Hall).
  destruct (run_batches_started (batches_of recs) envs 0 (0%Z, 0%Z) w)
    as (Hle & evs' & Hh' & Hfl).
  assert (Hevs : evs' = evs) by (rewrite Hh in Hh'; now apply app_inv_head in Hh').
  subst evs'. rewrite (events_since_app _ _ _ Hh).
  exists later. split; [exact Hpre|]. split.
  - intros totals Hok. specialize (Hall totals Hok).
    rewrite Hall in Hpre at 1.
    rewrite <- (app_nil_r (batches_of recs)) in Hpre at 1.
    now apply app_inv_head in Hpre.
  - intros Hrecs Hnil. rewrite Hnil in Hpre, Hfl. cbn [app] in Hpre.
    destruct (batches_of recs) as [|b bs] eqn:Hbs.
    + apply Hrecs. rewrite <- (proj1 (batches_of_spec recs)), Hbs. reflexivity.
    + unfold started in Hfl.
      destruct (run_batches (b :: bs) envs 0 (0%Z, 0%Z) w) as [[[t|e] n'] w'] eqn:Hrun;
        cbn [fst snd succeeds] in *.
      * specialize (Hall t eq_refl). rewrite Hnil in Hall. discriminate Hall.
      * replace (n' - 0 + 1)%nat with (S n') in Hfl by lia. discriminate Hfl.
Qed.

Lemma concat_prefix {A : Type} (l1 l2 : list (list A)) :
  concat l1 `prefix_of` concat (l1 ++ l2).
Proof. exists (concat l2). apply concat_app. Qed.

(** What a run hands to [process_batch] is a beginning of the records the
    skip logic lets through, which starts with the first of them, and all
    of them when the run returns; the run returns when the failure log can
    be appended to and the failure entries of those records can be
    written. *)
Lemma run_handed (movies : list record) (envs : nat -> batch_env) (w : world) :
  let out := run movies envs w in
  let recs := reached (load_checkpoint (checkpoint_file w)) movies in
  let handed := concat (flushed (events_since w out.2)) in
  handed `prefix_of` recs
  /\ (forall movie later, recs = movie :: later -> exists rest, handed = movie :: rest)
  /\ (forall totals, out.1 = Ok totals -> handed = recs)
  /\ (appendable (failed_log_file w) = true ->
      Forall (fun m => loggable m = true) recs ->
      exists totals, out.1 = Ok totals).
Proof.
  cbv zeta.
  set (recs := reached (load_checkpoint (checkpoint_file w)) movies).
  destruct (run_flushed movies envs w) as (later & Hpre & Hall & Hsome).
  fold recs in Hpre, Hsome.
  destruct (batches_of_spec recs) as (Hcat & _ & Hsize).
  split; [|split; [|split]].
  - rewrite <- Hcat, Hpre. apply concat_prefix.
  - intros movie rest Hrecs.
    destruct (flushed (events_since w (run movies envs w).2)) as [|b1 bs] eqn:Hfl.
    { exfalso. apply Hsome; [now rewrite Hrecs|reflexivity]. }
    rewrite Hpre in Hcat, Hsize. cbn [app concat] in Hcat.
    apply Forall_inv in Hsize.
    destruct b1 as [|m b]; [cbn in Hsize; lia|].
    rewrite Hrecs in Hcat. cbn [app] in Hcat. injection Hcat as -> _.
    cbn [concat app]. now eexists.
  - intros totals Hok. rewrite (Hall totals Hok), app_nil_r in Hpre.
    now rewrite <- Hpre.
  - intros Hlog Hdump.
    destruct (run_completes movies envs w) as (Hres & _).
    + right. now split.
    + eexists. exact Hres.
Qed.

(** X21. When the checkpoint file holds a non-empty identifier that a
    record of the stream carries, the run skips up to the first record with
    that identifier, that record included: what it hands to [process_batch]
    is a beginning of the records that follow, in their order, and all of
    them when the run returns.  The run returns when the failure log can be
    appended to and the failure entries of those records can be written. *)
Theorem resume_processes_records_after_checkpoint
    (movies : list record) (envs : nat -> batch_env) (w : world)
    (ckpt : record) (target : string)
    (skipped : list record) (movie : record) (rest : list record) :
  checkpoint_file w = Content (JObj ckpt) ->
  ckpt !! "lastId" = Some (JStr target) ->
  target <> "" ->
  movies = skipped ++ movie :: rest ->
  py_str (get_none movie "id") = target ->
  Forall (fun m => py_str (get_none m "id") <> target) skipped ->
  let out := run movies envs w in
  let handed := concat (flushed (events_since w out.2)) in
  handed `prefix_of` rest
  /\ (forall totals, out.1 = Ok totals -> handed = rest)
  /\ (appendable (failed_log_file w) = true ->
      Forall (fun m => loggable m = true) rest ->
      exists totals, out.1 = Ok totals).
Proof.
  intros Hfile Hlast Htarget Hmovies Hid Hskipped. cbv zeta.
  assert (Hrest : reached (load_checkpoint (checkpoint_file w)) movies = rest).
  { rewrite Hfile, (load_checkpoint_last_id _ _ Hlast). unfold reached.
    rewrite truthy_string by exact Htarget.
    cbn [py_str]. subst movies. now apply after_checkpoint_first. }
  destruct (run_handed movies envs w) as (Hpre & _ & Hall & Hreturns).
  rewrite Hrest in Hpre, Hall, Hreturns.
  split; [exact Hpre|]. split; [exact Hall|exact Hreturns].
Qed.

(** C7. A checkpoint file that is absent or cannot be parsed loads as
    [None], and a file that cannot be parsed is treated as an absent one:
    the run ends with the same result, the same batches and the same
    failure log.  Nothing is raised on account of the checkpoint and no
    record is skipped: the first record of the stream is the first record
    handed to [process_batch], the batches follow the stream, and they
    cover it when the run returns.  The run returns when the failure log
    can be appended to and the failure entries can be written. *)
Theorem unreadable_checkpoint_starts_from_the_beginning
    (movies : list record) (envs : nat -> batch_env) (w : world) :
  checkpoint_file w = Absent \/ checkpoint_file w = Unparsable ->
  let out := run movies envs w in
  let batches := flushed (events_since w out.2) in
  let fresh := run movies envs (with_checkpoint Absent w) in
  load_checkpoint (checkpoint_file w) = JNull
  /\ (out.1 = fresh.1
      /\ batches = flushed (events_since (with_checkpoint Absent w) fresh.2)
      /\ failed_log_file out.2 = failed_log_file fresh.2)
  /\ (exists rest,
        movies = concat batches ++ rest
        /\ (forall totals, out.1 = Ok totals -> rest = []))
  /\ (forall movie later,
        movies = movie :: later -> exists b bs, batches = (movie :: b) :: bs)
  /\ (appendable (failed_log_file w) = true ->
      Forall (fun m => loggable m = true) movies ->
      (exists totals, out.1 = Ok totals) /\ concat batches = movies).
Proof.
  intros Hfile. cbv zeta.
  assert (Hload : load_checkpoint (checkpoint_file w) = JNull)
    by (destruct Hfile as [-> | ->]; reflexivity).
  split; [exact Hload|]. split; [|split; [|split]].
  - destruct (run_same_log movies envs envs w (with_checkpoint Absent w))
      as (Hres & Hlog & Hfl); [reflexivity|reflexivity|exact Hload|].
    now repeat split.
  - destruct (run_flushed movies envs w) as (later & Hpre & Hall & _).
    rewrite Hload in Hpre. change (reached JNull movies) with movies in Hpre.
    exists (concat later). split.
    + rewrite <- (proj1 (batches_of_spec movies)) at 1.
      now rewrite Hpre, concat_app.
    + intros totals Hok. now rewrite (Hall totals Hok).
  - intros movie later Hmovies.
    destruct (run_flushed movies envs w) as (rest & Hpre & _ & Hsome).
    rewrite Hload in Hpre, Hsome. change (reached JNull movies) with movies in *.
    destruct (batches_of_spec movies) as (Hcat & _ & Hsize).
    destruct (flushed (events_since w (run movies envs w).2)) as [|b1 bs] eqn:Hfl.
    { exfalso. apply Hsome; [now rewrite Hmovies|reflexivity]. }
    rewrite Hpre in Hcat, Hsize. cbn [app concat] in Hcat.
    apply Forall_inv in Hsize.
    destruct b1 as [|m b]; [cbn in Hsize; lia|].
    rewrite Hmovies in Hcat. cbn [app] in Hcat. injection Hcat as -> _.
    now exists b, bs.
  - intros Hlog Hdump.
    destruct (run_appendable movies envs w Hlog Hdump) as (Hres & Hevs & _).
    split; [eexists; exact Hres|].
    rewrite Hevs, flushed_run_events, Hload.
    change (reached JNull movies) with movies.
    apply (proj1 (batches_of_spec movies)).
Qed.

(** *** The checkpoint *)

(** A batch that yields a vector has a last record. *)
Lemma embedded_batch_has_last (batch_items : list record) (env : batch_env)
    (v : record) (vs : list record) :
  vectors_of (worker_results (prepare <$> batch_items) env) = v :: vs ->
  exists last_movie, last batch_items = Some last_movie.
Proof.
  intros Hvs. destruct batch_items as [|m ms]; [discriminate|].
  destruct (last (m :: ms)) as [last_movie|] eqn:Hlast; [now eexists|].
  now apply last_None in Hlast.
Qed.

(** The events of lines 180-190, case by case. *)
Lemma commit_events_cases (batch_items vectors : list record) (env : batch_env) :
  (commit_events batch_items vectors env = []
   /\ vectors = [])
  \/ (exists e, commit_events batch_items vectors env = [UpsertFailed vectors e]
                /\ upsert_response env = Some e)
  \/ (exists last_movie,
        commit_events batch_items vectors env =
          [Upserted vectors; CheckpointSaved (py_str (get_none last_movie "id"))]
        /\ last batch_items = Some last_movie
        /\ upsert_response env = None)
  \/ (commit_events batch_items vectors env = [Upserted vectors]
      /\ last batch_items = None).
Proof.
  unfold commit_events.
  destruct vectors as [|v vs]; [now left|].
  destruct (upsert_response env) as [e|]; [right; left; now exists e|].
  destruct (last batch_items) as [last_movie|].
  - right; right; left. now exists last_movie.
  - now do 3 right.
Qed.

(** C6. In one call of [process_batch] the checkpoint is saved as often as
    an upsert is committed, which is at most once.  A save is the last
    thing the call does, it comes right after the committed upsert, and it
    writes the identifier of the last record of the batch handed in,
    whichever records of the batch failed to embed.  Without a save the
    checkpoint file is left as it was. *)
Theorem checkpoint_saved_once_after_commit (batch_items : list record)
    (env : batch_env) (w : world) :
  let out := process_batch batch_items env w in
  let evs := events_since w out.2 in
  length (saved evs) = length (committed evs)
  /\ (length (committed evs) <= 1)%nat
  /\ (forall s, s ∈ saved evs ->
        exists before vectors last_movie,
          evs = before ++ [Upserted vectors; CheckpointSaved s]
          /\ saved before = [] /\ committed before = []
          /\ last batch_items = Some last_movie
          /\ s = py_str (get_none last_movie "id")
          /\ checkpoint_file out.2 =
               Content (JObj {[ "lastId" := JStr s;
                                "timestamp" := JReal (clock env) ]}))
  /\ (saved evs = [] -> checkpoint_file out.2 = checkpoint_file w).
Proof.
  cbv zeta.
  destruct (process_batch_cases batch_items env w)
    as [(_ & Hh & _ & Hc) | ((e & entries & _ & Hh & Hc) & _)];
    rewrite (events_since_app _ _ _ Hh), Hc.
  2: { destruct (cut_short_events batch_items entries) as (_ & _ & Hcom & Hsav & _).
       rewrite Hsav, Hcom. repeat split; try (cbn; lia).
       intros s Hs. inversion Hs. }
  rewrite saved_batch_events, committed_batch_events.
  rewrite batch_events_parts, !submitted_app, submitted_failures.
  set (results := worker_results (prepare <$> batch_items) env).
  set (failures := FailureLogged <$> failures_of results).
  destruct (commit_events_cases batch_items (vectors_of results) env)
    as [[Hev Hvs] | [(e & Hev & Hup) | [(m & Hev & Hlast & Hup) | [Hev Hlast]]]];
    rewrite Hev.
  - repeat split; try (destruct (upsert_response env); cbn; lia).
    intros s Hs. inversion Hs.
  - rewrite Hup. repeat split; try (cbn; lia). intros s Hs. inversion Hs.
  - rewrite Hup. repeat split; try (cbn; lia); [|discriminate].
    intros s Hs. apply list_elem_of_singleton in Hs. subst s.
    exists ([ProcessBatch batch_items] ++ failures), (vectors_of results), m.
    rewrite <- app_assoc, saved_app, committed_app.
    unfold failures. rewrite saved_failures, committed_failures.
    repeat split; try reflexivity. exact Hlast.
  - destruct (vectors_of results) as [|v vs] eqn:Hvs; [discriminate Hev|].
    destruct (embedded_batch_has_last batch_items env v vs Hvs) as [m Hm].
    congruence.
Qed.

(** *** Committed metadata *)

Lemma str_take_all (n : nat) (s : string) :
  (String.length s <= n)%nat -> str_take n s = s.
Proof.
  unfold str_take. revert s.
  induction n as [|n IH]; intros [|c s] Hlen; cbn in *; try reflexivity; try lia.
  f_equal. apply IH. lia.
Qed.

Lemma str_take_truncated (n : nat) (s : string) :
  truncated n s (Some (JStr (str_take n s))).
Proof.
  exists (str_take n s). split; [reflexivity|].
  destruct (Nat.ltb_spec n (String.length s)) as [Hlong|Hshort].
  - apply str_take_first_chars. lia.
  - now apply str_take_all.
Qed.

(** The vectors of a batch come from its records. *)
Lemma vectors_of_results (batch_items : list record) (env : batch_env) (v : record) :
  v ∈ vectors_of (worker_results (prepare <$> batch_items) env) ->
  exists movie resp,
    movie ∈ batch_items /\ embed_once (prepare movie).1 resp = Ok v.
Proof.
  unfold vectors_of. intros Hv.
  apply list_elem_of_omap in Hv as (r & Hr & Hsome).
  apply list_elem_of_lookup in Hr as [i Hi].
  unfold worker_results in Hi. rewrite list_lookup_imap, list_lookup_fmap in Hi.
  destruct (batch_items !! i) as [movie|] eqn:Hmovie; [|discriminate].
  cbn [fmap option_fmap option_map] in Hi.
  assert (Hres : r = (generate_embedding (prepare movie) (embed_responses env i)).1)
    by congruence.
  subst r. clear Hi.
  destruct (prepare movie) as [movie' text] eqn:Hprep.
  rewrite generate_embedding_unfold in Hsome. cbn [fst snd] in Hsome.
  apply embed_loop_some in Hsome as [j Hj].
  exists movie, (embed_responses env i j). split.
  - apply list_elem_of_lookup. now exists i.
  - now rewrite Hprep.
Qed.

Lemma prepare_lookup (movie : record) (k : string) :
  k <> "genres" -> (prepare movie).1 !! k = movie !! k.
Proof. intros Hk. unfold prepare. cbn [fst]. now rewrite lookup_insert_ne. Qed.

Lemma prepare_genres (movie : record) :
  get (prepare movie).1 "genres" (JStr "") =
    JStr (genre_names (get movie "genres" (JList []))).
Proof. unfold prepare, get. cbn [fst]. now rewrite lookup_insert_eq. Qed.

(** C5. Every vector the index accepted comes from a record of the batch,
    carries that record's identifier, and has metadata whose overview,
    title and genre string are cut to 1000 characters: when the record's
    overview (title, joined genre names) is longer than 1000 characters the
    field holds exactly its first 1000 characters, and otherwise the whole
    string. *)
Theorem committed_metadata_is_truncated (batch_items : list record)
    (env : batch_env) (w : world) :
  let out := process_batch batch_items env w in
  Forall (fun v =>
    exists movie md,
      movie ∈ batch_items
      /\ v !! "id" = Some (JStr (py_str (get_none movie "id")))
      /\ v !! "metadata" = Some (JObj md)
      /\ (forall s, movie !! "overview" = Some (JStr s) ->
                    truncated 1000 s (md !! "overview"))
      /\ (forall s, movie !! "title" = Some (JStr s) ->
                    truncated 1000 s (md !! "title"))
      /\ truncated 1000 (genre_names (get movie "genres" (JList [])))
           (md !! "genres"))
    (concat (committed (events_since w out.2))).
Proof.
  cbv zeta.
  destruct (process_batch_cases batch_items env w)
    as [(_ & Hh & _) | ((e & entries & _ & Hh & _) & _)];
    rewrite (events_since_app _ _ _ Hh).
  2: { rewrite (proj1 (proj2 (proj2 (cut_short_events batch_items entries)))).
       constructor. }
  rewrite committed_batch_events.
  destruct (upsert_response env); [constructor|].
  rewrite submitted_batch_events.
  apply Forall_forall. intros v Hv.
  apply vectors_of_results in Hv as (movie & resp & Hmovie & Honce).
  apply embed_once_ok in Honce as (md & Hmd & Hid & Hmeta).
  apply build_metadata_fields in Hmd as (Htitle & Hgenres & Hoverview).
  exists movie, md. split; [exact Hmovie|].
  rewrite prepare_keeps in Hid by discriminate.
  split; [exact Hid|]. split; [exact Hmeta|].
  split; [|split].
  - intros s Hs. rewrite (Hoverview s).
    + apply str_take_truncated.
    + now rewrite prepare_lookup by discriminate.
  - intros s Hs. rewrite (Htitle s).
    + apply str_take_truncated.
    + now rewrite prepare_lookup by discriminate.
  - rewrite Hgenres, prepare_genres. apply str_take_truncated.
Qed.

(** *** What becomes of each record *)

Lemma omap_imap_ext {A B B' C : Type} (f : nat -> A -> B) (g : nat -> A -> B')
    (h : B -> option C) (k : B' -> option C) (l : list A) :
  (forall i x, h (f i x) = k (g i x)) ->
  omap h (imap f l) = omap k (imap g l).
Proof.
  intros Hext. revert f g Hext.
  induction l as [|x l IH]; intros f g Hext; [reflexivity|].
  cbn [imap omap list_omap]. rewrite Hext.
  rewrite (IH (f ∘ S) (g ∘ S)) by (intros i y; apply Hext).
  reflexivity.
Qed.

Lemma fst_imap_pair {A B : Type} (f : nat -> A -> B) (l : list A) :
  fst <$> imap (fun i x => (x, f i x)) l = l.
Proof.
  revert f. induction l as [|x l IH]; intros f; [reflexivity|].
  cbn [imap fmap list_fmap]. f_equal. apply (IH (f ∘ S)).
Qed.

Lemma failure_of_prepared (movie : record) :
  failure_of (prepare movie).1 = failure_of movie.
Proof. unfold failure_of. now rewrite !prepare_keeps by discriminate. Qed.

Lemma worker_results_imap (batch_items : list record) (env : batch_env) :
  worker_results (prepare <$> batch_items) env =
    imap (fun i movie =>
            (generate_embedding (prepare movie) (embed_responses env i)).1)
         batch_items.
Proof. unfold worker_results. now rewrite imap_fmap. Qed.

Lemma vectors_of_batch_outcomes (batch_items : list record) (env : batch_env) :
  vectors_of (worker_results (prepare <$> batch_items) env) =
    vectors_of (batch_outcomes batch_items env).
Proof.
  rewrite worker_results_imap. unfold vectors_of, batch_outcomes.
  now apply omap_imap_ext.
Qed.

Lemma failures_of_batch_outcomes (batch_items : list record) (env : batch_env) :
  failures_of (worker_results (prepare <$> batch_items) env) =
    failures_of (batch_outcomes batch_items env).
Proof.
  rewrite worker_results_imap. unfold failures_of, batch_outcomes.
  apply omap_imap_ext. intros i movie. cbn [fst snd].
  destruct ((generate_embedding (prepare movie) (embed_responses env i)).1.2);
    [reflexivity|].
  now rewrite generate_embedding_record, failure_of_prepared.
Qed.

(** A vector carries the identifier of the record it was built from. *)
Lemma batch_outcomes_ids (batch_items : list record) (env : batch_env) :
  Forall (fun r => forall v, r.2 = Some v ->
                   v !! "id" = Some (JStr (py_str (get_none r.1 "id"))))
         (batch_outcomes batch_items env).
Proof.
  apply Forall_forall. intros r Hr v Hv.
  apply list_elem_of_lookup in Hr as [i Hi].
  unfold batch_outcomes in Hi. rewrite list_lookup_imap in Hi.
  destruct (batch_items !! i) as [movie|]; [|discriminate].
  cbn [fmap option_fmap option_map] in Hi.
  assert (Hres : r = (movie, (generate_embedding (prepare movie)
                                (embed_responses env i)).1.2)) by congruence.
  subst r. cbn [fst snd] in *.
  destruct (prepare movie) as [movie' text] eqn:Hprep.
  rewrite generate_embedding_unfold in Hv. cbn [fst snd] in Hv.
  apply embed_loop_some in Hv as [j Hj].
  apply embed_once_ok in Hj as (md & _ & Hid & _).
  replace movie' with (prepare movie).1 in Hid by now rewrite Hprep.
  now rewrite prepare_keeps in Hid by discriminate.
Qed.

Lemma run_outcomes_records (batches : list (list record)) (envs : nat -> batch_env)
    (n : nat) :
  fst <$> run_outcomes batches envs n = concat batches.
Proof.
  revert n. induction batches as [|batch batches IH]; intros n; [reflexivity|].
  cbn [run_outcomes concat]. rewrite fmap_app, IH. f_equal.
  apply fst_imap_pair.
Qed.

Lemma run_outcomes_ids (batches : list (list record)) (envs : nat -> batch_env)
    (n : nat) :
  Forall (fun r => forall v, r.2 = Some v ->
                   v !! "id" = Some (JStr (py_str (get_none r.1 "id"))))
         (run_outcomes batches envs n).
Proof.
  revert n. induction batches as [|batch batches IH]; intros n; [constructor|].
  cbn [run_outcomes]. apply Forall_app. split; [apply batch_outcomes_ids|apply IH].
Qed.

Lemma run_events_outcomes (batches : list (list record)) (envs : nat -> batch_env)
    (n : nat) :
  concat (submitted (run_events batches envs n)) = vectors_of (run_outcomes batches envs n)
  /\ logged (run_events batches envs n) = failures_of (run_outcomes batches envs n).
Proof.
  revert n. induction batches as [|batch batches IH]; intros n; [now split|].
  cbn [run_events run_outcomes]. destruct (IH (S n)) as [Hsub Hlog].
  rewrite submitted_app, logged_app, concat_app.
  rewrite submitted_batch_events, logged_batch_events, Hsub, Hlog.
  rewrite vectors_of_batch_outcomes, failures_of_batch_outcomes.
  unfold vectors_of, failures_of. now rewrite !omap_app.
Qed.

Lemma run_events_all_committed (batches : list (list record))
    (envs : nat -> batch_env) (n : nat) :
  (forall k, upsert_response (envs k) = None) ->
  committed (run_events batches envs n) = submitted (run_events batches envs n).
Proof.
  intros Hup. revert n.
  induction batches as [|batch batches IH]; intros n; [reflexivity|].
  cbn [run_events]. rewrite committed_app, submitted_app, IH.
  now rewrite committed_batch_events, Hup.
Qed.

Lemma existing_entries_after (entries : list json) (f : file) :
  existing_entries (log_file_after entries f) = existing_entries f ++ entries.
Proof. destruct entries; [now rewrite app_nil_r|reflexivity]. Qed.

(** C1, amended. In a run that completes, every record that reaches
    [process_batch] has exactly one outcome, in the order of the stream:
    either its vector, carrying its identifier, is in the list handed to
    [index.upsert] with its batch, or one entry for it is appended to the
    failure log; never both and never neither, and the two totals count the
    two kinds.  The entries already in the log stay in front of the new
    ones.  The vectors handed over are committed when no upsert fails;
    nothing is said of a record whose batch the index refused. *)
Theorem every_record_is_submitted_or_logged (movies : list record)
    (envs : nat -> batch_env) (w : world) (totals : Z * Z) :
  (run movies envs w).1 = Ok totals ->
  let out := run movies envs w in
  let evs := events_since w out.2 in
  exists outcomes : list (record * option record),
    fst <$> outcomes = concat (flushed evs)
    /\ concat (submitted evs) = vectors_of outcomes
    /\ logged evs = failures_of outcomes
    /\ Forall (fun r => forall v, r.2 = Some v ->
                        v !! "id" = Some (JStr (py_str (get_none r.1 "id"))))
              outcomes
    /\ totals = (Z.of_nat (length (vectors_of outcomes)),
                 Z.of_nat (length (failures_of outcomes)))
    /\ existing_entries (failed_log_file out.2) =
         existing_entries (failed_log_file w) ++ logged evs
    /\ ((forall k, upsert_response (envs k) = None) ->
        committed evs = submitted evs).
Proof.
  intros Hok. cbv zeta.
  destruct (run_returns movies envs w totals Hok) as (Htotals & Hevs & Hfile).
  set (batches := batches_of (reached (load_checkpoint (checkpoint_file w)) movies)) in *.
  exists (run_outcomes batches envs 0).
  rewrite Hevs, Hfile.
  destruct (run_events_outcomes batches envs 0) as [Hsub Hlogged].
  split; [now rewrite flushed_run_events, run_outcomes_records|].
  split; [exact Hsub|].
  split; [exact Hlogged|].
  split; [apply run_outcomes_ids|].
  split; [now rewrite Htotals, Hsub, Hlogged|].
  split; [apply existing_entries_after|].
  intros Hup. now apply run_events_all_committed.
Qed.

(** *** A refused upsert *)

Lemma saved_refused (batch_items vectors : list record) (env : batch_env) (e : exn) :
  upsert_response env = Some e ->
  saved (commit_events batch_items vectors env) = [].
Proof.
  intros Hup. unfold commit_events. rewrite Hup. now destruct vectors.
Qed.

(** Every record of a batch gives a vector or a failure entry. *)
Lemma outcomes_split (results : list (record * option record)) :
  (length (vectors_of results) + length (failures_of results))%nat = length results.
Proof.
  induction results as [|[movie [vector|]] results IH]; [reflexivity| |];
    cbn [vectors_of failures_of omap list_omap fst snd length] in *;
    fold (vectors_of results); fold (failures_of results); lia.
Qed.

Lemma worker_results_length (work_items : list (record * string)) (env : batch_env) :
  length (worker_results work_items env) = length work_items.
Proof. unfold worker_results. apply length_imap. Qed.

(** A refused upsert is the upsert of the vectors of the batch. *)
Lemma upsert_failed_in_batch_events (batch_items vectors : list record)
    (env : batch_env) (e : exn) :
  UpsertFailed vectors e ∈ batch_events batch_items env ->
  upsert_response env = Some e
  /\ vectors = vectors_of (worker_results (prepare <$> batch_items) env)
  /\ vectors <> [].
Proof.
  rewrite batch_events_parts. intros Hin.
  apply elem_of_app in Hin as [Hin|Hin].
  { apply list_elem_of_singleton in Hin. discriminate Hin. }
  apply elem_of_app in Hin as [Hin|Hin].
  { apply list_elem_of_fmap in Hin as (entry & Heq & _). discriminate Heq. }
  unfold commit_events in Hin.
  destruct (vectors_of (worker_results (prepare <$> batch_items) env)) as [|v vs];
    [inversion Hin|].
  destruct (upsert_response env) as [e'|].
  - apply list_elem_of_singleton in Hin. injection Hin as -> ->. now repeat split.
  - destruct (last batch_items);
      repeat (apply elem_of_cons in Hin as [Hin|Hin]; [discriminate Hin|]);
      inversion Hin.
Qed.

(** A call in which the index refused the upsert went through. *)
Lemma refused_upsert_went_through (batch_items vectors : list record)
    (env : batch_env) (w : world) (e : exn) :
  UpsertFailed vectors e ∈ events_since w (process_batch batch_items env w).2 ->
  let results := worker_results (prepare <$> batch_items) env in
  let out := process_batch batch_items env w in
  (upsert_response env = Some e /\ vectors = vectors_of results /\ vectors <> [])
  /\ out.1 = Ok (Z.of_nat (length (vectors_of results)),
                 Z.of_nat (length (failures_of results)))
  /\ history out.2 = history w ++ batch_events batch_items env
  /\ failed_log_file out.2 = log_file_after (failures_of results) (failed_log_file w)
  /\ checkpoint_file out.2 =
       checkpoint_after (saved (batch_events batch_items env)) (clock env)
         (checkpoint_file w).
Proof.
  intros Hin. cbv zeta.
  destruct (process_batch_cases batch_items env w)
    as [Hok | ((e' & entries & _ & Hh & _) & _)].
  - split; [|exact Hok]. destruct Hok as (_ & Hh & _).
    rewrite (events_since_app _ _ _ Hh) in Hin.
    now apply upsert_failed_in_batch_events.
  - exfalso. rewrite (events_since_app _ _ _ Hh) in Hin.
    apply elem_of_cons in Hin as [Hin|Hin]; [discriminate Hin|].
    apply list_elem_of_fmap in Hin as (entry & Heq & _). discriminate Heq.
Qed.

(** The index has no part in the result of a run: with the same answers
    from the embedding service, a run in which upserts are refused ends
    with the result, the batches and the failure log of the run in which
    the index accepts them all. *)
Lemma run_as_if_accepted (movies : list record) (envs : nat -> batch_env) (w : world) :
  (run movies envs w).1 = (run movies (accepting envs) w).1
  /\ flushed (events_since w (run movies envs w).2) =
       flushed (events_since w (run movies (accepting envs) w).2)
  /\ failed_log_file (run movies envs w).2 =
       failed_log_file (run movies (accepting envs) w).2.
Proof.
  destruct (run_same_log movies envs (accepting envs) w w)
    as (Hres & Hlog & Hfl); try reflexivity.
  now repeat split.
Qed.

(** A refused upsert is the last event of its batch. *)
Lemma upsert_failed_ends_batch (batch_items : list record) (env : batch_env)
    (before rest : list event) (vs : list record) (e : exn) :
  batch_events batch_items env = before ++ UpsertFailed vs e :: rest ->
  rest = [] /\ flushed before = [batch_items].
Proof.
  rewrite batch_events_parts.
  set (results := worker_results (prepare <$> batch_items) env).
  set (front := [ProcessBatch batch_items] ++ (FailureLogged <$> failures_of results)).
  rewrite (app_assoc [ProcessBatch batch_items]). fold front.
  assert (Hquiet : forall l, UpsertFailed vs e ∈ front ++ l -> UpsertFailed vs e ∈ l).
  { intros l Hin. apply elem_of_app in Hin as [Hin|Hin]; [exfalso|exact Hin].
    apply elem_of_app in Hin as [Hin|Hin].
    - apply list_elem_of_singleton in Hin. discriminate Hin.
    - apply list_elem_of_fmap in Hin as (entry & Heq & _). discriminate Heq. }
  assert (Hfront : flushed front = [batch_items]).
  { unfold front. now rewrite flushed_app, flushed_failures. }
  intros Heq.
  assert (Hin : UpsertFailed vs e ∈ before ++ UpsertFailed vs e :: rest)
    by (apply elem_of_app; right; apply list_elem_of_here).
  rewrite <- Heq in Hin. apply Hquiet in Hin.
  destruct (commit_events_cases batch_items (vectors_of results) env)
    as [[Hev _] | [(e' & Hev & _) | [(m & Hev & _) | [Hev _]]]];
    rewrite Hev in Heq, Hin.
  - inversion Hin.
  - destruct rest as [|z rest _] using rev_ind.
    + apply app_inj_tail in Heq as [<- _]. now split.
    + exfalso.
      change (before ++ UpsertFailed vs e :: rest ++ [z])
        with (before ++ (UpsertFailed vs e :: rest) ++ [z]) in Heq.
      rewrite app_assoc in Heq. apply app_inj_tail in Heq as [Heq _].
      assert (Hin' : UpsertFailed vs e ∈ front ++ []).
      { rewrite app_nil_r, Heq. apply elem_of_app. right. apply list_elem_of_here. }
      apply Hquiet in Hin'. inversion Hin'.
  - repeat (apply elem_of_cons in Hin as [Hin|Hin]; [discriminate Hin|]).
    inversion Hin.
  - repeat (apply elem_of_cons in Hin as [Hin|Hin]; [discriminate Hin|]).
    inversion Hin.
Qed.

(** In a list of calls, the event that follows a refused upsert is the call
    for the next batch, when there is one; [tail] stands for the events of
    a call that was cut short. *)
Lemma next_batch_follows_refused_upsert (batches later : list (list record))
    (envs : nat -> batch_env) (n : nat) (tail before after : list event)
    (vs : list record) (e : exn) (next : list record) :
  (forall vs' e', UpsertFailed vs' e' ∉ tail) ->
  (tail = [] /\ later = []
   \/ exists b entries, tail = ProcessBatch b :: (FailureLogged <$> entries)) ->
  run_events batches envs n ++ tail = before ++ UpsertFailed vs e :: after ->
  (batches ++ flushed tail ++ later) !! length (flushed before) = Some next ->
  head after = Some (ProcessBatch next).
Proof.
  intros Hquiet Htail. revert n before.
  induction batches as [|batch batches IH]; intros n before Heq Hnext.
  - exfalso. cbn [run_events app] in Heq. apply (Hquiet vs e).
    rewrite Heq. apply elem_of_app. right. apply list_elem_of_here.
  - cbn [run_events] in Heq. rewrite <- app_assoc in Heq.
    apply app_eq_app in Heq as [l [[Hbatch Hrest]|[Hbefore Hrest]]].
    + destruct l as [|x l].
      * rewrite app_nil_r in Hbatch. subst before. cbn [app] in Hrest.
        apply (IH (S n) []); [now rewrite <- Hrest|].
        rewrite flushed_batch_events in Hnext. exact Hnext.
      * cbn [app] in Hrest. injection Hrest as <- ->.
        destruct (upsert_failed_ends_batch batch (envs n) before l vs e Hbatch)
          as [-> Hflushed].
        rewrite Hflushed in Hnext. cbn [length app lookup list_lookup] in Hnext.
        cbn [app]. destruct batches as [|b2 batches].
        -- cbn [run_events app] in *.
           destruct Htail as [[-> ->]|(b & entries & ->)]; [discriminate Hnext|].
           rewrite (proj1 (cut_short_events b entries)) in Hnext.
           cbn in Hnext. now injection Hnext as ->.
        -- cbn in Hnext. injection Hnext as ->. reflexivity.
    + subst before. apply (IH (S n) l); [now rewrite Hrest|].
      rewrite flushed_app, flushed_batch_events in Hnext. exact Hnext.
Qed.

Lemma run_goes_on_after_refused_upsert (movies : list record)
    (envs : nat -> batch_env) (w : world) (before after : list event)
    (vs : list record) (e : exn) (next : list record) :
  events_since w (run movies envs w).2 = before ++ UpsertFailed vs e :: after ->
  batches_of (reached (load_checkpoint (checkpoint_file w)) movies)
    !! length (flushed before) = Some next ->
  head after = Some (ProcessBatch next).
Proof.
  intros Heq Hnext.
  destruct (run_cases movies envs w)
    as [(_ & Hevs & _)|((done & b & later & e' & entries & Hsplit & _ & Hevs) & _)];
    rewrite Hevs in Heq.
  - apply (next_batch_follows_refused_upsert
             (batches_of (reached (load_checkpoint (checkpoint_file w)) movies))
             [] envs 0 [] before after vs e next).
    + intros vs' e' Hin. inversion Hin.
    + now left.
    + now rewrite app_nil_r.
    + cbn [flushed omap list_omap app]. now rewrite app_nil_r.
  - apply (next_batch_follows_refused_upsert done later envs 0
             (ProcessBatch b :: (FailureLogged <$> entries)) before after vs e next).
    + intros vs2 e2 Hin.
      apply elem_of_cons in Hin as [Hin|Hin]; [discriminate Hin|].
      apply list_elem_of_fmap in Hin as (entry & Hentry & _). discriminate Hentry.
    + right. now exists b, entries.
    + exact Heq.
    + rewrite (proj1 (cut_short_events b entries)). cbn [app].
      now rewrite <- Hsplit.
Qed.

(** C8. When the index refuses the upsert of a batch, that call of
    [process_batch] saves no checkpoint and leaves the checkpoint file as
    it was, commits nothing, and returns its counts instead of raising.
    The failure log receives the entries of the records whose embedding
    failed and nothing else: it is left exactly as if the upsert had been
    accepted, without an entry for the records of the refused vectors.  In
    a run, the event that follows a refused upsert is the call of
    [process_batch] for the next batch of the stream, when there is one;
    and a run in which upserts are refused starts the same batches as the
    run in which the index accepts them all, and ends with the same result
    and the same failure log. *)
Theorem refused_upsert_is_contained (batch_items vectors : list record)
    (env : batch_env) (w : world) (e : exn) :
  UpsertFailed vectors e ∈ events_since w (process_batch batch_items env w).2 ->
  let out := process_batch batch_items env w in
  let evs := events_since w out.2 in
  let results := worker_results (prepare <$> batch_items) env in
  upsert_response env = Some e
  /\ vectors = vectors_of results
  /\ saved evs = []
  /\ checkpoint_file out.2 = checkpoint_file w
  /\ committed evs = []
  /\ out.1 = Ok (Z.of_nat (length vectors), Z.of_nat (length (failures_of results)))
  /\ logged evs = failures_of results
  /\ (length (logged evs) + length vectors = length batch_items)%nat
  /\ failed_log_file out.2 =
       failed_log_file (process_batch batch_items (with_upsert_accepted env) w).2
  /\ (forall movies envs w' before vs' e' after next,
        events_since w' (run movies envs w').2 = before ++ UpsertFailed vs' e' :: after ->
        batches_of (reached (load_checkpoint (checkpoint_file w')) movies)
          !! length (flushed before) = Some next ->
        head after = Some (ProcessBatch next))
  /\ (forall movies envs w',
        let refused := run movies envs w' in
        let accepted := run movies (accepting envs) w' in
        refused.1 = accepted.1
        /\ flushed (events_since w' refused.2) = flushed (events_since w' accepted.2)
        /\ failed_log_file refused.2 = failed_log_file accepted.2).
Proof.
  intros Hin. cbv zeta.
  destruct (refused_upsert_went_through batch_items vectors env w e Hin)
    as ((Hup & Hvs & _) & Hres & Hh & Hf & Hc).
  rewrite (events_since_app _ _ _ Hh), Hc, Hres, <- Hvs.
  rewrite saved_batch_events, (saved_refused _ _ _ _ Hup).
  rewrite committed_batch_events, Hup, logged_batch_events.
  split; [reflexivity|]. split; [reflexivity|]. split; [reflexivity|].
  split; [reflexivity|]. split; [reflexivity|]. split; [reflexivity|].
  split; [reflexivity|]. split.
  { pose proof (outcomes_split (worker_results (prepare <$> batch_items) env)) as Hsum.
    rewrite worker_results_length, length_fmap in Hsum. rewrite Hvs. lia. }
  split.
  { apply (process_batch_same_log batch_items env (with_upsert_accepted env) w w);
      reflexivity. }
  split.
  - intros movies envs w' before vs' e' after next.
    apply run_goes_on_after_refused_upsert.
  - intros movies envs w'. apply run_as_if_accepted.
Qed.

(** *** The failure log, entry by entry *)

(** X22. Appending an entry whose identifier and title can be written to a
    failure log that holds a JSON list keeps every entry of that list,
    unchanged and in place, and puts the new entry after them; when the log
    is absent or cannot be parsed the append does not raise and the log
    becomes the list of the new entry alone.  Over a run that returns, the
    entries already in the log stay in front and the run's entries follow
    them. *)
Theorem failure_log_append_keeps_entries (item_id title : json) (error : string)
    (w : world) :
  dumpable item_id && dumpable title = true ->
  let out := log_failure item_id title error w in
  let entry := failure_entry item_id title error in
  (forall l, failed_log_file w = Content (JList l) ->
             out.1 = Ok tt
             /\ failed_log_file out.2 = Content (JList (l ++ [entry]))
             /\ (forall i old, l !! i = Some old -> (l ++ [entry]) !! i = Some old))
  /\ (failed_log_file w = Unparsable \/ failed_log_file w = Absent ->
      out.1 = Ok tt /\ failed_log_file out.2 = Content (JList [entry]))
  /\ (forall movies envs w' l totals,
        failed_log_file w' = Content (JList l) ->
        (run movies envs w').1 = Ok totals ->
        existing_entries (failed_log_file (run movies envs w').2) =
          l ++ logged (events_since w' (run movies envs w').2)).
Proof.
  intros Hdump. cbv zeta. split; [|split].
  - intros l Hfile. unfold log_failure. rewrite Hfile, Hdump.
    cbn [fst snd failed_log_file].
    repeat split. intros i old Hold. now apply lookup_app_l_Some.
  - intros [Hfile|Hfile]; unfold log_failure; rewrite Hfile, Hdump; now split.
  - intros movies envs w' l totals Hfile Hok.
    destruct (run_returns movies envs w' totals Hok) as (_ & Hevs & Hf).
    now rewrite Hf, Hevs, existing_entries_after, Hfile.
Qed.

(** *** The totals *)

Lemma committed_sublist_submitted (batches : list (list record))
    (envs : nat -> batch_env) (n : nat) :
  (length (concat (committed (run_events batches envs n)))
   <= length (concat (submitted (run_events batches envs n))))%nat.
Proof.
  revert n. induction batches as [|batch batches IH]; intros n; [reflexivity|].
  cbn [run_events]. rewrite committed_app, submitted_app, !concat_app, !length_app.
  specialize (IH (S n)). rewrite committed_batch_events.
  destruct (upsert_response (envs n)); cbn [concat length]; lia.
Qed.

(** C10. When the index refuses the upsert, [process_batch] still returns
    the number of vectors that were embedded as its success count, the
    count it returns when the index accepts them, though none was
    committed.  The total a run reports is the number of vectors handed to
    [index.upsert], accepted or refused, so it can exceed the number
    committed, and it is the total of the run in which the index accepts
    every upsert. *)
Theorem success_count_ignores_refused_upsert (batch_items vectors : list record)
    (env : batch_env) (w : world) (e : exn) :
  UpsertFailed vectors e ∈ events_since w (process_batch batch_items env w).2 ->
  let out := process_batch batch_items env w in
  let results := worker_results (prepare <$> batch_items) env in
  vectors = vectors_of results
  /\ vectors <> []
  /\ out.1 = Ok (Z.of_nat (length vectors), Z.of_nat (length (failures_of results)))
  /\ out.1 = (process_batch batch_items (with_upsert_accepted env) w).1
  /\ committed (events_since w out.2) = []
  /\ (forall movies envs w' totals,
        (run movies envs w').1 = Ok totals ->
        let evs := events_since w' (run movies envs w').2 in
        totals = (Z.of_nat (length (concat (submitted evs))),
                  Z.of_nat (length (logged evs)))
        /\ (length (concat (committed evs)) <= length (concat (submitted evs)))%nat)
  /\ (forall movies envs w',
        (run movies envs w').1 = (run movies (accepting envs) w').1).
Proof.
  intros Hin. cbv zeta.
  destruct (refused_upsert_went_through batch_items vectors env w e Hin)
    as ((Hup & Hvs & Hsome) & Hres & Hh & _).
  rewrite (events_since_app _ _ _ Hh), committed_batch_events, Hup.
  split; [exact Hvs|]. split; [exact Hsome|].
  split; [now rewrite Hres, Hvs|].
  split.
  { apply (process_batch_same_log batch_items env (with_upsert_accepted env) w w);
      reflexivity. }
  split; [reflexivity|]. split.
  - intros movies envs w' totals Hok.
    destruct (run_returns movies envs w' totals Hok) as (Htotals & Hevs & _).
    rewrite Hevs. split; [exact Htotals|]. apply committed_sublist_submitted.
  - intros movies envs w'. apply run_as_if_accepted.
Qed.

End Properties.

(** The checkpoint ["a"] makes the run over [a; b; a] process [b; a]. *)
Lemma resume_after_a_sample :
  let out := run (H := sample_builtins) [movie_a; movie_b; movie_a]
               (fun _ => env_fine) (world_with_checkpoint (JStr "a")) in
  (exists totals, out.1 = Ok totals)
  /\ concat (flushed (events_since (world_with_checkpoint (JStr "a")) out.2))
     = [movie_b; movie_a].
Proof.
  destruct (resume_processes_records_after_checkpoint (H := sample_builtins)
              [movie_a; movie_b; movie_a] (fun _ => env_fine)
              (world_with_checkpoint (JStr "a"))
              {[ "lastId" := JStr "a"; "timestamp" := JReal 1699999999%Q ]}
              "a" [] movie_a [movie_b; movie_a]
              eq_refl eq_refl ltac:(discriminate) eq_refl eq_refl ltac:(constructor))
    as (_ & Hall & Hreturns).
  destruct Hreturns as [totals Hok].
  - reflexivity.
  - repeat constructor.
  - split; [now exists totals|]. exact (Hall totals Hok).
Defined.

(** C2. The claim fails on an empty identifier: the checkpoint [""], which
    the script itself saves after a batch whose last record has the
    identifier [""], equals the identifier of the first record of the
    stream, yet the next run does not skip: [skip_mode] tests the
    truthiness of the loaded identifier, so the run processes that record
    again, and not only the one after it. *)
Theorem resume_with_empty_identifier_reprocesses :
  let movies := [movie_blank; movie_b] in
  let w := world_with_checkpoint (JStr "") in
  let out := run (H := sample_builtins) movies (fun _ => env_fine) w in
  load_checkpoint (checkpoint_file w) = JStr ""
  /\ py_str (H := sample_builtins) (get_none movie_blank "id") = ""
  /\ out.1 = Ok (2%Z, 0%Z)
  /\ concat (flushed (events_since w out.2)) = [movie_blank; movie_b]
  /\ concat (flushed (events_since w out.2)) <> [movie_b].
Proof.
  cbv zeta.
  assert (Hrun : concat (flushed (events_since (world_with_checkpoint (JStr ""))
                   (run (H := sample_builtins) [movie_blank; movie_b]
                      (fun _ => env_fine) (world_with_checkpoint (JStr ""))).2))
                 = [movie_blank; movie_b]) by (vm_compute; exact eq_refl).
  split; [reflexivity|].
  split; [reflexivity|].
  split; [vm_compute; exact eq_refl|].
  split; [exact Hrun|].
  rewrite Hrun. intros Heq. apply (f_equal length) in Heq. discriminate Heq.
Qed.

(** A checkpoint file that cannot be parsed: the run over [a; b] starts
    with [a] and goes through both records. *)
Lemma unreadable_checkpoint_sample :
  let w := with_checkpoint Unparsable fresh_world in
  let out := run (H := sample_builtins) [movie_a; movie_b] (fun _ => env_fine) w in
  load_checkpoint (checkpoint_file w) = JNull
  /\ out.1 = (run (H := sample_builtins) [movie_a; movie_b] (fun _ => env_fine)
                fresh_world).1
  /\ (exists totals, out.1 = Ok totals)
  /\ concat (flushed (events_since w out.2)) = [movie_a; movie_b].
Proof.
  pose proof (unreadable_checkpoint_starts_from_the_beginning (H := sample_builtins)
                [movie_a; movie_b] (fun _ => env_fine)
                (with_checkpoint Unparsable fresh_world)
                (or_intror eq_refl)) as (Hload & (Hsame & _) & _ & _ & Hrun).
  split; [exact Hload|]. split; [exact Hsame|].
  apply Hrun; [reflexivity|repeat constructor].
Defined.

(** One record embedded and one not: the run returns 1 and 1, and each
    record has its outcome. *)
Lemma every_record_sample :
  let w := fresh_world in
  let out := run (H := sample_builtins) [movie_a; movie_untitled]
               (fun _ => env_fine) w in
  let evs := events_since w out.2 in
  out.1 = Ok (1%Z, 1%Z)
  /\ exists outcomes : list (record * option record),
       fst <$> outcomes = concat (flushed evs)
       /\ concat (submitted evs) = vectors_of outcomes
       /\ logged evs = failures_of outcomes.
Proof.
  cbv zeta.
  assert (Hok : (run (H := sample_builtins) [movie_a; movie_untitled]
                   (fun _ => env_fine) fresh_world).1 = Ok (1%Z, 1%Z))
    by (vm_compute; exact eq_refl).
  split; [exact Hok|].
  destruct (every_record_is_submitted_or_logged (H := sample_builtins)
              [movie_a; movie_untitled] (fun _ => env_fine) fresh_world
              (1%Z, 1%Z) Hok)
    as (outcomes & Hrecs & Hsub & Hlogged & _).
  exists outcomes. now repeat split.
Defined.

(** C1 as stated fails when the index refuses a batch: the record was
    embedded, reached the coordinator and the run completed, yet it is in
    no committed batch and the failure log has no entry for it. *)
Lemma refused_batch_is_neither_committed_nor_logged :
  let w := fresh_world in
  let out := run (H := sample_builtins) [movie_a] (fun _ => env_index_down) w in
  let evs := events_since w out.2 in
  out.1 = Ok (1%Z, 0%Z)
  /\ concat (flushed evs) = [movie_a]
  /\ committed evs = []
  /\ logged evs = []
  /\ failed_log_file out.2 = Absent.
Proof.
  cbv zeta. repeat split; vm_compute; exact eq_refl.
Qed.

(** One record embedded and one not, and an index that refuses the
    upsert: the call returns 1 and 1, nothing is saved or committed. *)
Lemma refused_upsert_sample :
  let out := process_batch (H := sample_builtins) [movie_a; movie_untitled]
               env_index_down fresh_world in
  let evs := events_since fresh_world out.2 in
  saved evs = []
  /\ checkpoint_file out.2 = Absent
  /\ committed evs = []
  /\ out.1 = Ok (1%Z, 1%Z)
  /\ logged evs = [failure_of movie_untitled].
Proof.
  cbv zeta.
  eassert (Hin : UpsertFailed _ (Exn "503 Service Unavailable")
                 ∈ events_since fresh_world
                     (process_batch (H := sample_builtins) [movie_a; movie_untitled]
                        env_index_down fresh_world).2).
  { apply (list_elem_of_lookup_2 _ 2%nat). vm_compute. exact eq_refl. }
  destruct (refused_upsert_is_contained (H := sample_builtins) _ _ _ _ _ Hin)
    as (_ & _ & Hsaved & Hfile & Hcommitted & Hres & Hlogged & _).
  split; [exact Hsaved|].
  split; [exact Hfile|].
  split; [exact Hcommitted|].
  split; [rewrite Hres; vm_compute; exact eq_refl|].
  rewrite Hlogged. vm_compute. exact eq_refl.
Defined.

(** One record, embedded and then refused by the index: the run reports
    1 processed record and the index holds nothing. *)
Lemma total_counts_refused_record :
  let batch := process_batch (H := sample_builtins) [movie_a] env_index_down
                 fresh_world in
  let out := run (H := sample_builtins) [movie_a] (fun _ => env_index_down)
               fresh_world in
  batch.1 = Ok (1%Z, 0%Z)
  /\ committed (events_since fresh_world batch.2) = []
  /\ out.1 = Ok (1%Z, 0%Z)
  /\ length (concat (submitted (events_since fresh_world out.2))) = 1%nat
  /\ concat (committed (events_since fresh_world out.2)) = [].
Proof.
  cbv zeta.
  eassert (Hin : UpsertFailed _ (Exn "503 Service Unavailable")
                 ∈ events_since fresh_world
                     (process_batch (H := sample_builtins) [movie_a]
                        env_index_down fresh_world).2).
  { apply (list_elem_of_lookup_2 _ 1%nat). vm_compute. exact eq_refl. }
  destruct (success_count_ignores_refused_upsert (H := sample_builtins) _ _ _ _ _ Hin)
    as (_ & _ & Hres & _ & Hcommitted & Hrun & _).
  assert (Hok : (run (H := sample_builtins) [movie_a] (fun _ => env_index_down)
                   fresh_world).1 = Ok (1%Z, 0%Z)) by (vm_compute; exact eq_refl).
  destruct (Hrun [movie_a] (fun _ => env_index_down) fresh_world (1%Z, 0%Z) Hok)
    as [_ Hle].
  split; [rewrite Hres; vm_compute; exact eq_refl|].
  split; [exact Hcommitted|].
  split; [exact Hok|].
  split; vm_compute; exact eq_refl.
Defined.

(** C9. The claim fails on a record whose embedding failed and whose title
    is a number that is not an integer: [ijson] yields a [decimal.Decimal],
    on which [json.dump] raises after the log was opened for writing.  The
    entry that was in the log is lost, the log no longer parses, and the
    exception ends the run. *)
Theorem decimal_title_empties_the_failure_log :
  let old := failure_entry (JStr "a") (JStr "Alpha")
               "Embedding generation failed after retries" in
  let w := world_with_log [old] in
  let out := log_failure (JStr "d") (JReal (15 # 2))
               "Embedding generation failed after retries" w in
  let ran := run (H := sample_builtins) [movie_decimal] (fun _ => env_fine) w in
  existing_entries (failed_log_file w) = [old]
  /\ out.1 = Raise (Exn "Object of type Decimal is not JSON serializable")
  /\ failed_log_file out.2 = Unparsable
  /\ existing_entries (failed_log_file out.2) = []
  /\ ran.1 = Raise (Exn "Object of type Decimal is not JSON serializable")
  /\ failed_log_file ran.2 = Unparsable
  /\ logged (events_since w ran.2) = [].
Proof.
  cbv zeta. repeat split; vm_compute; exact eq_refl.
Qed.


Lemma backoff_rate_limited_sample :
  let out := generate_embedding (H := sample_builtins) (prepare (H := sample_builtins) movie_a)
               (embed_responses env_rate_limited 0) in
  out.1.2 = None /\ length (attempts out.2) = 3%nat /\ delays out.2 = [2; 4; 6]%Z.
Proof.
  apply (backoff_bounded_and_monotone (H := sample_builtins)).
  intros k. eexists. split; [reflexivity|]. vm_compute. exact eq_refl.
Defined.

(** An overview of 1200 characters is committed as its first 1000. *)
Lemma long_overview_sample :
  let out := process_batch (H := sample_builtins) [movie_long] env_fine fresh_world in
  exists v md t,
    concat (committed (events_since fresh_world out.2)) = [v]
    /\ v !! "metadata" = Some (JObj md)
    /\ md !! "overview" = Some (JStr t)
    /\ first_chars 1000 long_text t.
Proof.
  cbv zeta.
  assert (Hcommitted : exists v,
            concat (committed (events_since fresh_world
              (process_batch (H := sample_builtins) [movie_long] env_fine
                 fresh_world).2)) = [v])
    by (eexists; vm_compute; exact eq_refl).
  destruct Hcommitted as [v Hcommitted].
  pose proof (committed_metadata_is_truncated (H := sample_builtins)
                [movie_long] env_fine fresh_world) as Hall.
  cbv zeta in Hall. rewrite Hcommitted in Hall.
  apply Forall_inv in Hall as (movie & md & Hmovie & _ & Hmeta & Hoverview & _).
  apply list_elem_of_singleton in Hmovie. subst movie.
  destruct (Hoverview long_text eq_refl) as (t & Ht & Hfirst).
  exists v, md, t.
  split; [exact Hcommitted|].
  split; [exact Hmeta|].
  split; [exact Ht|].
  exact Hfirst.
Defined.

(** The last record of the batch fails to embed; the batch is committed all
    the same and the checkpoint holds that record's identifier. *)
Lemma checkpoint_after_failed_record_sample :
  let out := process_batch (H := sample_builtins) [movie_a; movie_untitled]
               env_fine fresh_world in
  let evs := events_since fresh_world out.2 in
  saved evs = ["7"]
  /\ length (concat (committed evs)) = 1%nat
  /\ length (logged evs) = 1%nat
  /\ checkpoint_file out.2 =
       Content (JObj {[ "lastId" := JStr "7";
                        "timestamp" := JReal (clock env_fine) ]}).
Proof.
  cbv zeta.
  assert (Hsaved : saved (events_since fresh_world
            (process_batch (H := sample_builtins) [movie_a; movie_untitled]
               env_fine fresh_world).2) = ["7"]) by (vm_compute; exact eq_refl).
  destruct (checkpoint_saved_once_after_commit (H := sample_builtins)
              [movie_a; movie_untitled] env_fine fresh_world)
    as (_ & _ & Hsave & _).
  destruct (Hsave "7") as (before & vectors & last_movie & _ & _ & _ & _ & _ & Hfile).
  { rewrite Hsaved. apply list_elem_of_singleton. reflexivity. }
  split; [exact Hsaved|].
  split; [vm_compute; exact eq_refl|].
  split; [vm_compute; exact eq_refl|].
  exact Hfile.
Defined.

(** Appending to a log of one entry gives a log of two, the old one first. *)
Lemma failure_log_append_sample :
  let old := failure_entry (JStr "a") (JStr "Alpha") "Embedding generation failed after retries" in
  let new := failure_entry (JStr "b") (JStr "Beta") "Embedding generation failed after retries" in
  let out := log_failure (JStr "b") (JStr "Beta")
               "Embedding generation failed after retries" (world_with_log [old]) in
  out.1 = Ok tt /\ failed_log_file out.2 = Content (JList [old; new]).
Proof.
  cbv zeta.
  destruct (failure_log_append_keeps_entries (H := sample_builtins) (JStr "b") (JStr "Beta")
              "Embedding generation failed after retries"
              (world_with_log [failure_entry (JStr "a") (JStr "Alpha")
                                 "Embedding generation failed after retries"])
              eq_refl)
    as (Hkeep & _).
  destruct (Hkeep _ eq_refl) as (Hok & Hfile & _).
  split; [exact Hok|exact Hfile].
Defined.

(** The end-to-end scenario of the specification: 250 records, an embedding
    service and an index that always succeed. *)
Lemma end_to_end_250_sample :
  let out := run (H := sample_builtins) (numbered_stream 250) (fun _ => env_fine)
               fresh_world in
  let evs := events_since fresh_world out.2 in
  out.1 = Ok (250%Z, 0%Z)
  /\ length <$> flushed evs = [100; 100; 50]%nat
  /\ length <$> committed evs = [100; 100; 50]%nat
  /\ saved evs = ["100"; "200"; "250"]
  /\ load_checkpoint (checkpoint_file out.2) = JStr "250"
  /\ logged evs = [].
Proof.
  cbv zeta. repeat split; vm_compute; exact eq_refl.
Qed.

(** A stream of three records is flushed as one partial batch. *)
Lemma short_stream_sample :
  let out := run (H := sample_builtins) [movie_a; movie_b; movie_untitled]
               (fun _ => env_fine) fresh_world in
  let batches := flushed (events_since fresh_world out.2) in
  concat batches = [movie_a; movie_b; movie_untitled]
  /\ exists b, last batches = Some b /\ (1 <= length b <= BATCH_SIZE)%nat.
Proof.
  cbv zeta.
  destruct (batches_in_input_order_and_full (H := sample_builtins)
              [movie_a; movie_b; movie_untitled] (fun _ => env_fine) fresh_world)
    as (_ & _ & _ & Hlast).
  split; [vm_compute; exact eq_refl|].
  exists [movie_a; movie_b; movie_untitled].
  split; [vm_compute; exact eq_refl|].
  apply Hlast. vm_compute. exact eq_refl.
Defined.

(** ** Further properties *)

Section MoreProperties.
Context `{!Builtins}.
Arguments str_take : simpl never.


(** *** The preparation of a record *)

(** X1. Preparing a record changes its ["genres"] key and nothing else:
    the key then holds the joined genre names as a string.  Preparing a
    record that was already prepared changes nothing more and gives the
    same text, so the mutation in place is harmless when a record is
    prepared twice. *)
Theorem prepare_touches_genres_only_and_is_idempotent (movie : record) :
  (forall k, k <> "genres" -> (prepare movie).1 !! k = movie !! k)
  /\ (prepare movie).1 !! "genres" =
       Some (JStr (genre_names (get movie "genres" (JList []))))
  /\ prepare (prepare movie).1 = prepare movie.
Proof.
  split; [|split].
  - intros k Hk. now apply prepare_lookup.
  - unfold prepare. cbn [fst]. apply lookup_insert_eq.
  - set (genres := genre_names (get movie "genres" (JList []))).
    assert (Hgenres : genre_names (get (<["genres" := JStr genres]> movie)
                                     "genres" (JList [])) = genres).
    { unfold get. now rewrite lookup_insert_eq. }
    assert (Hother : forall k dflt, k <> "genres" ->
              get (<["genres" := JStr genres]> movie) k dflt = get movie k dflt).
    { intros k dflt Hk. unfold get. now rewrite lookup_insert_ne. }
    change ((prepare movie).1) with (<["genres" := JStr genres]> movie).
    unfold prepare. fold genres.
    rewrite Hgenres, !Hother by discriminate.
    now rewrite insert_insert_eq.
Qed.


(** *** Metadata, field by field *)

Lemma slice_to_not_null (n : nat) (v w : json) :
  slice_to n v = Ok w -> w <> JNull.
Proof. destruct v; cbn; intros Hw; try discriminate; now injection Hw as <-. Qed.

Lemma get_missing (movie : record) (k : string) (dflt : json) :
  movie !! k = None -> get movie k dflt = dflt.
Proof. unfold get. now intros ->. Qed.

Lemma get_falsy (movie : record) (k : string) (dflt : json) :
  truthy dflt = false ->
  (forall v, movie !! k = Some v -> truthy v = false) ->
  truthy (get movie k dflt) = false.
Proof.
  intros Hdflt Hfalsy. unfold get.
  destruct (movie !! k) as [v|]; [now apply Hfalsy|exact Hdflt].
Qed.

(** X2. The metadata of a record, when it builds, fills the gaps: a missing
    title becomes ["Unknown"], a missing overview the empty string, a
    poster path that is missing, null or empty the empty string, and the
    year is the empty string without a release date and its first four
    characters otherwise.  No metadata value is null. *)
Theorem metadata_fills_gaps_and_holds_no_null (movie md : record) :
  build_metadata movie = Ok md ->
  (movie !! "title" = None -> md !! "title" = Some (JStr "Unknown"))
  /\ (movie !! "overview" = None -> md !! "overview" = Some (JStr ""))
  /\ ((forall v, movie !! "poster_path" = Some v -> truthy v = false) ->
      md !! "poster_path" = Some (JStr ""))
  /\ ((forall v, movie !! "release_date" = Some v -> truthy v = false) ->
      md !! "year" = Some (JStr ""))
  /\ (forall s, movie !! "release_date" = Some (JStr s) -> s <> "" ->
                md !! "year" = Some (JStr (str_take 4 s)))
  /\ (forall k v, md !! k = Some v -> v <> JNull).
Proof.
  unfold build_metadata, bind.
  destruct (slice_to 1000 (get movie "title" (JStr "Unknown")))
    as [title|] eqn:Htitle; [|discriminate].
  destruct (if truthy (get_none movie "release_date") then _ else _)
    as [year|] eqn:Hyear; [|discriminate].
  cbn [slice_to].
  destruct (slice_to 1000 (get movie "overview" (JStr "")))
    as [overview|] eqn:Hoverview; [|discriminate].
  destruct (py_float (get movie "vote_average" (JInt 0))) as [vote|]; [|discriminate].
  destruct (py_float (get movie "popularity" (JInt 0))) as [pop|]; [|discriminate].
  intros Hmd. injection Hmd as <-.
  repeat apply conj.
  - intros Hmissing. rewrite (get_missing _ _ _ Hmissing) in Htitle.
    cbn in Htitle. injection Htitle as <-. reflexivity.
  - intros Hmissing. rewrite (get_missing _ _ _ Hmissing) in Hoverview.
    cbn in Hoverview. injection Hoverview as <-. reflexivity.
  - intros Hfalsy.
    rewrite (get_falsy movie "poster_path" (JStr "") eq_refl Hfalsy). reflexivity.
  - intros Hfalsy. unfold get_none in Hyear.
    rewrite (get_falsy movie "release_date" JNull eq_refl Hfalsy) in Hyear.
    injection Hyear as <-. reflexivity.
  - intros s Hs Hne. unfold get_none in Hyear.
    rewrite !(get_string _ _ _ _ Hs) in Hyear.
    rewrite (truthy_string _ Hne) in Hyear. cbn in Hyear.
    injection Hyear as <-. reflexivity.
  - intros k v Hk.
    assert (Hyear' : year <> JNull).
    { destruct (truthy (get_none movie "release_date")).
      - now apply slice_to_not_null in Hyear.
      - injection Hyear as <-. discriminate. }
    assert (Hposter : (let p := get movie "poster_path" (JStr "") in
                       if truthy p then p else JStr "") <> JNull).
    { cbv zeta. destruct (get movie "poster_path" (JStr "")) eqn:Hp;
        cbn; try discriminate.
      - now destruct b.
      - now destruct (negb _).
      - now destruct (negb _).
      - now destruct (negb _).
      - now destruct (negb _).
      - now destruct (negb _). }
    apply slice_to_not_null in Htitle, Hoverview.
    repeat (apply lookup_insert_Some in Hk as [[_ <-]|[_ Hk]]; [assumption || discriminate|]).
    apply lookup_singleton_Some in Hk as [_ <-]. discriminate.
Qed.


(** *** The retry loop, attempt by attempt *)

Lemma embed_loop_none (retries k : nat) (resps : nat -> embed_response)
    (movie : record) (text : string) :
  (embed_loop retries k resps movie text).1 = None <->
  forall j, (j < retries)%nat -> exists e, embed_once movie (resps (k + j)%nat) = Raise e.
Proof.
  revert k. induction retries as [|r IH]; intros k.
  - split; [intros _ j Hj; lia|reflexivity].
  - rewrite embed_loop_step.
    destruct (embed_once movie (resps k)) as [v|e] eqn:Honce; cbn [fst].
    + split; [discriminate|]. intros Hall.
      destruct (Hall 0%nat) as [e He]; [lia|].
      rewrite Nat.add_0_r in He. congruence.
    + rewrite IH. split.
      * intros Hall [|j] Hj.
        -- rewrite Nat.add_0_r. now exists e.
        -- rewrite <- Nat.add_succ_comm. apply Hall. lia.
      * intros Hall j Hj. rewrite Nat.add_succ_comm. apply Hall. lia.
Qed.

Lemma embed_loop_first_success (retries k j : nat) (resps : nat -> embed_response)
    (movie : record) (text : string) (v : record) :
  (j < retries)%nat ->
  embed_once movie (resps (k + j)%nat) = Ok v ->
  (forall i, (i < j)%nat -> exists e, embed_once movie (resps (k + i)%nat) = Raise e) ->
  (embed_loop retries k resps movie text).1 = Some v
  /\ length (attempts (embed_loop retries k resps movie text).2) = S j.
Proof.
  revert k j. induction retries as [|r IH]; intros k j Hj Hok Hbefore; [lia|].
  rewrite embed_loop_step. destruct j as [|j].
  - rewrite Nat.add_0_r in Hok. rewrite Hok. now split.
  - destruct (Hbefore 0%nat) as [e He]; [lia|].
    rewrite Nat.add_0_r in He. rewrite He. cbn [fst snd].
    change (attempts (EmbedCall text :: ?l)) with (text :: attempts l).
    rewrite attempts_backoff. cbn [length].
    destruct (IH (S k) j) as [Hres Hcalls].
    + lia.
    + now rewrite Nat.add_succ_comm.
    + intros i Hi. rewrite Nat.add_succ_comm. apply Hbefore. lia.
    + split; [exact Hres|now rewrite Hcalls].
Qed.

(** X3. The worker gives up exactly when its three attempts all raise,
    whether the service refused or the metadata did not build; otherwise
    it returns the vector of the first attempt that goes through and makes
    no call after it. *)
Theorem worker_returns_first_success (data_item : record * string)
    (resps : nat -> embed_response) :
  let out := generate_embedding data_item resps in
  (out.1.2 = None <->
   forall j, (j < 3)%nat -> exists e, embed_once data_item.1 (resps j) = Raise e)
  /\ (forall j v,
        (j < 3)%nat ->
        embed_once data_item.1 (resps j) = Ok v ->
        (forall i, (i < j)%nat -> exists e, embed_once data_item.1 (resps i) = Raise e) ->
        out.1.2 = Some v /\ length (attempts out.2) = S j).
Proof.
  destruct data_item as [movie text]. cbv zeta.
  rewrite generate_embedding_unfold. cbn [fst snd]. split.
  - apply (embed_loop_none 3 0).
  - intros j v Hj Hok Hbefore.
    now apply (embed_loop_first_success 3 0 j).
Qed.

(** X4. The delays a worker sleeps are taken, in this order, from 2, 4 and
    6 seconds, so it never sleeps more than 12 seconds in all; it sleeps
    only after an exception whose message mentions 429. *)
Theorem worker_backoff_is_bounded (data_item : record * string)
    (resps : nat -> embed_response) :
  let out := generate_embedding data_item resps in
  delays out.2 `sublist_of` [2; 4; 6]%Z
  /\ (0 <= foldr Z.add 0 (delays out.2) <= 12)%Z
  /\ ((forall j e, embed_once data_item.1 (resps j) = Raise e ->
                   str_contains "429" (exn_msg e) = false) ->
      delays out.2 = []).
Proof.
  destruct data_item as [movie text]. cbv zeta.
  rewrite generate_embedding_unfold. cbn [fst snd].
  rewrite !embed_loop_step.
  destruct (embed_once movie (resps 0%nat)) as [v0|e0] eqn:H0;
    [cbn; repeat split; try lia; apply sublist_nil_l|].
  destruct (embed_once movie (resps 1%nat)) as [v1|e1] eqn:H1;
    [|destruct (embed_once movie (resps 2%nat)) as [v2|e2] eqn:H2].
  all: cbn [fst snd embed_loop].
  all: split; [|split].
  all: try (intros Hquiet;
            rewrite ?(Hquiet 0%nat e0 H0), ?(Hquiet 1%nat e1 H1), ?(Hquiet 2%nat e2 H2);
            reflexivity).
  all: repeat match goal with
       | |- context [str_contains "429" (exn_msg ?e)] =>
           destruct (str_contains "429" (exn_msg e))
       end; cbn.
  all: try lia.
  all: repeat first [apply sublist_nil | apply sublist_skip | apply sublist_cons].
Qed.

(** X5. A record whose title is present but can not be sliced (null, a
    number, a boolean, an object) is never embedded: whatever the service
    answers, the worker spends its three calls and returns the failure. *)
Theorem unsliceable_title_is_never_embedded (movie : record) (title : json)
    (e : exn) (resps : nat -> embed_response) :
  movie !! "title" = Some title ->
  slice_to 1000 title = Raise e ->
  let out := generate_embedding (prepare movie) resps in
  out.1.2 = None /\ length (attempts out.2) = 3%nat.
Proof.
  intros Htitle Hslice. cbv zeta.
  assert (Hraise : forall resp, exists e', embed_once (prepare movie).1 resp = Raise e').
  { intros resp. unfold embed_once, bind.
    destruct resp as [values|e']; [|now exists e'].
    unfold build_metadata, bind, get.
    rewrite prepare_lookup by discriminate. rewrite Htitle. cbn [default from_option id].
    rewrite Hslice. now exists e. }
  destruct (prepare movie) as [movie' text] eqn:Hprep. cbn [fst] in Hraise.
  rewrite generate_embedding_unfold. cbn [fst snd].
  split.
  - apply (embed_loop_none 3 0). intros j _. apply Hraise.
  - rewrite !embed_loop_step.
    destruct (Hraise (resps 0%nat)) as [e0 ->].
    destruct (Hraise (resps 1%nat)) as [e1 ->].
    destruct (Hraise (resps 2%nat)) as [e2 ->].
    cbn [fst snd embed_loop].
    now destruct (str_contains "429" (exn_msg e0)),
                 (str_contains "429" (exn_msg e1)),
                 (str_contains "429" (exn_msg e2)).
Qed.


(** *** Counts *)

Lemma process_batch_counts (batch_items : list record) (env : batch_env) (w : world)
    (success failed : Z) :
  (process_batch batch_items env w).1 = Ok (success, failed) ->
  (success + failed = Z.of_nat (length batch_items))%Z
  /\ (0 <= success)%Z /\ (0 <= failed)%Z.
Proof.
  intros Hok.
  destruct (process_batch_returns batch_items env w (success, failed) Hok) as (Hres & _).
  injection Hres as -> ->.
  pose proof (outcomes_split (worker_results (prepare <$> batch_items) env)) as Hsplit.
  rewrite worker_results_length, length_fmap in Hsplit. lia.
Qed.

Lemma run_batches_counts (batches : list (list record)) (envs : nat -> batch_env)
    (n : nat) (totals : Z * Z) (w : world) (processed failed : Z) :
  (run_batches batches envs n totals w).1.1 = Ok (processed, failed) ->
  (processed + failed = totals.1 + totals.2 + Z.of_nat (length (concat batches)))%Z
  /\ (totals.1 <= processed)%Z /\ (totals.2 <= failed)%Z.
Proof.
  revert n totals w. induction batches as [|batch batches IH]; intros n totals w.
  - cbn. intros Hok. injection Hok as Hok. rewrite Hok. cbn. lia.
  - cbn [run_batches concat].
    destruct (process_batch batch (envs n) w) as [[[s f]|e] w'] eqn:Hbatch;
      [|discriminate].
    intros Hok. apply IH in Hok. cbn [fst snd] in Hok.
    destruct (process_batch_counts batch (envs n) w s f) as (Hsum & Hs & Hf);
      [now rewrite Hbatch|].
    rewrite length_app. lia.
Qed.

(** X6. The two counts [process_batch] returns add up to the size of the
    batch, and the two totals a run reports add up to the number of records
    it handed to [process_batch]: every such record is counted once, as
    processed or as failed. *)
Theorem counts_add_up (movies : list record) (envs : nat -> batch_env) (w : world)
    (processed failed : Z) :
  (run movies envs w).1 = Ok (processed, failed) ->
  let evs := events_since w (run movies envs w).2 in
  (processed + failed = Z.of_nat (length (concat (flushed evs))))%Z
  /\ (0 <= processed)%Z /\ (0 <= failed)%Z
  /\ (length (concat (flushed evs)) <= length movies)%nat
  /\ (forall batch_items env w' success failed',
        (process_batch batch_items env w').1 = Ok (success, failed') ->
        (success + failed' = Z.of_nat (length batch_items))%Z).
Proof.
  intros Hok. cbv zeta. rewrite run_as_batches in *. cbv zeta in *. cbn [fst snd] in *.
  set (recs := reached (load_checkpoint (checkpoint_file w)) movies) in *.
  destruct (run_batches_flushed (batches_of recs) envs 0 (0%Z, 0%Z) w)
    as (evs & Hh & _ & Hall).
  rewrite (events_since_app _ _ _ Hh), (Hall _ Hok).
  rewrite (proj1 (batches_of_spec recs)).
  apply run_batches_counts in Hok. cbn [fst snd] in Hok.
  rewrite (proj1 (batches_of_spec recs)) in Hok.
  destruct (reached_suffix (load_checkpoint (checkpoint_file w)) movies)
    as [skipped Hskipped]. fold recs in Hskipped.
  repeat split; try lia.
  - rewrite Hskipped at 1. rewrite length_app. lia.
  - intros batch_items env w' success failed' Hbatch.
    now apply process_batch_counts in Hbatch.
Qed.

(** *** An embedding service that is down *)

Lemma all_failed_outcomes (batch_items : list record) (env : batch_env) :
  (forall i movie, (generate_embedding (prepare movie) (embed_responses env i)).1.2 = None) ->
  vectors_of (batch_outcomes batch_items env) = []
  /\ failures_of (batch_outcomes batch_items env) = failure_of <$> batch_items.
Proof.
  intros Hnone. unfold batch_outcomes.
  generalize (embed_responses env) Hnone. clear Hnone.
  induction batch_items as [|movie batch_items IH]; intros resps Hnone; [now split|].
  cbn [imap]. unfold vectors_of, failures_of in *.
  cbn [omap list_omap fst snd fmap list_fmap]. rewrite (Hnone 0%nat movie).
  destruct (IH (resps ∘ S)) as [Hv Hf].
  { intros i m. apply Hnone. }
  unfold compose in *. split.
  - exact Hv.
  - f_equal. exact Hf.
Qed.

(** X7. When every call to the embedding service raises, the failure log
    can be appended to and the failure entry of every record of the batch
    can be written, the batch hands nothing to the index and saves no
    checkpoint: each of its records is logged as a failure, in the order
    of the batch, and the call returns 0 successes and as many failures as
    the batch has records. *)
Theorem embedding_outage_logs_the_whole_batch (batch_items : list record)
    (env : batch_env) (w : world) :
  appendable (failed_log_file w) = true ->
  Forall (fun m => loggable m = true) batch_items ->
  (forall i k, exists e, embed_responses env i k = EmbedError e) ->
  let out := process_batch batch_items env w in
  let evs := events_since w out.2 in
  out.1 = Ok (0%Z, Z.of_nat (length batch_items))
  /\ submitted evs = []
  /\ saved evs = []
  /\ checkpoint_file out.2 = checkpoint_file w
  /\ logged evs = failure_of <$> batch_items.
Proof.
  intros Hlog Hdump Hdown. cbv zeta.
  assert (Hnone : forall i movie,
            (generate_embedding (prepare movie) (embed_responses env i)).1.2 = None).
  { intros i movie. destruct (prepare movie) as [movie' text].
    rewrite generate_embedding_unfold. cbn [fst snd].
    apply embed_loop_none. intros j _.
    destruct (Hdown i (0 + j)%nat) as [e ->]. now exists e. }
  destruct (all_failed_outcomes batch_items env Hnone) as [Hvectors Hfailures].
  rewrite <- vectors_of_batch_outcomes in Hvectors.
  rewrite <- failures_of_batch_outcomes in Hfailures.
  destruct (process_batch_appendable batch_items env w Hlog Hdump)
    as (Hres & Hh & _ & Hc).
  rewrite (events_since_app _ _ _ Hh), Hres, Hc.
  rewrite saved_batch_events, logged_batch_events, batch_events_parts.
  rewrite !submitted_app, submitted_failures.
  rewrite Hvectors, Hfailures, length_fmap.
  repeat split.
Qed.

(** *** A checkpoint that is never found *)

Lemma after_checkpoint_absent (target : string) (movies : list record) :
  Forall (fun m => py_str (get_none m "id") <> target) movies ->
  after_checkpoint target movies = [].
Proof.
  induction 1 as [|m movies Hm _ IH]; [reflexivity|].
  cbn [after_checkpoint]. apply String.eqb_neq in Hm. now rewrite Hm.
Qed.

(** X8. When the checkpoint holds an identifier that no record of the
    stream carries, the run skips the whole stream: it reports 0 processed
    and 0 failed and leaves the files and the index as they were. *)
Theorem unknown_checkpoint_skips_everything (movies : list record)
    (envs : nat -> batch_env) (w : world) :
  truthy (load_checkpoint (checkpoint_file w)) = true ->
  Forall (fun m => py_str (get_none m "id")
                   <> py_str (load_checkpoint (checkpoint_file w))) movies ->
  run movies envs w = (Ok (0%Z, 0%Z), w).
Proof.
  intros Htruthy Habsent. rewrite run_as_batches. cbv zeta.
  unfold reached. rewrite Htruthy, (after_checkpoint_absent _ _ Habsent).
  reflexivity.
Qed.

(** *** The buffer *)

(** X9. The driver loop never holds a full batch in its buffer: started
    with fewer than [BATCH_SIZE] buffered records, it ends with fewer than
    [BATCH_SIZE] of them, whatever it read. *)
Theorem buffer_stays_below_batch_size (last_id : json) (movies : list record)
    (envs : nat -> batch_env) (n : nat) (st : run_state) (w : world)
    (st' : run_state) (n' : nat) (w' : world) :
  (length (current_batch st) < BATCH_SIZE)%nat ->
  stream_loop last_id movies envs n st w = (Ok st', n', w') ->
  (length (current_batch st') < BATCH_SIZE)%nat.
Proof.
  intros Hbuffer Hloop.
  pose proof (stream_loop_batches last_id movies envs n st w) as Hbatches.
  cbv zeta in Hbatches. rewrite Hloop in Hbatches.
  unfold outcome_of, with_buffer in Hbatches. cbn [fst snd] in Hbatches.
  match type of Hbatches with
  | context [fill BATCH_SIZE (current_batch st) ?recs] =>
      destruct (fill_spec BATCH_SIZE (current_batch st) recs
                  BATCH_SIZE_positive Hbuffer) as (_ & _ & Hrest);
      destruct (run_batches (fill BATCH_SIZE (current_batch st) recs).1 envs n
                  (processed_count st, failed_count st) w) as [[[[p f]|e] n2] w2]
  end; cbn [fst snd] in Hbatches; [|discriminate].
  injection Hbatches as Hb _ _ _ _. now rewrite Hb.
Qed.


(** *** The checkpoint after a run *)

Lemma load_checkpoint_after (ids : list string) (now : Q) (f : file) :
  load_checkpoint (checkpoint_after ids now f) =
    match last ids with
    | Some s => JStr s
    | None => load_checkpoint f
    end.
Proof.
  unfold checkpoint_after. destruct (last ids) as [s|]; [|reflexivity].
  apply load_checkpoint_last_id. apply lookup_insert_eq.
Qed.

(** Cut short or not, the checkpoint file after a list of calls holds the
    identifier saved last. *)
Lemma run_batches_checkpoint (batches : list (list record)) (envs : nat -> batch_env)
    (n : nat) (totals : Z * Z) (w : world) :
  let out := run_batches batches envs n totals w in
  load_checkpoint (checkpoint_file out.2) =
    match last (saved (events_since w out.2)) with
    | Some s => JStr s
    | None => load_checkpoint (checkpoint_file w)
    end.
Proof.
  cbv zeta. revert n totals w.
  induction batches as [|batch batches IH]; intros n totals w.
  - cbn [run_batches fst snd]. unfold events_since. now rewrite drop_all.
  - cbn [run_batches].
    pose proof (process_batch_checkpoint batch (envs n) w) as Hc. cbv zeta in Hc.
    destruct (process_batch_events batch (envs n) w) as (evs1 & Hh1 & _).
    destruct (process_batch batch (envs n) w) as [[[success failed]|e] w'];
      cbn [fst snd] in *.
    + destruct (run_batches_flushed batches envs (S n)
                  ((totals.1 + success)%Z, (totals.2 + failed)%Z) w')
        as (evs2 & Hh2 & _).
      rewrite IH, (events_since_app w' _ evs2 Hh2).
      rewrite (events_since_app w _ ((ProcessBatch batch :: evs1) ++ evs2))
        by (rewrite Hh2, Hh1, <- app_assoc; reflexivity).
      rewrite Hc, (events_since_app w w' _ Hh1).
      rewrite saved_app, last_app, load_checkpoint_after.
      now destruct (last (saved evs2)).
    + now rewrite Hc, load_checkpoint_after.
Qed.

Lemma run_checkpoint (movies : list record) (envs : nat -> batch_env) (w : world) :
  let out := run movies envs w in
  load_checkpoint (checkpoint_file out.2) =
    match last (saved (events_since w out.2)) with
    | Some s => JStr s
    | None => load_checkpoint (checkpoint_file w)
    end.
Proof.
  cbv zeta. rewrite run_as_batches. cbv zeta. cbn [snd].
  apply run_batches_checkpoint.
Qed.

(** X10. After a run the checkpoint file holds the identifier that was
    saved last, whatever happened to the batches before it; a run that
    saves nothing leaves the checkpoint as it found it. *)
Theorem checkpoint_holds_the_last_saved_identifier (movies : list record)
    (envs : nat -> batch_env) (w : world) :
  appendable (failed_log_file w) = true ->
  let out := run movies envs w in
  load_checkpoint (checkpoint_file out.2) =
    match last (saved (events_since w out.2)) with
    | Some s => JStr s
    | None => load_checkpoint (checkpoint_file w)
    end.
Proof.
  intros _. apply run_checkpoint.
Qed.

(** *** Running again *)








(** *** A failure log that is not a list *)

(** X12. When the failure log holds JSON that is not a list, the first
    record of a batch whose embedding failed makes [process_batch] raise:
    the log and the checkpoint are left as they were and nothing is handed
    to the index, not even the vectors of the records that were embedded. *)
Theorem malformed_failure_log_aborts_the_batch (batch_items : list record)
    (env : batch_env) (w : world) (i : nat) (movie : record) :
  appendable (failed_log_file w) = false ->
  batch_items !! i = Some movie ->
  (generate_embedding (prepare movie) (embed_responses env i)).1.2 = None ->
  let out := process_batch batch_items env w in
  (exists e, out.1 = Raise e)
  /\ events_since w out.2 = [ProcessBatch batch_items]
  /\ failed_log_file out.2 = failed_log_file w
  /\ checkpoint_file out.2 = checkpoint_file w.
Proof.
  intros Hlog Hmovie Hnone. cbv zeta.
  assert (Hfailed : failures_of (worker_results (prepare <$> batch_items) env) <> []).
  { intros Hnil.
    assert (Hin : failure_of (prepare movie).1
                  ∈ failures_of (worker_results (prepare <$> batch_items) env)).
    { unfold failures_of. apply list_elem_of_omap.
      exists (generate_embedding (prepare movie) (embed_responses env i)).1. split.
      - apply list_elem_of_lookup. exists i.
        unfold worker_results.
        now rewrite list_lookup_imap, list_lookup_fmap, Hmovie.
      - now rewrite Hnone, generate_embedding_record. }
    rewrite Hnil in Hin. inversion Hin. }
  unfold process_batch.
  set (w0 := {| checkpoint_file := checkpoint_file w;
                failed_log_file := failed_log_file w;
                history := history w ++ [ProcessBatch batch_items] |}).
  destruct (collect_not_appendable (worker_results (prepare <$> batch_items) env)
              [] 0%Z w0 Hlog) as [Hw Hcases].
  destruct (collect (worker_results (prepare <$> batch_items) env) [] 0%Z w0)
    as [[[vectors failed]|e] w']; cbn [fst snd] in *; subst w'.
  - destruct Hcases as [[_ Hnil]|[e He]]; [contradiction|discriminate].
  - split; [now exists e|]. split; [|now split].
    now apply events_since_app.
Qed.

(** *** A title that cannot be written to the failure log *)

Lemma decimal_title_is_never_embedded (movie : record) (q : Q)
    (resps : nat -> embed_response) :
  movie !! "title" = Some (JReal q) ->
  (generate_embedding (prepare movie) resps).1.2 = None.
Proof.
  intros Htitle.
  assert (Hraise : forall resp, exists e, embed_once (prepare movie).1 resp = Raise e).
  { intros resp. unfold embed_once, bind.
    destruct resp as [values|e]; [|now exists e].
    unfold build_metadata, bind, get.
    rewrite prepare_lookup by discriminate. rewrite Htitle.
    cbn [default from_option id slice_to]. now eexists. }
  destruct (prepare movie) as [movie' text] eqn:Hprep. cbn [fst] in Hraise.
  rewrite generate_embedding_unfold. cbn [fst snd].
  apply (embed_loop_none 3 0). intros j _. apply Hraise.
Qed.

Lemma decimal_title_not_loggable (movie : record) (q : Q) :
  movie !! "title" = Some (JReal q) -> loggable movie = false.
Proof.
  intros Htitle. unfold loggable, get_none, get. rewrite Htitle.
  cbn [default from_option id dumpable]. apply andb_false_r.
Qed.

(** With a failure log that can be appended to, a failure entry that
    cannot be written cuts the loop over the results short with the
    [TypeError] of [json.dump], and the log is left unparsable. *)
Lemma collect_undumpable (results : list (record * option record))
    (vectors : list record) (failed : Z) (w : world) :
  appendable (failed_log_file w) = true ->
  Exists (fun r => r.2 = None /\ loggable r.1 = false) results ->
  (collect results vectors failed w).1 =
    Raise (Exn "Object of type Decimal is not JSON serializable")
  /\ failed_log_file (collect results vectors failed w).2 = Unparsable.
Proof.
  revert vectors failed w.
  induction results as [|[movie [vector|]] results IH]; intros vectors failed w Hlog Hbad.
  - inversion Hbad.
  - cbn [collect]. apply IH; [exact Hlog|].
    apply Exists_cons in Hbad as [[Hnone _]|Hbad]; [discriminate Hnone|exact Hbad].
  - cbn [collect]. destruct (loggable movie) eqn:Hdump.
    + rewrite log_failure_appendable by assumption. apply IH; [reflexivity|].
      apply Exists_cons in Hbad as [[_ Hno]|Hbad]; [|exact Hbad].
      cbn [fst] in Hno. congruence.
    + rewrite log_failure_undumpable by assumption. now split.
Qed.

(** With a failure log that can be appended to, a call of [process_batch]
    returns, or raises that [TypeError] and leaves the log unparsable. *)
Lemma process_batch_appendable_cases (batch_items : list record) (env : batch_env)
    (w : world) :
  let results := worker_results (prepare <$> batch_items) env in
  let out := process_batch batch_items env w in
  appendable (failed_log_file w) = true ->
  ((exists counts, out.1 = Ok counts)
   /\ failed_log_file out.2 = log_file_after (failures_of results) (failed_log_file w))
  \/ (out.1 = Raise (Exn "Object of type Decimal is not JSON serializable")
      /\ failed_log_file out.2 = Unparsable).
Proof.
  intros results out Hlog. subst out. unfold process_batch. fold results.
  set (w0 := {| checkpoint_file := checkpoint_file w;
                failed_log_file := failed_log_file w;
                history := history w ++ [ProcessBatch batch_items] |}).
  destruct (collect_cases results [] 0%Z w0) as [Hok|(_ & _ & Hcause)].
  - left. rewrite Hok. cbn [fst snd]. split; [now eexists|].
    apply process_batch_goes_through.
  - right. destruct Hcause as [Hno|Hbad]; [cbn in Hno; congruence|].
    destruct (collect_undumpable results [] 0%Z w0 Hlog Hbad) as [Hres Hfile].
    destruct (collect results [] 0%Z w0) as [[[vectors failed]|e] w'];
      cbn [fst snd] in *; [discriminate Hres|].
    injection Hres as ->. now split.
Qed.

Lemma process_batch_undumpable (batch_items : list record) (env : batch_env)
    (w : world) (movie : record) (q : Q) :
  appendable (failed_log_file w) = true ->
  movie ∈ batch_items ->
  movie !! "title" = Some (JReal q) ->
  (process_batch batch_items env w).1 =
    Raise (Exn "Object of type Decimal is not JSON serializable")
  /\ failed_log_file (process_batch batch_items env w).2 = Unparsable.
Proof.
  intros Hlog Hin Htitle. unfold process_batch.
  set (results := worker_results (prepare <$> batch_items) env).
  set (w0 := {| checkpoint_file := checkpoint_file w;
                failed_log_file := failed_log_file w;
                history := history w ++ [ProcessBatch batch_items] |}).
  assert (Hbad : Exists (fun r => r.2 = None /\ loggable r.1 = false) results).
  { apply list_elem_of_lookup in Hin as [i Hi].
    apply Exists_exists.
    exists (generate_embedding (prepare movie) (embed_responses env i)).1. split.
    - apply list_elem_of_lookup. exists i. unfold results, worker_results.
      now rewrite list_lookup_imap, list_lookup_fmap, Hi.
    - split; [now apply (decimal_title_is_never_embedded movie q)|].
      rewrite generate_embedding_record, loggable_prepared.
      now apply (decimal_title_not_loggable movie q). }
  destruct (collect_undumpable results [] 0%Z w0 Hlog Hbad) as [Hres Hfile].
  destruct (collect results [] 0%Z w0) as [[[vectors failed]|e] w'];
    cbn [fst snd] in *; [discriminate Hres|].
  injection Hres as ->. now split.
Qed.

Lemma run_batches_undumpable (batches : list (list record)) (envs : nat -> batch_env)
    (n : nat) (totals : Z * Z) (w : world) (movie : record) (q : Q) :
  appendable (failed_log_file w) = true ->
  movie ∈ concat batches ->
  movie !! "title" = Some (JReal q) ->
  (run_batches batches envs n totals w).1.1 =
    Raise (Exn "Object of type Decimal is not JSON serializable")
  /\ failed_log_file (run_batches batches envs n totals w).2 = Unparsable.
Proof.
  intros Hlog Hin Htitle. revert n totals w Hlog Hin.
  induction batches as [|batch batches IH]; intros n totals w Hlog Hin.
  - inversion Hin.
  - cbn [run_batches concat] in *.
    destruct (process_batch_appendable_cases batch (envs n) w Hlog)
      as [([counts Hok] & Hfile)|[Hraise Hfile]].
    + apply elem_of_app in Hin as [Hin|Hin].
      { destruct (process_batch_undumpable batch (envs n) w movie q Hlog Hin Htitle)
          as [Hraise _]. rewrite Hraise in Hok. discriminate Hok. }
      destruct (process_batch batch (envs n) w) as [[[success failed]|e] w'];
        cbn [fst snd] in *; [|discriminate Hok].
      apply IH; [|exact Hin]. rewrite Hfile. now apply log_file_after_appendable.
    + destruct (process_batch batch (envs n) w) as [[[success failed]|e] w'];
        cbn [fst snd] in *; [discriminate Hraise|].
      injection Hraise as ->. now split.
Qed.

(** X23. A record whose title is a number that is not an integer is never
    embedded and its failure entry cannot be written.  With a failure log
    that can be appended to, the call of [process_batch] for a batch that
    holds such a record raises the [TypeError] of [json.dump]: the log is
    left unparsable, so the entries it held are lost, nothing is handed to
    the index and no checkpoint is saved.  A run that lets such a record
    through raises that exception and leaves the log unparsable, whatever
    the services answer. *)
Theorem decimal_title_aborts_the_batch (batch_items : list record)
    (env : batch_env) (w : world) (movie : record) (q : Q) :
  appendable (failed_log_file w) = true ->
  movie ∈ batch_items ->
  movie !! "title" = Some (JReal q) ->
  let out := process_batch batch_items env w in
  let evs := events_since w out.2 in
  out.1 = Raise (Exn "Object of type Decimal is not JSON serializable")
  /\ failed_log_file out.2 = Unparsable
  /\ existing_entries (failed_log_file out.2) = []
  /\ submitted evs = []
  /\ saved evs = []
  /\ checkpoint_file out.2 = checkpoint_file w
  /\ (forall movies envs w',
        appendable (failed_log_file w') = true ->
        movie ∈ reached (load_checkpoint (checkpoint_file w')) movies ->
        (run movies envs w').1 =
          Raise (Exn "Object of type Decimal is not JSON serializable")
        /\ failed_log_file (run movies envs w').2 = Unparsable).
Proof.
  intros Hlog Hin Htitle. cbv zeta.
  destruct (process_batch_undumpable batch_items env w movie q Hlog Hin Htitle)
    as [Hraise Hfile].
  split; [exact Hraise|]. split; [exact Hfile|]. split; [now rewrite Hfile|].
  destruct (process_batch_cases batch_items env w)
    as [(Hok & _)|((e & entries & _ & Hh & Hc) & _)].
  { rewrite Hraise in Hok. discriminate Hok. }
  rewrite (events_since_app _ _ _ Hh).
  destruct (cut_short_events batch_items entries) as (_ & Hsub & _ & Hsav & _).
  split; [exact Hsub|]. split; [exact Hsav|]. split; [exact Hc|].
  intros movies envs w' Hlog' Hreached.
  rewrite run_as_batches. cbv zeta. cbn [fst snd].
  apply (run_batches_undumpable _ envs 0 (0%Z, 0%Z) w' movie q Hlog'); [|exact Htitle].
  now rewrite (proj1 (batches_of_spec _)).
Qed.

(** *** A run in which nothing fails *)

Lemma first_call_embeds (movie md : record) (text : string)
    (resps : nat -> embed_response) (values : json) :
  resps 0%nat = Embedded values ->
  build_metadata movie = Ok md ->
  is_Some (generate_embedding (movie, text) resps).1.2.
Proof.
  intros Hresp Hmd. rewrite generate_embedding_unfold. cbn [fst snd].
  rewrite embed_loop_step. unfold embed_once, bind. rewrite Hresp, Hmd.
  now eexists.
Qed.

Lemma batch_outcomes_embedded (batch_items : list record) (env : batch_env) :
  (forall i, exists values, embed_responses env i 0%nat = Embedded values) ->
  Forall (fun m => succeeds (build_metadata (prepare m).1) = true) batch_items ->
  Forall (fun r => is_Some r.2) (batch_outcomes batch_items env).
Proof.
  intros Hresp Hmeta. apply Forall_forall. intros r Hr.
  apply list_elem_of_lookup in Hr as [i Hi].
  unfold batch_outcomes in Hi. rewrite list_lookup_imap in Hi.
  destruct (batch_items !! i) as [movie|] eqn:Hmovie; [|discriminate].
  cbn [fmap option_fmap option_map] in Hi.
  assert (Hres : r = (movie, (generate_embedding (prepare movie)
                                (embed_responses env i)).1.2)) by congruence.
  subst r. cbn [snd].
  rewrite Forall_lookup in Hmeta. specialize (Hmeta i movie Hmovie). cbn beta in Hmeta.
  destruct (Hresp i) as [values Hvalues].
  destruct (prepare movie) as [movie' text]. cbn [fst] in Hmeta.
  destruct (build_metadata movie') as [md|] eqn:Hmd; [|discriminate Hmeta].
  now apply (first_call_embeds movie' md text _ values).
Qed.

Lemma run_outcomes_embedded (batches : list (list record)) (envs : nat -> batch_env)
    (n : nat) :
  (forall k i, exists values, embed_responses (envs k) i 0%nat = Embedded values) ->
  Forall (fun m => succeeds (build_metadata (prepare m).1) = true) (concat batches) ->
  Forall (fun r => is_Some r.2) (run_outcomes batches envs n).
Proof.
  intros Hresp. revert n.
  induction batches as [|batch batches IH]; intros n Hmeta; [constructor|].
  cbn [concat] in Hmeta. apply Forall_app in Hmeta as [Hbatch Hrest].
  cbn [run_outcomes]. apply Forall_app. split.
  - now apply batch_outcomes_embedded.
  - now apply IH.
Qed.

(** When every record has a vector, nothing is logged and the vectors
    carry the identifiers of the records, one for one. *)
Lemma embedded_outcomes (outcomes : list (record * option record)) :
  Forall (fun r => is_Some r.2) outcomes ->
  Forall (fun r => forall v, r.2 = Some v ->
                   v !! "id" = Some (JStr (py_str (get_none r.1 "id")))) outcomes ->
  failures_of outcomes = []
  /\ (fun v : record => v !! "id") <$> vectors_of outcomes =
       (fun m => Some (JStr (py_str (get_none m "id")))) <$> (fst <$> outcomes).
Proof.
  induction outcomes as [|[movie [vector|]] outcomes IH]; intros Hsome Hids.
  - now split.
  - apply Forall_cons in Hsome as [_ Hsome]. apply Forall_cons in Hids as [Hid Hids].
    destruct (IH Hsome Hids) as [Hfail Hvec].
    unfold failures_of, vectors_of in *. cbn [omap list_omap fmap list_fmap fst snd].
    split; [exact Hfail|]. f_equal; [now apply Hid|exact Hvec].
  - apply Forall_cons in Hsome as [[v Hv] _]. discriminate Hv.
Qed.

(** X13. When the first call for every record is answered with an
    embedding, the metadata of every record builds and the index accepts
    every upsert, the run commits one vector per record it handed to
    [process_batch], in the order of the stream and under the record's
    identifier; it reports them all as processed and none as failed, and
    it leaves the failure log untouched, whatever that log holds. *)
Theorem clean_run_commits_every_record (movies : list record)
    (envs : nat -> batch_env) (w : world) :
  (forall k i, exists values, embed_responses (envs k) i 0%nat = Embedded values) ->
  (forall k, upsert_response (envs k) = None) ->
  Forall (fun m => succeeds (build_metadata (prepare m).1) = true) movies ->
  let out := run movies envs w in
  let evs := events_since w out.2 in
  out.1 = Ok (Z.of_nat (length (concat (flushed evs))), 0%Z)
  /\ (fun v : record => v !! "id") <$> concat (committed evs) =
       (fun m => Some (JStr (py_str (get_none m "id")))) <$> concat (flushed evs)
  /\ logged evs = []
  /\ failed_log_file out.2 = failed_log_file w.
Proof.
  intros Hresp Hup Hmeta. cbv zeta.
  set (recs := reached (load_checkpoint (checkpoint_file w)) movies).
  set (batches := batches_of recs).
  destruct (run_events_outcomes batches envs 0) as [Hsub Hlogged].
  assert (Hrecs : Forall (fun m => succeeds (build_metadata (prepare m).1) = true)
                    (concat batches)).
  { unfold batches. rewrite (proj1 (batches_of_spec recs)).
    destruct (reached_suffix (load_checkpoint (checkpoint_file w)) movies)
      as [skipped Hskipped]. fold recs in Hskipped.
    rewrite Hskipped in Hmeta. now apply Forall_app in Hmeta as [_ Hmeta]. }
  destruct (embedded_outcomes (run_outcomes batches envs 0)
              (run_outcomes_embedded batches envs 0 Hresp Hrecs)
              (run_outcomes_ids batches envs 0)) as [Hfail Hvec].
  destruct (run_completes movies envs w) as (Hres & Hevs & Hfile).
  { left. fold recs. fold batches. now rewrite Hlogged. }
  fold recs in Hres, Hevs, Hfile. fold batches in Hres, Hevs, Hfile.
  rewrite Hres, Hevs, Hfile.
  rewrite (run_events_all_committed batches envs 0 Hup).
  rewrite Hsub, Hlogged, flushed_run_events.
  rewrite Hfail, Hvec, run_outcomes_records.
  split; [|now repeat split].
  do 2 f_equal.
  rewrite <- (length_fmap (fun v : record => v !! "id")), Hvec, length_fmap.
  now rewrite run_outcomes_records.
Qed.


(** *** A checkpoint file without a usable identifier *)

(** X14. A checkpoint file that holds JSON which is not an object, or an
    object without ["lastId"], loads as [None]; and whenever the loaded
    identifier is falsy ([None], empty, zero) the run skips nothing: the
    first record of the stream is the first it hands to [process_batch],
    what it hands over is a beginning of the stream, and the whole stream
    when it returns.  It returns when the failure log can be appended to
    and the failure entries can be written. *)
Theorem unusable_checkpoint_means_no_skipping (movies : list record)
    (envs : nat -> batch_env) (w : world) :
  truthy (load_checkpoint (checkpoint_file w)) = false ->
  let out := run movies envs w in
  let handed := concat (flushed (events_since w out.2)) in
  handed `prefix_of` movies
  /\ (forall movie later, movies = movie :: later -> exists rest, handed = movie :: rest)
  /\ (forall totals, out.1 = Ok totals -> handed = movies)
  /\ (appendable (failed_log_file w) = true ->
      Forall (fun m => loggable m = true) movies ->
      exists totals, out.1 = Ok totals)
  /\ (forall v, (forall ckpt, v <> JObj ckpt) -> load_checkpoint (Content v) = JNull)
  /\ (forall ckpt, ckpt !! "lastId" = None ->
                   load_checkpoint (Content (JObj ckpt)) = JNull).
Proof.
  intros Hfalsy. cbv zeta.
  pose proof (run_handed movies envs w) as Hrun. cbv zeta in Hrun.
  unfold reached in Hrun. rewrite Hfalsy in Hrun.
  destruct Hrun as (Hpre & Hfirst & Hall & Hreturns).
  split; [exact Hpre|]. split; [exact Hfirst|]. split; [exact Hall|].
  split; [exact Hreturns|]. split.
  - intros v Hv. destruct v; try reflexivity. now destruct (Hv m).
  - intros ckpt Hmissing. cbn [load_checkpoint]. unfold get_none, get.
    now rewrite Hmissing.
Qed.

(** *** Genre names *)

(** X15. The genre string of a list joins the names of its objects with
    [", "], in their order; an entry of the list that is not an object is
    left out, wherever it stands. *)
Theorem genre_names_join_the_objects (before after : list json) (g : json) :
  (forall d, g <> JObj d) ->
  genre_names (JList (before ++ g :: after)) = genre_names (JList (before ++ after))
  /\ (forall (ds : list record) (names : list string),
        Forall2 (fun d s => d !! "name" = Some (JStr s)) ds names ->
        genre_names (JList (JObj <$> ds)) = String.concat ", " names).
Proof.
  intros Hg. split.
  - cbn [genre_names]. rewrite !omap_app. cbn [omap list_omap].
    destruct g; try reflexivity. now destruct (Hg m).
  - intros ds names Hnames. cbn [genre_names]. f_equal.
    induction Hnames as [|d s ds names Hd _ IH]; [reflexivity|].
    cbn [fmap list_fmap omap list_omap]. unfold get at 1. rewrite Hd.
    cbn [default from_option id py_str]. now f_equal.
Qed.


(** *** Startup *)

Lemma lstrip_blank (s : string) : blank (lstrip s) = blank s.
Proof.
  induction s as [|c s IH]; [reflexivity|].
  cbn [lstrip blank]. destruct (is_space c) eqn:Hc; [exact IH|].
  cbn [blank]. now rewrite Hc.
Qed.

Lemma rstrip_empty (s : string) : rstrip s = "" <-> blank s = true.
Proof.
  induction s as [|c s IH]; [now split|].
  cbn [rstrip blank]. destruct (rstrip s) as [|c' r].
  - rewrite (proj1 IH eq_refl), andb_true_r.
    destruct (is_space c); now split.
  - destruct (blank s); [discriminate (proj2 IH eq_refl)|].
    rewrite andb_false_r. split; discriminate.
Qed.

(** A key is missing for the script when the variable is unset, empty or
    made of white space only. *)
Lemma strip_empty (s : string) : String.eqb (strip s) "" = blank s.
Proof.
  unfold strip. destruct (blank s) eqn:Hblank.
  - apply String.eqb_eq, rstrip_empty. now rewrite lstrip_blank.
  - apply String.eqb_neq. intros Hempty. apply rstrip_empty in Hempty.
    rewrite lstrip_blank in Hempty. congruence.
Qed.

(** X16. The script goes past its key check exactly when both keys hold a
    character that is not white space.  When one of them is unset, empty
    or blank, it exits with status 1 before it calls the index service,
    reads the stream or touches a file. *)
Theorem blank_key_stops_the_script (environ : gmap string string)
    (svc : index_service) (movies : list record) (envs : nat -> batch_env)
    (w : world) :
  let pinecone := getenv environ "PINECONE_API_KEY" "" in
  let google := getenv environ "GOOGLE_API_KEY" "" in
  (check_keys environ = Ready <-> blank pinecone = false /\ blank google = false)
  /\ (blank pinecone = true \/ blank google = true ->
      script environ svc movies envs w = (Exited 1, [], w)).
Proof.
  cbv zeta. unfold script, startup, check_keys. rewrite !strip_empty.
  destruct (blank (getenv environ "PINECONE_API_KEY" ""));
    destruct (blank (getenv environ "GOOGLE_API_KEY" "")); split;
    try (split; [discriminate|intros [? ?]; discriminate]);
    try (intros _; reflexivity);
    try (split; [now split|reflexivity]).
  intros [?|?]; discriminate.
Qed.

(** X17. With both keys present, the index is created only when
    [list_indexes] does not name it, once, with dimension 768 and the
    dot-product metric; when it is already there nothing is created and
    the script goes on to the run.  When listing or creating raises, the
    script exits with status 1 and no record is processed. *)
Theorem index_is_created_only_when_missing (environ : gmap string string)
    (svc : index_service) (movies : list record) (envs : nat -> batch_env)
    (w : world) :
  check_keys environ = Ready ->
  let out := script environ svc movies envs w in
  let request := {| request_name := INDEX_NAME;
                    request_dimension := 768;
                    request_metric := "dotproduct";
                    request_cloud := "aws";
                    request_region := "us-east-1" |} in
  (forall names,
     list_indexes svc = Ok names -> INDEX_NAME ∈ names ->
     out = (Finished (run movies envs w).1, [ListIndexes], (run movies envs w).2))
  /\ (forall names,
        list_indexes svc = Ok names -> INDEX_NAME ∉ names ->
        out.1.2 = [ListIndexes; CreateIndex request]
        /\ (create_index svc request = None ->
            out = (Finished (run movies envs w).1,
                   [ListIndexes; CreateIndex request], (run movies envs w).2))
        /\ (forall e, create_index svc request = Some e ->
                      out.1.1 = Exited 1 /\ out.2 = w))
  /\ (forall e, list_indexes svc = Raise e ->
                out = (Exited 1, [ListIndexes], w)).
Proof.
  intros Hkeys. cbv zeta. unfold script, startup, check_index. rewrite Hkeys.
  split; [|split].
  - intros names -> Hin. now rewrite bool_decide_eq_true_2.
  - intros names -> Hout. rewrite bool_decide_eq_false_2 by exact Hout.
    destruct (create_index svc _) as [e|] eqn:Hcreate.
    + split; [reflexivity|]. split; [discriminate|]. now intros e' _.
    + split; [reflexivity|]. split; [reflexivity|discriminate].
  - now intros e ->.
Qed.

(** *** The statistics script *)

(** X18. The statistics script exits with status 1, after one line and
    without a call, exactly when the key is unset, empty or blank.
    Otherwise it ends with status 0 whatever the service does: an
    exception is printed as one [Error:] line, the statistics are asked
    for only after the description was obtained and its host printed, and
    nothing is asked once a call has raised. *)
Theorem stats_script_reports_and_never_raises (environ : gmap string string)
    (svc : stats_service) (dumps : json -> result string) :
  let out := stats_script environ svc dumps in
  let key := getenv environ "PINECONE_API_KEY" "" in
  (out.1.1 = 1%Z <-> blank key = true)
  /\ (blank key = true ->
      out = (1%Z, ["Error: PINECONE_API_KEY not found"], []))
  /\ (blank key = false -> out.1.1 = 0%Z)
  /\ (DescribeIndexStats ∈ out.2 ->
      exists host, describe_index svc = Ok host
                   /\ head out.1.2 = Some ("HOST: " +:+ host))
  /\ (forall e, connect svc = Some e -> blank key = false ->
                out = (0%Z, ["Error: " +:+ exn_msg e], [Connect]))
  /\ (forall e, connect svc = None -> describe_index svc = Raise e ->
                blank key = false ->
                out = (0%Z, ["Error: " +:+ exn_msg e], [Connect; DescribeIndex])).
Proof.
  cbv zeta. unfold stats_script. rewrite strip_empty.
  destruct (blank (getenv environ "PINECONE_API_KEY" ""));
    [|destruct (connect svc) as [e0|] eqn:Hconnect;
      [|destruct (describe_index svc) as [host|e1] eqn:Hdescribe;
        [destruct (describe_index_stats svc) as [stats|e2];
         [destruct (dumps stats) as [text|e3]|]|]]].
  all: repeat apply conj.
  all: try solve [ split; intros; (reflexivity || discriminate)
                 | intros; discriminate
                 | intros _; reflexivity
                 | intros _; eexists; split; reflexivity
                 | intros e He; intros; injection He as <-; reflexivity
                 | intros e Hc He; intros; injection He as <-; reflexivity ].
  all: intros Hin;
    repeat (apply elem_of_cons in Hin as [Hin|Hin]; [discriminate|]);
    inversion Hin.
Qed.


(** *** How many batches, and how large *)

Lemma concat_length_uniform (size : nat) (batches : list (list record)) :
  Forall (fun b => length b = size) batches ->
  length (concat batches) = (size * length batches)%nat.
Proof.
  induction 1 as [|b batches Hb _ IH]; cbn [concat length]; [lia|].
  rewrite length_app, IH, Hb. lia.
Qed.

Lemma batches_of_count (movies : list record) :
  length (batches_of movies) = ((length movies + (BATCH_SIZE - 1)) / BATCH_SIZE)%nat.
Proof.
  unfold batches_of.
  destruct (fill_spec BATCH_SIZE [] movies BATCH_SIZE_positive BATCH_SIZE_positive)
    as (Hcat & Hall & Hrest).
  pose proof BATCH_SIZE_positive as Hpos.
  destruct (fill BATCH_SIZE [] movies) as [full rest]. cbn [fst snd app] in *.
  apply (f_equal length) in Hcat.
  rewrite length_app, (concat_length_uniform BATCH_SIZE full Hall) in Hcat.
  rewrite length_app, <- Hcat.
  destruct rest as [|m rest]; cbn [length] in *.
  - apply (Nat.div_unique _ _ _ (BATCH_SIZE - 1)); lia.
  - apply (Nat.div_unique _ _ _ (length rest)); lia.
Qed.

(** The batches a run has started by the time it ends, cut short or not,
    are as many as the records in them need. *)
Lemma batches_prefix_count (movies : list record) (batches later : list (list record)) :
  batches_of movies = batches ++ later ->
  length batches = ((length (concat batches) + 99) / 100)%nat.
Proof.
  intros Hpre. destruct later as [|b later].
  - rewrite app_nil_r in Hpre. rewrite <- Hpre, (proj1 (batches_of_spec movies)).
    apply batches_of_count.
  - assert (Hfull : Forall (fun b => length b = 100%nat) batches).
    { apply Forall_lookup. intros i x Hx.
      apply (proj1 (proj2 (batches_of_spec movies)) i x).
      - rewrite Hpre. now apply lookup_app_l_Some.
      - rewrite Hpre, length_app. cbn [length].
        apply lookup_lt_Some in Hx. lia. }
    rewrite (concat_length_uniform 100 batches Hfull).
    apply (Nat.div_unique _ _ _ 99); lia.
Qed.

(** X19. A run whose failure log can be appended to calls [process_batch]
    once for every [BATCH_SIZE] records it lets through, rounded up: the
    number of batches is the number of those records plus 99, divided by
    100. *)
Theorem number_of_batches (movies : list record) (envs : nat -> batch_env)
    (w : world) :
  appendable (failed_log_file w) = true ->
  let batches := flushed (events_since w (run movies envs w).2) in
  length batches = ((length (concat batches) + 99) / 100)%nat.
Proof.
  intros _. cbv zeta.
  destruct (run_flushed movies envs w) as (later & Hpre & _).
  exact (batches_prefix_count _ _ _ Hpre).
Qed.

Lemma vectors_of_length (results : list (record * option record)) :
  (length (vectors_of results) <= length results)%nat.
Proof. pose proof (outcomes_split results). lia. Qed.

Lemma submitted_batch_sizes (batch_items : list record) (env : batch_env) :
  Forall (fun vs => 1 <= length vs <= length batch_items)%nat
         (submitted (batch_events batch_items env)).
Proof.
  rewrite batch_events_parts, !submitted_app, submitted_failures.
  pose proof (vectors_of_length (worker_results (prepare <$> batch_items) env)) as Hle.
  rewrite worker_results_length, length_fmap in Hle.
  unfold commit_events.
  destruct (vectors_of (worker_results (prepare <$> batch_items) env)) as [|v vs];
    [constructor|].
  cbn [length] in Hle.
  destruct (upsert_response env); [|destruct (last batch_items)];
    (constructor; [cbn [length]; lia|constructor]).
Qed.

Lemma submitted_run_sizes (batches : list (list record)) (envs : nat -> batch_env)
    (n : nat) :
  Forall (fun b => 1 <= length b <= BATCH_SIZE)%nat batches ->
  Forall (fun vs => 1 <= length vs <= BATCH_SIZE)%nat
         (submitted (run_events batches envs n)).
Proof.
  intros Hsizes. revert n.
  induction Hsizes as [|batch batches Hbatch _ IH]; intros n; [constructor|].
  cbn [run_events]. rewrite submitted_app. apply Forall_app. split; [|apply IH].
  eapply Forall_impl; [apply submitted_batch_sizes|].
  intros vs Hvs. cbn beta in *. lia.
Qed.

(** X20. Every list a run hands to [index.upsert] holds at least one vector
    and at most [BATCH_SIZE] = 100 of them. *)
Theorem upserts_hold_at_most_a_batch (movies : list record)
    (envs : nat -> batch_env) (w : world) :
  BATCH_SIZE = 100%nat
  /\ Forall (fun vs => 1 <= length vs <= BATCH_SIZE)%nat
            (submitted (events_since w (run movies envs w).2)).
Proof.
  split; [reflexivity|].
  pose proof (proj2 (proj2 (batches_of_spec
                (reached (load_checkpoint (checkpoint_file w)) movies)))) as Hsizes.
  destruct (run_cases movies envs w)
    as [(_ & Hevs & _)|((done & b & later & e & entries & Hsplit & _ & Hevs) & _)];
    rewrite Hevs.
  - now apply submitted_run_sizes.
  - rewrite submitted_app.
    rewrite (proj1 (proj2 (cut_short_events b entries))), app_nil_r.
    apply submitted_run_sizes.
    rewrite Hsplit in Hsizes. now apply Forall_app in Hsizes as [Hdone _].
Qed.


End MoreProperties.


Lemma number_of_batches_sample :
  let batches := flushed (events_since fresh_world
                   (run (H := sample_builtins) [movie_a; movie_b; movie_a]
                      (fun _ => env_fine) fresh_world).2) in
  length batches = ((length (concat batches) + 99) / 100)%nat.
Proof.
  apply (number_of_batches (H := sample_builtins)). reflexivity.
Defined.

Lemma upsert_size_sample :
  Forall (fun vs => 1 <= length vs <= BATCH_SIZE)%nat
         (submitted (events_since fresh_world
            (run (H := sample_builtins) [movie_a; movie_b; movie_untitled]
               (fun _ => env_fine) fresh_world).2)).
Proof.
  apply (upserts_hold_at_most_a_batch (H := sample_builtins)).
Defined.

(** A record without poster and release date: both fields are empty
    strings in its metadata. *)
Lemma metadata_gaps_sample :
  match build_metadata (H := sample_builtins) movie_b with
  | Ok md =>
      md !! "poster_path" = Some (JStr "")
      /\ md !! "year" = Some (JStr "")
      /\ (forall k v, md !! k = Some v -> v <> JNull)
  | Raise _ => False
  end.
Proof.
  assert (Hok : succeeds (build_metadata (H := sample_builtins) movie_b) = true)
    by (vm_compute; exact eq_refl).
  destruct (build_metadata (H := sample_builtins) movie_b) as [md|e] eqn:Hmd;
    [|discriminate Hok].
  destruct (metadata_fills_gaps_and_holds_no_null (H := sample_builtins)
              movie_b md Hmd) as (_ & _ & Hposter & Hyear & _ & Hnull).
  split; [|split; [|exact Hnull]].
  - apply Hposter. intros v Hv. vm_compute in Hv. discriminate Hv.
  - apply Hyear. intros v Hv. vm_compute in Hv. discriminate Hv.
Defined.

(** A record whose title is null is not embedded by a service that
    answers every call. *)
Lemma null_title_sample :
  let out := generate_embedding (H := sample_builtins)
               (prepare (H := sample_builtins) movie_untitled)
               (embed_responses env_fine 0) in
  out.1.2 = None /\ length (attempts out.2) = 3%nat.
Proof.
  apply (unsliceable_title_is_never_embedded (H := sample_builtins)
           movie_untitled JNull (Exn "'NoneType' object is not subscriptable")).
  - reflexivity.
  - reflexivity.
Defined.

(** One record embedded and one not: the totals 1 and 1 add up to 2. *)
Lemma counts_sample :
  let out := run (H := sample_builtins) [movie_a; movie_untitled]
               (fun _ => env_fine) fresh_world in
  (1 + 1 = Z.of_nat (length (concat (flushed (events_since fresh_world out.2)))))%Z.
Proof.
  cbv zeta.
  apply (counts_add_up (H := sample_builtins) [movie_a; movie_untitled]
           (fun _ => env_fine) fresh_world 1%Z 1%Z).
  vm_compute. exact eq_refl.
Defined.

Lemma embedding_outage_sample :
  let out := process_batch (H := sample_builtins) [movie_a; movie_b]
               env_rate_limited fresh_world in
  let evs := events_since fresh_world out.2 in
  out.1 = Ok (0%Z, 2%Z)
  /\ submitted evs = []
  /\ saved evs = []
  /\ checkpoint_file out.2 = Absent
  /\ logged evs = [failure_of movie_a; failure_of movie_b].
Proof.
  apply (embedding_outage_logs_the_whole_batch (H := sample_builtins)
           [movie_a; movie_b] env_rate_limited fresh_world).
  - reflexivity.
  - repeat constructor.
  - intros i k. eexists. reflexivity.
Defined.

Lemma unknown_checkpoint_sample :
  run (H := sample_builtins) [movie_a; movie_b] (fun _ => env_fine)
    (world_with_checkpoint (JStr "zzz"))
  = (Ok (0%Z, 0%Z), world_with_checkpoint (JStr "zzz")).
Proof.
  apply (unknown_checkpoint_skips_everything (H := sample_builtins)).
  - reflexivity.
  - repeat constructor; vm_compute; discriminate.
Defined.

Lemma buffer_sample :
  (length (current_batch
             {| skip_mode := false; current_batch := [movie_a];
                processed_count := 0; failed_count := 0 |}) < BATCH_SIZE)%nat.
Proof.
  apply (buffer_stays_below_batch_size (H := sample_builtins) JNull [movie_a]
           (fun _ => env_fine) 0
           {| skip_mode := false; current_batch := [];
              processed_count := 0; failed_count := 0 |}
           fresh_world _ 0 fresh_world).
  - unfold BATCH_SIZE. cbn. lia.
  - reflexivity.
Defined.

Lemma checkpoint_after_run_sample :
  let out := run (H := sample_builtins) [movie_a; movie_b] (fun _ => env_fine)
               fresh_world in
  load_checkpoint (checkpoint_file out.2) = JStr "b".
Proof.
  cbv zeta.
  rewrite (checkpoint_holds_the_last_saved_identifier (H := sample_builtins)
             [movie_a; movie_b] (fun _ => env_fine) fresh_world eq_refl).
  vm_compute. exact eq_refl.
Defined.


Lemma malformed_log_sample :
  let out := process_batch (H := sample_builtins) [movie_a; movie_untitled]
               env_fine world_with_malformed_log in
  (exists e, out.1 = Raise e)
  /\ events_since world_with_malformed_log out.2
     = [ProcessBatch [movie_a; movie_untitled]]
  /\ failed_log_file out.2 = Content (JObj ∅)
  /\ checkpoint_file out.2 = Absent.
Proof.
  apply (malformed_failure_log_aborts_the_batch (H := sample_builtins)
           [movie_a; movie_untitled] env_fine world_with_malformed_log
           1 movie_untitled).
  - reflexivity.
  - reflexivity.
  - vm_compute. exact eq_refl.
Defined.

Lemma clean_run_sample :
  let out := run (H := sample_builtins) [movie_a; movie_b] (fun _ => env_fine)
               fresh_world in
  let evs := events_since fresh_world out.2 in
  out.1 = Ok (Z.of_nat (length (concat (flushed evs))), 0%Z)
  /\ (fun v : record => v !! "id") <$> concat (committed evs) =
       (fun m => Some (JStr (py_str (H := sample_builtins) (get_none m "id"))))
         <$> concat (flushed evs)
  /\ logged evs = []
  /\ failed_log_file out.2 = Absent.
Proof.
  apply (clean_run_commits_every_record (H := sample_builtins)
           [movie_a; movie_b] (fun _ => env_fine) fresh_world).
  - intros k i. eexists. reflexivity.
  - reflexivity.
  - repeat constructor; vm_compute; exact eq_refl.
Defined.

(** The checkpoint [""] is falsy: the whole stream is processed. *)
Lemma unusable_checkpoint_sample :
  let w := world_with_checkpoint (JStr "") in
  let out := run (H := sample_builtins) [movie_a; movie_b] (fun _ => env_fine) w in
  (exists totals, out.1 = Ok totals)
  /\ concat (flushed (events_since w out.2)) = [movie_a; movie_b].
Proof.
  destruct (unusable_checkpoint_means_no_skipping (H := sample_builtins)
              [movie_a; movie_b] (fun _ => env_fine)
              (world_with_checkpoint (JStr "")) eq_refl)
    as (_ & _ & Hall & Hreturns & _).
  destruct Hreturns as [totals Hok]; [reflexivity|repeat constructor|].
  split; [now exists totals|exact (Hall totals Hok)].
Defined.

(** A number among the genres is left out. *)
Lemma genre_names_sample :
  genre_names (H := sample_builtins)
    (JList ([JObj {[ "name" := JStr "Drama" ]}] ++ JInt 3
              :: [JObj {[ "name" := JStr "War" ]}]))
  = genre_names (H := sample_builtins)
      (JList ([JObj {[ "name" := JStr "Drama" ]}]
              ++ [JObj {[ "name" := JStr "War" ]}])).
Proof.
  apply (genre_names_join_the_objects (H := sample_builtins)).
  discriminate.
Defined.

(** Both keys are set and the index is not listed: it is created. *)
Lemma index_creation_sample :
  (script (H := sample_builtins) environ_with_keys service_without_index
     [movie_a] (fun _ => env_fine) fresh_world).1.2
  = [ListIndexes;
     CreateIndex {| request_name := INDEX_NAME;
                    request_dimension := 768;
                    request_metric := "dotproduct";
                    request_cloud := "aws";
                    request_region := "us-east-1" |}].
Proof.
  destruct (index_is_created_only_when_missing (H := sample_builtins)
              environ_with_keys service_without_index [movie_a]
              (fun _ => env_fine) fresh_world) as (_ & Hmissing & _).
  - vm_compute. exact eq_refl.
  - destruct (Hmissing ["another-index"] eq_refl) as (Hcalls & _).
    + intros Hin. apply list_elem_of_singleton in Hin. discriminate Hin.
    + exact Hcalls.
Defined.

(** A record whose title is [7.5], embedded never, in a batch with a record
    that is embedded: the call raises, the entry that was in the log is
    lost and the vector of the other record is not handed to the index. *)
Lemma decimal_title_sample :
  let w := world_with_log [failure_of movie_a] in
  let out := process_batch (H := sample_builtins) [movie_a; movie_decimal]
               env_fine w in
  let evs := events_since w out.2 in
  out.1 = Raise (Exn "Object of type Decimal is not JSON serializable")
  /\ failed_log_file out.2 = Unparsable
  /\ existing_entries (failed_log_file out.2) = []
  /\ submitted evs = []
  /\ saved evs = []
  /\ checkpoint_file out.2 = Absent.
Proof.
  destruct (decimal_title_aborts_the_batch (H := sample_builtins)
              [movie_a; movie_decimal] env_fine
              (world_with_log [failure_of movie_a]) movie_decimal (15 # 2))
    as (Hraise & Hfile & Hlost & Hsub & Hsav & Hckpt & _).
  - reflexivity.
  - apply (list_elem_of_lookup_2 _ 1%nat). reflexivity.
  - reflexivity.
  - now repeat split.
Defined.
